(** * icepick: persistent updates over frozen JavaScript hierarchies

    A shallow embedding of [src/icepick.js] together with the part of the
    JavaScript object model the file relies on: a heap of objects addressed
    by identity, each carrying its kind (plain object or array), its frozen
    flag, its own enumerable data properties and, for arrays, its [length].

    Scope of the object model.
    - Semantics are those of ECMAScript 2015 and later in strict mode (the
      file starts with "use strict"): [Object.keys] and [Object.freeze]
      coerce or pass through numbers, booleans and strings and reject only
      [undefined] and [null]; writing to a frozen object throws.
    - Property keys are property names, i.e. strings; a numeric key such as
      [1] is the name ["1"], as after JavaScript's own key conversion.
    - Numbers are the integers, the other finite numbers, the infinities
      and NaN ([-0] is not told apart from [0]); strings are sequences of
      one-byte characters.  Function values are not part of the value
      universe; the callback of [updateIn] is a function of the
      meta-language.
    - Every object has the prototype it is created with, [Object.prototype]
      or [Array.prototype].  The built-in prototypes are not objects of the
      heap: which names they define is a parameter of the development
      ([Realm]).  A lookup that finds no own property and arrives at such a
      name, and an assignment that arrives at the accessor [__proto__], are
      outside the modelled fragment ([Beyond]).
    - An object is either ordinary (all properties writable, enumerable and
      configurable) or frozen.
    - What the heap looks like after an exception is not tracked: a thrown
      error aborts the whole call, and nothing in the source catches it. *)

From stdpp Require Import base option list strings pretty gmap fin_maps relations.
From Stdlib Require Import ZArith NArith Lia Ascii String.

Set Default Proof Using "Type".
Local Open Scope string_scope.

(** ** Values and objects *)

Definition loc := positive.

(** Numbers: the integers; the other finite numbers, given by the integer
    below them and the binary digits of the fraction that remains (read from
    the first digit on, the closing [xH] being the last digit, a one); the
    two infinities; NaN.  Neither magnitude nor precision is bounded, and
    [-0] is the integer [0]. *)
Inductive number :=
  | NInt (z : Z)
  | NFrac (z : Z) (digits : positive)
  | NInf (negative : bool)
  | NNaN.

Coercion NInt : Z >-> number.
Bind Scope Z_scope with number.

Global Instance number_eq_dec : EqDecision number.
Proof. solve_decision. Defined.

Inductive value :=
  | VUndef
  | VNull
  | VBool (b : bool)
  | VNum (n : number)
  | VStr (s : string)
  | VRef (l : loc).

Global Instance value_eq_dec : EqDecision value.
Proof. solve_decision. Defined.

Definition is_nan (v : value) : bool :=
  match v with
  | VNum NNaN => true
  | _ => false
  end.

(** [===]: primitives by value, objects by identity, and NaN equal to
    nothing, itself included. *)
Definition strict_eq (a b : value) : bool :=
  negb (is_nan a) && bool_decide (a = b).

(** The number [n] as the length of an array: an integer from 0 to
    2^32 - 1, or none. *)
Definition array_length (n : number) : option N :=
  match n with
  | NInt z => if bool_decide (0 ≤ z < 4294967296)%Z then Some (Z.to_N z) else None
  | _ => None
  end.

Inductive kind := KObject | KArray.

Global Instance kind_eq_dec : EqDecision kind.
Proof. solve_decision. Defined.

Record obj := Obj {
  o_kind : kind;
  o_frozen : bool;
  o_props : gmap string value;
  o_len : N
}.

Global Instance obj_eq_dec : EqDecision obj.
Proof. solve_decision. Defined.

(** The program state: the object heap and the log of callback invocations
    (each entry is the argument the callback was called with). *)
Record state := State {
  heap : gmap loc obj;
  calls : list value
}.

Definition upd_heap (f : gmap loc obj → gmap loc obj) (s : state) : state :=
  {| heap := f (heap s); calls := calls s |}.

(** ** Outcomes and the evaluation monad *)

Inductive exn :=
  | TypeError
  | RangeError
  | Error (msg : string).

Inductive outcome (A : Type) :=
  | Ret (a : A) (s : state)   (* normal completion *)
  | Throw (e : exn)           (* an exception reaches the caller *)
  | Beyond                    (* outside the modelled fragment of the language *)
  | NoFuel.                   (* recursion budget of the model exhausted *)
Arguments Ret {A} a s.
Arguments Throw {A} e.
Arguments Beyond {A}.
Arguments NoFuel {A}.

Definition M (A : Type) := state → outcome A.

Definition ret {A} (a : A) : M A := λ s, Ret a s.
Definition throw {A} (e : exn) : M A := λ _, Throw e.
Definition beyond {A} : M A := λ _, Beyond.
Definition bind {A B} (m : M A) (k : A → M B) : M B := λ s,
  match m s with
  | Ret a s' => k a s'
  | Throw e => Throw e
  | Beyond => Beyond
  | NoFuel => NoFuel
  end.

Declare Scope js_scope.
Delimit Scope js_scope with js.
Notation "x <- m ;; k" := (bind m (λ x, k))
  (at level 100, m at next level, right associativity) : js_scope.
Notation "m ;;; k" := (bind m (λ _, k))
  (at level 100, right associativity) : js_scope.
Local Open Scope js_scope.

(** Loops ([for], [forEach], [reduce]) over a list of items, left to right,
    threading what the loop body updates. *)
Fixpoint foldM {A B} (body : B → A → M B) (xs : list A) (acc : B) : M B :=
  match xs with
  | [] => ret acc
  | x :: xs' => acc' <- body acc x ;; foldM body xs' acc'
  end.

(** ** Property keys *)

Definition digit_of (a : ascii) : option N :=
  let n := N_of_ascii a in
  if ((48 <=? n) && (n <=? 57))%N then Some (n - 48)%N else None.

Fixpoint parse_digits (acc : N) (s : string) : option N :=
  match s with
  | EmptyString => Some acc
  | String a s' =>
      match digit_of a with
      | Some d => parse_digits (10 * acc + d)%N s'
      | None => None
      end
  end.

(** The name of index [n]: its decimal numeral. *)
Definition idx (n : N) : string := pretty n.

(** An array index is a name that is the canonical numeral of a number
    below 2^32 - 1. *)
Definition array_index (k : string) : option N :=
  match k with
  | EmptyString => None
  | _ =>
      match parse_digits 0 k with
      | Some n =>
          if bool_decide (idx n = k) && (n <? 4294967295)%N then Some n else None
      | None => None
      end
  end.

(** A numeral: the decimal name of a natural number, of whatever size. *)
Definition numeral (k : string) : option N :=
  match parse_digits 0 k with
  | Some n => if bool_decide (idx n = k) then Some n else None
  | None => None
  end.

(** The numbers [0, 1, ..., n-1]. *)
Definition upto (n : N) : list N := N.of_nat <$> seq 0 (N.to_nat n).

(** ** The built-in prototypes *)

(** [Object.prototype], [Array.prototype] and the prototypes of the
    primitives are not objects of the heap.  What matters of them here is
    which names a lookup finds on them; that depends on the engine and on
    the edition of the language, and is a parameter. *)
Class Realm := inherited : string → bool.

(** The string-named properties of [Object.prototype], [Array.prototype],
    [String.prototype], [Number.prototype] and [Boolean.prototype] in
    ECMAScript 2023 with its Annex B: the realm of the examples. *)
Definition standard_names : list string :=
  [ "constructor"; "hasOwnProperty"; "isPrototypeOf"; "propertyIsEnumerable";
    "toLocaleString"; "toString"; "valueOf"; "__defineGetter__";
    "__defineSetter__"; "__lookupGetter__"; "__lookupSetter__"; "__proto__";
    "at"; "concat"; "copyWithin"; "entries"; "every"; "fill"; "filter";
    "find"; "findIndex"; "findLast"; "findLastIndex"; "flat"; "flatMap";
    "forEach"; "includes"; "indexOf"; "join"; "keys"; "lastIndexOf"; "map";
    "pop"; "push"; "reduce"; "reduceRight"; "reverse"; "shift"; "slice";
    "some"; "sort"; "splice"; "toReversed"; "toSorted"; "toSpliced";
    "unshift"; "values"; "with";
    "toExponential"; "toFixed"; "toPrecision";
    "anchor"; "big"; "blink"; "bold"; "charAt"; "charCodeAt"; "codePointAt";
    "endsWith"; "fixed"; "fontcolor"; "fontsize"; "isWellFormed"; "italics";
    "link"; "localeCompare"; "match"; "matchAll"; "normalize"; "padEnd";
    "padStart"; "repeat"; "replace"; "replaceAll"; "search"; "small";
    "split"; "startsWith"; "strike"; "sub"; "substr"; "substring"; "sup";
    "toLocaleLowerCase"; "toLocaleUpperCase"; "toLowerCase"; "toUpperCase";
    "toWellFormed"; "trim"; "trimEnd"; "trimLeft"; "trimRight"; "trimStart" ].

Definition standard_realm : Realm :=
  λ k, bool_decide (k ∈ standard_names).

Section realm.
Context {realm : Realm}.

(** Does a lookup of [k] that found no own property find [k] on a
    prototype?  [__proto__] is there in every realm, and a numeral in
    none. *)
Definition on_prototype (k : string) : bool :=
  match numeral k with
  | Some _ => false
  | None => bool_decide (k = "__proto__") || inherited k
  end.

(** ** Primitives of the object model *)

Definition alloc (o : obj) : M value := λ s,
  let l := fresh (dom (heap s)) in
  Ret (VRef l) (upd_heap <[l := o]> s).

Definition lookup_obj (l : loc) : M obj := λ s,
  match heap s !! l with
  | Some o => Ret o s
  | None => Beyond
  end.

Definition store (l : loc) (o : obj) : M unit := λ s,
  Ret tt (upd_heap <[l := o]> s).

(** [typeof v === "object"] *)
Definition typeof_object (v : value) : bool :=
  match v with
  | VNull | VRef _ => true
  | _ => false
  end.

(** [Array.isArray(v)] *)
Definition Array_isArray (v : value) : M bool :=
  match v with
  | VRef l => o <- lookup_obj l ;; ret (bool_decide (o_kind o = KArray))
  | _ => ret false
  end.

(** [Object.isFrozen(v)]; primitives count as frozen. *)
Definition Object_isFrozen (v : value) : M bool :=
  match v with
  | VRef l => o <- lookup_obj l ;; ret (o_frozen o)
  | _ => ret true
  end.

(** [Object.freeze(v)]: sets the flag of an object, passes a primitive
    through. *)
Definition Object_freeze (v : value) : M value :=
  match v with
  | VRef l =>
      o <- lookup_obj l ;;
      store l (Obj (o_kind o) true (o_props o) (o_len o)) ;;;
      ret v
  | _ => ret v
  end.

(** [Object.keys(v)]: the own enumerable property names.  The order in
    which a map's names are listed is the map's, not JavaScript's; the
    results below hold for any order. *)
Definition Object_keys (v : value) : M (list string) :=
  match v with
  | VUndef | VNull => throw TypeError
  | VBool _ | VNum _ => ret []
  | VStr s => ret (idx <$> upto (N.of_nat (String.length s)))
  | VRef l => o <- lookup_obj l ;; ret (map_to_list (o_props o)).*1
  end.

(** The character of [s] at position [n], as a one-character string. *)
Definition char_at (s : string) (n : N) : value :=
  match String.get (N.to_nat n) s with
  | Some a => VStr (String a EmptyString)
  | None => VUndef
  end.

(** What the object [o] itself holds under [k]: the own property, [length]
    of an array, or [undefined] where it has none.  Prototypes are not
    looked at. *)
Definition own_get (o : obj) (k : string) : value :=
  if bool_decide (o_kind o = KArray) && bool_decide (k = "length")
  then VNum (Z.of_N (o_len o))
  else default VUndef (o_props o !! k).

(** [k] is an own property of [o]. *)
Definition is_own (o : obj) (k : string) : bool :=
  bool_decide (o_kind o = KArray) && bool_decide (k = "length")
  || bool_decide (is_Some (o_props o !! k)).

(** The end of a lookup that found no own property: [undefined], unless the
    name is one a prototype defines. *)
Definition absent (k : string) : M value :=
  if on_prototype k then beyond else ret VUndef.

(** [v[k]] *)
Definition js_get (v : value) (k : string) : M value :=
  match v with
  | VUndef | VNull => throw TypeError
  | VBool _ | VNum _ => absent k
  | VStr s =>
      if bool_decide (k = "length") then ret (VNum (Z.of_nat (String.length s)))
      else match numeral k with
           | Some n => ret (char_at s n)
           | None => absent k
           end
  | VRef l =>
      o <- lookup_obj l ;;
      if is_own o k then ret (own_get o k) else absent k
  end.

(** Writing [length] on an array: elements at or above the new length are
    removed. *)
Definition survives (n : N) (k : string) : bool :=
  match array_index k with
  | Some i => (i <? n)%N
  | None => true
  end.

Definition set_length (o : obj) (n : N) : obj :=
  Obj (o_kind o) (o_frozen o)
      (filter (λ kv : string * value, survives n kv.1 = true) (o_props o))
      n.

(** Writing a data property of an extensible object: an array grows when
    the name is an index at or beyond its length. *)
Definition put (o : obj) (k : string) (x : value) : obj :=
  Obj (o_kind o) (o_frozen o) (<[k := x]> (o_props o))
      (match o_kind o, array_index k with
       | KArray, Some n => N.max (o_len o) (n + 1)
       | _, _ => o_len o
       end).

(** [ToNumber] of a primitive that is not a string. *)
Definition to_number (x : value) : option number :=
  match x with
  | VUndef => Some NNaN
  | VNull => Some (NInt 0)
  | VBool b => Some (NInt (if b then 1 else 0))
  | VNum n => Some n
  | VStr _ | VRef _ => None
  end.

(** [v[k] = x] in strict mode.  An assignment to [__proto__] on an object
    that has no own property of that name arrives at the accessor of
    [Object.prototype]: it adds no property, and does nothing at all when
    the value is neither an object nor [null].  The value assigned to the
    [length] of an array is first converted to a number. *)
Definition js_set (v : value) (k : string) (x : value) : M unit :=
  match v with
  | VRef l =>
      o <- lookup_obj l ;;
      if bool_decide (k = "__proto__") && negb (is_own o k) then
        match x with
        | VNull | VRef _ => beyond   (* the prototype is replaced *)
        | _ => ret tt
        end
      else if o_frozen o then throw TypeError
      else if bool_decide (o_kind o = KArray) && bool_decide (k = "length") then
        match to_number x with
        | Some n =>
            match array_length n with
            | Some len => store l (set_length o len)
            | None => throw RangeError
            end
        | None => beyond   (* conversion of strings and objects *)
        end
      else store l (put o k x)
  | VUndef | VNull => throw TypeError
  | _ => if bool_decide (k = "__proto__") then beyond else throw TypeError
  end.

(** [delete v[k]] in strict mode. *)
Definition js_delete (v : value) (k : string) : M unit :=
  match v with
  | VUndef | VNull => throw TypeError
  | VRef l =>
      o <- lookup_obj l ;;
      if bool_decide (o_kind o = KArray) && bool_decide (k = "length") then throw TypeError
      else match o_props o !! k with
           | None => ret tt
           | Some _ =>
               if o_frozen o then throw TypeError
               else store l (Obj (o_kind o) (o_frozen o) (delete k (o_props o)) (o_len o))
           end
  | VStr s =>
      if bool_decide (k = "length") then throw TypeError
      else match numeral k with
           | Some n => if (n <? N.of_nat (String.length s))%N then throw TypeError else ret tt
           | None => ret tt
           end
  | VBool _ | VNum _ => ret tt
  end.

(** [Array(n)] *)
Definition Array_new (n : value) : M value :=
  match n with
  | VNum n =>
      match array_length n with
      | Some len => alloc (Obj KArray false ∅ len)
      | None => throw RangeError
      end
  | x => alloc (Obj KArray false {[ idx 0 := x ]} 1)
  end.

(** The iterations of [for (index = 0; index < length; index += 1)]; the
    bound is only ever the [length] of an array, a number. *)
Definition indices_below (length : value) : M (list N) :=
  match length with
  | VNum (NInt z) => ret (upto (Z.to_N z))
  | _ => beyond
  end.

(** Calling the callback: the call is recorded in the log. *)
Definition invoke (callback : value → value) (x : value) : M value := λ s,
  Ret (callback x) {| heap := heap s; calls := (calls s ++ [x])%list |}.

(** ** The source, function by function *)

(** The [path] argument of [getIn], [assocIn] and [updateIn]: an array of
    keys, or a missing argument. *)
Inductive path_arg :=
  | PUndefined
  | PNull
  | PArray (keys : list string).

(** [path || []] *)
Definition or_empty (path : path_arg) : list string :=
  match path with
  | PArray keys => keys
  | PUndefined | PNull => []
  end.

Definition weCareAbout (val : value) : M bool :=
  if strict_eq VNull val then ret false
  else
    isArr <- Array_isArray val ;;
    if isArr then ret true else ret (typeof_object val).

Definition arrayClone (arr : value) : M value :=
  length <- js_get arr "length" ;;
  result <- Array_new length ;;
  indices <- indices_below length ;;
  foldM (λ _ index, x <- js_get arr (idx index) ;; js_set result (idx index) x)
        indices tt ;;;
  ret result.

Definition objClone (o : value) : M value :=
  keys <- Object_keys o ;;
  result <- alloc (Obj KObject false ∅ 0) ;;
  foldM (λ _ key, x <- js_get o key ;; js_set result key x) keys tt ;;;
  ret result.

Definition clone (coll : value) : M value :=
  isArr <- Array_isArray coll ;;
  if isArr then arrayClone coll else objClone coll.

(** [prevNodes] is one array shared by all recursive calls, pushed to and
    popped from in place; it is threaded through the calls here.  The result
    of [baseFreeze] is the pair of the returned value and the array after the
    call.  [freezeProp] is the function handed to [forEach]; [recur] stands
    for the recursive call. *)
Definition freezeProp (recur : value → list value → M (value * list value))
    (coll : value) (prevNodes : list value) (key : string) : M (list value) :=
  prop <- js_get coll key ;;
  care <- weCareAbout prop ;;
  if care
  then r <- recur prop prevNodes ;; ret r.2
  else ret prevNodes.

Fixpoint baseFreeze (fuel : nat) (coll : value) (prevNodes : list value)
    : M (value * list value) :=
  match fuel with
  | O => λ _, NoFuel
  | S fuel' =>
      if (0 <? List.length (List.filter (λ node, strict_eq node coll) prevNodes))%nat
      then throw (Error "object has a reference cycle")
      else
        Object_freeze coll ;;;
        let prevNodes := (prevNodes ++ [coll])%list in
        keys <- Object_keys coll ;;
        prevNodes <- foldM (freezeProp (baseFreeze fuel') coll) keys prevNodes ;;
        let prevNodes := removelast prevNodes in
        ret (coll, prevNodes)
  end.

Definition freeze (fuel : nat) (coll : value) : M value :=
  r <- baseFreeze fuel coll [] ;; ret r.1.

Definition assoc (fuel : nat) (coll : value) (key : string) (val : value) : M value :=
  newObj <- clone coll ;;
  care <- weCareAbout val ;;
  val <-
    (if care
     then frozen <- Object_isFrozen val ;;
          if negb frozen
          then r <- baseFreeze fuel val [] ;; ret r.1
          else ret val
     else ret val) ;;
  js_set newObj key val ;;;
  Object_freeze newObj.

Definition del (o : value) (key : string) : M value :=
  newObj <- clone o ;;
  js_delete newObj key ;;;
  Object_freeze newObj.

(** [path[0]] used as a key: the first element, or [undefined] (the name
    ["undefined"]) on an empty array. *)
Definition first_key (keys : list string) : string :=
  match keys with
  | [] => "undefined"
  | key0 :: _ => key0
  end.

Fixpoint assocIn (fuel : nat) (coll : value) (path : path_arg) (val : value)
    : M value :=
  match fuel with
  | O => λ _, NoFuel
  | S fuel' =>
      match path with
      | PUndefined | PNull => throw TypeError
      | PArray keys =>
          let key0 := first_key keys in
          if (List.length keys =? 1)%nat
          then assoc fuel' coll key0 val
          else
            child <- js_get coll key0 ;;
            inner <- assocIn fuel' child (PArray (tail keys)) val ;;
            assoc fuel' coll key0 inner
      end
  end.

Definition baseGet (coll : value) (path : path_arg) : M value :=
  foldM (λ val key, js_get val key) (or_empty path) coll.

Definition getIn := baseGet.

Definition updateIn (fuel : nat) (coll : value) (path : path_arg)
    (callback : value → value) : M value :=
  existingVal <- baseGet coll path ;;
  x <- invoke callback existingVal ;;
  assocIn fuel coll path x.

(** ** Sample hierarchies *)

Definition st0 : state := State ∅ [].


(** ** Vocabulary of the specification *)

Definition is_ref (v : value) : bool :=
  match v with
  | VRef _ => true
  | _ => false
  end.

(** Two versions of an object with the same kind, properties and length:
    they differ at most in the frozen flag. *)
Definition same_data (o o' : obj) : Prop :=
  o_kind o' = o_kind o ∧ o_props o' = o_props o ∧ o_len o' = o_len o.

(** [h'] is a later heap than [h]: every object of [h] is still there with
    the same kind, properties and length, and is still frozen if it was.
    New objects may have appeared. *)
Definition evolves (h h' : gmap loc obj) : Prop :=
  ∀ l o, h !! l = Some o →
    ∃ o', h' !! l = Some o' ∧ same_data o o' ∧ (o_frozen o = true → o_frozen o' = true).

(** As [evolves], with no new object. *)
Definition flags_only (h h' : gmap loc obj) : Prop :=
  evolves h h' ∧ ∀ l, h !! l = None → h' !! l = None.

(** Representation invariant of heaps: references point to objects; no
    property is named [__proto__]; the indexed elements of an array lie
    below its [length], which is below 2^32 and is not stored among the
    properties. *)
Definition wf_value (h : gmap loc obj) (v : value) : Prop :=
  match v with
  | VRef l => is_Some (h !! l)
  | _ => True
  end.

Definition wf_prop (h : gmap loc obj) (o : obj) (k : string) (v : value) : Prop :=
  wf_value h v ∧ k ≠ "__proto__" ∧
  (o_kind o = KArray →
     k ≠ "length" ∧
     match array_index k with
     | Some n => (n < o_len o)%N
     | None => True
     end).

Definition wf_obj (h : gmap loc obj) (o : obj) : Prop :=
  map_Forall (wf_prop h o) (o_props o) ∧ (o_len o < 4294967296)%N.

Definition wf_heap (h : gmap loc obj) : Prop :=
  map_Forall (λ _ o, wf_obj h o) h.

Global Instance wf_value_dec h v : Decision (wf_value h v).
Proof. destruct v; apply _. Defined.

Global Instance wf_prop_dec h o k v : Decision (wf_prop h o k v).
Proof. unfold wf_prop. destruct (array_index k); apply _. Defined.

Global Instance wf_obj_dec h o : Decision (wf_obj h o).
Proof. unfold wf_obj. apply _. Defined.

Global Instance wf_heap_dec h : Decision (wf_heap h).
Proof. unfold wf_heap. apply _. Defined.

(** [l'] is a direct child of [l]. *)
Definition edge (h : gmap loc obj) (l l' : loc) : Prop :=
  ∃ o k, h !! l = Some o ∧ o_props o !! k = Some (VRef l').

(** Some container in the hierarchy under [l] contains itself, directly or
    through nested containers. *)
Definition has_cycle (h : gmap loc obj) (l : loc) : Prop :=
  ∃ l', rtc (edge h) l l' ∧ tc (edge h) l' l'.

(** A walk from [l] meets one of the containers [ps], or a container that
    contains itself. *)
Definition hits (h : gmap loc obj) (ps : list loc) (l : loc) : Prop :=
  ∃ l', rtc (edge h) l l' ∧ (l' ∈ ps ∨ tc (edge h) l' l').

(** [h'] is [h] with the objects in [R] frozen in addition, and nothing else
    changed. *)
Definition froze (R : loc → Prop) (h h' : gmap loc obj) : Prop :=
  flags_only h h' ∧
  ∀ l o', h' !! l = Some o' →
    (o_frozen o' = true ↔ R l ∨ ∃ o, h !! l = Some o ∧ o_frozen o = true).

(** What a call [baseFreeze(l, ps)] comes to, from state [s], in a heap whose
    shape is that of [h0]: it throws when a walk from [l] meets an ancestor
    or a self-containing container, and otherwise returns [l], leaves [ps] as
    it was and has frozen exactly what [l] reaches. *)
Definition freeze_outcome (h0 : gmap loc obj) (ps : list loc) (l : loc)
    (s : state) (out : outcome (value * list value)) : Prop :=
  (out = Throw (Error "object has a reference cycle") ∧ hits h0 ps l) ∨
  (∃ s', out = Ret (VRef l, VRef <$> ps) s' ∧ ¬ hits h0 ps l ∧
         froze (rtc (edge h0) l) (heap s) (heap s') ∧ calls s' = calls s).

(** Every container in the hierarchy under [l] is frozen. *)
Definition deep_frozen (h : gmap loc obj) (l : loc) : Prop :=
  ∀ l' o, rtc (edge h) l l' → h !! l' = Some o → o_frozen o = true.

(** [k] is a key of the container [o] in the sense of the data model: an
    index for a sequence; for a map any name but those the prototypes
    define, [__proto__] among them. *)
Definition key_ok (o : obj) (k : string) : Prop :=
  on_prototype k = false ∧ (o_kind o = KArray → is_Some (array_index k)).

Global Instance key_ok_dec o k : Decision (key_ok o k).
Proof. unfold key_ok. apply _. Defined.

(** [keys] leads from [c] through containers only, by keys of these
    containers. *)
Fixpoint valid_path (h : gmap loc obj) (c : value) (keys : list string) : Prop :=
  match keys with
  | [] => True
  | k :: keys' =>
      match c with
      | VRef l =>
          match h !! l with
          | Some o => key_ok o k ∧ valid_path h (own_get o k) keys'
          | None => False
          end
      | _ => False
      end
  end.

Global Instance valid_path_dec h c keys : Decision (valid_path h c keys).
Proof.
  revert c. induction keys as [|k keys IH]; intros c; cbn; [apply _|].
  destruct c; try apply _. destruct (h !! l); apply _.
Defined.

(** A name under which every container keeps what is assigned to it: any
    name but [__proto__], which is an accessor, and [length], which an array
    converts to a number. *)
Definition data_name (k : string) : Prop := k ≠ "__proto__" ∧ k ≠ "length".

Global Instance data_name_dec k : Decision (data_name k).
Proof. unfold data_name. apply _. Defined.

(** A read of [k] in [o] that stays in the model: [k] is an own property,
    or no prototype defines it. *)
Definition readable (o : obj) (k : string) : Prop :=
  is_own o k = true ∨ on_prototype k = false.

(** What a clone asks of the object: a length an array can have and, of a
    plain object, no property named [__proto__]. *)
Definition clonable (o : obj) : Prop :=
  (o_len o < 4294967296)%N ∧ (o_kind o = KObject → o_props o !! "__proto__" = None).

(** The frozen version of an object. *)
Definition frz (o : obj) : obj :=
  Obj (o_kind o) true (o_props o) (o_len o).

(** [v] is, in the state [s'] reached from [s], a frozen object that did
    not exist in [s]. *)
Definition new_frozen (s : state) (v : value) (s' : state) : Prop :=
  ∃ r o', v = VRef r ∧ heap s !! r = None ∧ heap s' !! r = Some o' ∧
          o_frozen o' = true.

(** The clone of an object: same kind, not frozen; a plain object keeps its
    properties, an array gets one element per position below its length
    (a hole is read as [undefined]). *)
Definition dense (props : gmap string value) (len : N) : gmap string value :=
  foldl (λ m i, <[idx i := default VUndef (props !! idx i)]> m) ∅ (upto len).

Definition clone_obj (o : obj) : obj :=
  match o_kind o with
  | KObject => Obj KObject false (o_props o) 0
  | KArray => Obj KArray false (dense (o_props o) (o_len o)) (o_len o)
  end.

(** ** Sample hierarchies *)

(** [c = freeze({a: {b: 1, c: 2}})]: [c] is object 1, [c.a] is object 2. *)
Definition sample : state :=
  State {[ 1%positive := Obj KObject true {[ "a" := VRef 2%positive ]} 0;
           2%positive := Obj KObject true {[ "b" := VNum 1; "c" := VNum 2 ]} 0 ]} [].

(** The frozen array [[10, 20, 30]], object 1. *)
Definition sample_array : state :=
  State {[ 1%positive :=
             Obj KArray true
                 {[ "0" := VNum 10; "1" := VNum 20; "2" := VNum 30 ]} 3 ]} [].

(** A hierarchy that is not a tree, none of it frozen: [{x: d, y: d}] with
    [d = {z: {}}] shared by both keys.  The root is object 1, [d] object 2. *)
Definition sample_dag : state :=
  State {[ 1%positive := Obj KObject false
                             {[ "x" := VRef 2%positive; "y" := VRef 2%positive ]} 0;
           2%positive := Obj KObject false {[ "z" := VRef 3%positive ]} 0;
           3%positive := Obj KObject false ∅ 0 ]} [].

(** [cyc = {}; cyc.self = cyc], object 1. *)
Definition sample_cycle : state :=
  State {[ 1%positive := Obj KObject false {[ "self" := VRef 1%positive ]} 0 ]} [].

(** The frozen [c = {a: {b: 1, c: 2}}] of [sample] next to a freshly built,
    unfrozen [{m: {}}]: object 3, with its child object 4. *)
Definition sample_fresh : state :=
  State {[ 1%positive := Obj KObject true {[ "a" := VRef 2%positive ]} 0;
           2%positive := Obj KObject true {[ "b" := VNum 1; "c" := VNum 2 ]} 0;
           3%positive := Obj KObject false {[ "m" := VRef 4%positive ]} 0;
           4%positive := Obj KObject false ∅ 0 ]} [].

(** The array [[10, , 30]] (position 1 is a hole) carrying an extra
    property [tag], not frozen: object 1. *)
Definition sample_sparse : state :=
  State {[ 1%positive :=
             Obj KArray false
                 {[ "0" := VNum 10; "2" := VNum 30; "tag" := VStr "t" ]} 3 ]} [].

(** The frozen [{a: NaN, b: 1}], object 1. *)
Definition sample_nan : state :=
  State {[ 1%positive := Obj KObject true {[ "a" := VNum NNaN; "b" := VNum 1 ]} 0 ]} [].

(** The objects stored at 1 in [sample], [sample_array] and
    [sample_sparse]. *)
Definition sample_root : obj :=
  Obj KObject true {[ "a" := VRef 2%positive ]} 0.

Definition sample_array_obj : obj :=
  Obj KArray true {[ "0" := VNum 10; "1" := VNum 20; "2" := VNum 30 ]} 3.

Definition sample_sparse_obj : obj :=
  Obj KArray false {[ "0" := VNum 10; "2" := VNum 30; "tag" := VStr "t" ]} 3.

(** [x => x + 1] on numbers (other arguments are returned as they are). *)
Definition increment (x : value) : value :=
  match x with
  | VNum (NInt z) => VNum (z + 1)
  | VNum (NFrac z digits) => VNum (NFrac (z + 1) digits)
  | _ => x
  end.

(** * Properties *)

(** ** Index names *)

Lemma digit_of_pretty_N_char d :
  (d < 10)%N → digit_of (pretty_N_char d) = Some d.
Proof.
  intros Hd.
  destruct d as [|p]; [reflexivity|].
  do 4 (destruct p as [p|p|]; try reflexivity; try lia).
Qed.

Lemma parse_pretty_N_go x :
  ∃ p, ∀ acc s, parse_digits acc (pretty_N_go x s) = parse_digits (acc * p + x)%N s.
Proof.
  induction (N.lt_wf_0 x) as [x _ IH].
  destruct (decide (x = 0)%N) as [->|Hx].
  - exists 1%N. intros acc s. rewrite pretty_N_go_0. f_equal. lia.
  - destruct (IH (x `div` 10)%N) as [p Hp].
    { apply N.div_lt; lia. }
    exists (10 * p)%N. intros acc s.
    rewrite pretty_N_go_step by lia. rewrite Hp. cbn [parse_digits].
    rewrite digit_of_pretty_N_char by (apply N.mod_lt; lia).
    f_equal. pose proof (N.div_mod x 10). lia.
Qed.

Lemma parse_digits_idx n : parse_digits 0 (idx n) = Some n.
Proof.
  unfold idx, pretty, pretty_N. destruct (decide (n = 0)%N) as [->|Hn].
  - reflexivity.
  - destruct (parse_pretty_N_go n) as [p Hp]. rewrite Hp. reflexivity.
Qed.

Lemma idx_inj n m : idx n = idx m → n = m.
Proof. unfold idx. apply (inj pretty). Qed.

Lemma idx_not_length n : idx n ≠ "length".
Proof.
  intros H. pose proof (parse_digits_idx n) as Hp. rewrite H in Hp. discriminate.
Qed.

Lemma idx_not_proto n : idx n ≠ "__proto__".
Proof.
  intros H. pose proof (parse_digits_idx n) as Hp. rewrite H in Hp. discriminate.
Qed.

Lemma array_index_Some k n :
  array_index k = Some n → k = idx n ∧ (n < 4294967295)%N.
Proof.
  unfold array_index. destruct k as [|a k]; [discriminate|].
  destruct (parse_digits 0 (String a k)) as [m|]; [|discriminate].
  destruct (bool_decide (idx m = String a k)) eqn:E1; [|discriminate].
  destruct (m <? 4294967295)%N eqn:E2; [|discriminate].
  cbn. intros [= <-]. apply bool_decide_eq_true in E1. apply N.ltb_lt in E2. done.
Qed.

Lemma array_index_idx n :
  (n < 4294967295)%N → array_index (idx n) = Some n.
Proof.
  intros Hn. unfold array_index. rewrite parse_digits_idx.
  rewrite bool_decide_eq_true_2 by done.
  apply N.ltb_lt in Hn. rewrite Hn. cbn.
  destruct (idx n) eqn:E; [|done].
  pose proof (parse_digits_idx n) as Hp. rewrite E in Hp. cbn in Hp.
  injection Hp as <-. by vm_compute in E.
Qed.

Lemma numeral_idx n : numeral (idx n) = Some n.
Proof. unfold numeral. rewrite parse_digits_idx. by rewrite bool_decide_eq_true_2. Qed.

Lemma array_index_numeral k n : array_index k = Some n → numeral k = Some n.
Proof. intros [-> _]%array_index_Some. apply numeral_idx. Qed.

Lemma on_prototype_idx n : on_prototype (idx n) = false.
Proof. unfold on_prototype. by rewrite numeral_idx. Qed.

Lemma on_prototype_proto : on_prototype "__proto__" = true.
Proof. reflexivity. Qed.

Lemma plain_not_proto k : on_prototype k = false → k ≠ "__proto__".
Proof. intros H ->. by rewrite on_prototype_proto in H. Qed.

Lemma array_length_of_N n :
  (n < 4294967296)%N → array_length (NInt (Z.of_N n)) = Some n.
Proof.
  intros Hn. unfold array_length. rewrite bool_decide_eq_true_2 by lia.
  by rewrite N2Z.id.
Qed.

Lemma array_length_Some n len :
  array_length n = Some len → n = NInt (Z.of_N len) ∧ (len < 4294967296)%N.
Proof.
  destruct n as [z| | |]; try done. cbn. case_bool_decide; [|done].
  intros [= <-]. split; [f_equal|]; lia.
Qed.

(** [===] is equality of values, except on NaN. *)
Lemma strict_eq_true a b : strict_eq a b = true ↔ a = b ∧ is_nan a = false.
Proof.
  unfold strict_eq. rewrite andb_true_iff, negb_true_iff, bool_decide_eq_true. tauto.
Qed.

Lemma strict_eq_same a : strict_eq a a = negb (is_nan a).
Proof. unfold strict_eq. by rewrite bool_decide_eq_true_2, andb_true_r. Qed.

Lemma strict_eq_ref_r l v : strict_eq v (VRef l) = bool_decide (v = VRef l).
Proof.
  unfold strict_eq. destruct (is_nan v) eqn:E; [|done].
  destruct v as [| | |[]| |]; try done.
Qed.

Lemma elem_of_upto i n : i ∈ upto n ↔ (i < n)%N.
Proof.
  unfold upto. rewrite list_elem_of_fmap. split.
  - intros (j & -> & Hj). apply elem_of_seq in Hj. lia.
  - intros Hi. exists (N.to_nat i). split; [lia|]. apply elem_of_seq. lia.
Qed.

(** ** The evaluation monad *)

Lemma bind_eq {A B} (m : M A) (k : A → M B) s a s1 :
  m s = Ret a s1 → bind m k s = k a s1.
Proof. unfold bind. by intros ->. Qed.

Lemma bind_Throw {A B} (m : M A) (k : A → M B) s e :
  m s = Throw e → bind m k s = Throw e.
Proof. unfold bind. by intros ->. Qed.

Lemma bind_Ret {A B} (m : M A) (k : A → M B) s b s2 :
  bind m k s = Ret b s2 ↔ ∃ a s1, m s = Ret a s1 ∧ k a s1 = Ret b s2.
Proof.
  unfold bind. split.
  - destruct (m s) as [a s1| | |]; try discriminate. eauto.
  - by intros (a & s1 & -> & ?).
Qed.

Lemma store_store l o o' s :
  upd_heap <[l := o']> (upd_heap <[l := o]> s) = upd_heap <[l := o']> s.
Proof. unfold upd_heap. cbn. f_equal. apply insert_insert_eq. Qed.

Lemma foldM_fmap {A B C} (f : A → B) (body : C → B → M C) xs acc s :
  foldM (λ c x, body c (f x)) xs acc s = foldM body (f <$> xs) acc s.
Proof.
  revert acc s. induction xs as [|x xs IH]; intros acc s; [done|].
  cbn. unfold bind. destruct (body acc (f x) s); auto.
Qed.

(** ** Primitives *)

Lemma lookup_obj_eq l o s : heap s !! l = Some o → lookup_obj l s = Ret o s.
Proof. unfold lookup_obj. by intros ->. Qed.

Lemma lookup_obj_Ret l o s s' :
  lookup_obj l s = Ret o s' → s' = s ∧ heap s !! l = Some o.
Proof. unfold lookup_obj. destruct (heap s !! l); [|done]. by intros [= -> ->]. Qed.

Lemma is_own_prop o k : is_Some (o_props o !! k) → is_own o k = true.
Proof.
  intros H. unfold is_own. rewrite (bool_decide_eq_true_2 _ H). apply orb_true_r.
Qed.

Lemma is_own_length o : o_kind o = KArray → is_own o "length" = true.
Proof. intros H. unfold is_own. by rewrite (bool_decide_eq_true_2 _ H). Qed.

Lemma own_get_not_own o k : is_own o k = false → own_get o k = VUndef.
Proof.
  unfold is_own, own_get. intros [-> H]%orb_false_iff.
  apply bool_decide_eq_false in H.
  destruct (o_props o !! k) eqn:E; [|done]. exfalso. eauto.
Qed.

Lemma absent_plain k s : on_prototype k = false → absent k s = Ret VUndef s.
Proof. unfold absent. by intros ->. Qed.

Lemma absent_Ret k s x s' : absent k s = Ret x s' → x = VUndef ∧ s' = s ∧ on_prototype k = false.
Proof. unfold absent. destruct (on_prototype k); [done|]. by intros [= <- <-]. Qed.

Lemma readable_prop o k : is_Some (o_props o !! k) → readable o k.
Proof. left. by apply is_own_prop. Qed.

Lemma readable_plain o k : on_prototype k = false → readable o k.
Proof. by right. Qed.

Lemma readable_idx o i : readable o (idx i).
Proof. right. apply on_prototype_idx. Qed.

Lemma js_get_ref l o k s :
  heap s !! l = Some o → readable o k → js_get (VRef l) k s = Ret (own_get o k) s.
Proof.
  intros H Hr. unfold js_get. rewrite (bind_eq _ _ _ _ _ (lookup_obj_eq _ _ _ H)).
  destruct (is_own o k) eqn:E; [reflexivity|].
  destruct Hr as [?|Hp]; [congruence|].
  rewrite (absent_plain _ _ Hp). by rewrite own_get_not_own.
Qed.

Lemma js_get_ref_Ret l k s x s' :
  js_get (VRef l) k s = Ret x s' →
  ∃ o, heap s !! l = Some o ∧ readable o k ∧ x = own_get o k ∧ s' = s.
Proof.
  unfold js_get. intros (o & s1 & [-> Ho]%lookup_obj_Ret & H)%bind_Ret.
  exists o. destruct (is_own o k) eqn:E.
  - injection H as <- <-. split; [done|]. split; [by left|done].
  - apply absent_Ret in H as (-> & -> & Hp). split; [done|]. split; [by right|].
    by rewrite own_get_not_own.
Qed.

Lemma js_get_Ret v k s x s' : js_get v k s = Ret x s' → s' = s.
Proof.
  destruct v; unfold js_get; try done; try (by intros (_ & -> & _)%absent_Ret).
  - repeat case_match; try (by intros [= _ ->]); by intros (_ & -> & _)%absent_Ret.
  - intros (o & s1 & [-> _]%lookup_obj_Ret & H)%bind_Ret.
    case_match; [by injection H as _ ->|by apply absent_Ret in H as (_ & -> & _)].
Qed.

(** A read of a primitive does not look at the heap. *)
Lemma js_get_prim v k s s' :
  is_ref v = false → js_get v k s' = match js_get v k s with
                                     | Ret x _ => Ret x s'
                                     | out => out
                                     end.
Proof.
  unfold js_get, absent.
  destruct v; try done; intros _; try (by destruct (on_prototype k)).
  destruct (bool_decide (k = "length")); [done|].
  destruct (numeral k); [done|]. by destruct (on_prototype k).
Qed.

Lemma Array_isArray_ref l o s :
  heap s !! l = Some o →
  Array_isArray (VRef l) s = Ret (bool_decide (o_kind o = KArray)) s.
Proof. intros H. cbn. by rewrite (bind_eq _ _ _ _ _ (lookup_obj_eq _ _ _ H)). Qed.

Lemma Array_isArray_Ret v b s s' : Array_isArray v s = Ret b s' → s' = s.
Proof.
  destruct v; cbn; try (by intros [= _ ->]).
  intros (o & s1 & [-> _]%lookup_obj_Ret & [= _ ->])%bind_Ret. done.
Qed.

Lemma Array_isArray_prim v s : is_ref v = false → Array_isArray v s = Ret false s.
Proof. by destruct v. Qed.

Lemma weCareAbout_ref l o s :
  heap s !! l = Some o → weCareAbout (VRef l) s = Ret true s.
Proof.
  intros H. unfold weCareAbout, strict_eq. cbn [is_nan negb andb].
  rewrite bool_decide_eq_false_2 by done.
  rewrite (bind_eq _ _ _ _ _ (Array_isArray_ref _ _ _ H)). by case_bool_decide.
Qed.

Lemma weCareAbout_prim v s : is_ref v = false → weCareAbout v s = Ret false s.
Proof. by destruct v. Qed.

Lemma weCareAbout_Ret v b s s' :
  weCareAbout v s = Ret b s' → s' = s ∧ b = is_ref v.
Proof.
  destruct v; try (by intros [= <- <-]).
  unfold weCareAbout. cbn.
  intros (b' & s1 & (o & s2 & [-> _]%lookup_obj_Ret & [= <- <-])%bind_Ret & H)%bind_Ret.
  by case_bool_decide; injection H as <- <-.
Qed.

Lemma Object_isFrozen_ref l o s :
  heap s !! l = Some o → Object_isFrozen (VRef l) s = Ret (o_frozen o) s.
Proof. intros H. cbn. by rewrite (bind_eq _ _ _ _ _ (lookup_obj_eq _ _ _ H)). Qed.

Lemma Object_isFrozen_Ret v b s s' : Object_isFrozen v s = Ret b s' → s' = s.
Proof.
  destruct v; cbn; try (by intros [= _ ->]).
  intros (o & s1 & [-> _]%lookup_obj_Ret & [= _ ->])%bind_Ret. done.
Qed.

Lemma Object_freeze_ref l o s :
  heap s !! l = Some o →
  Object_freeze (VRef l) s
  = Ret (VRef l) (upd_heap <[l := Obj (o_kind o) true (o_props o) (o_len o)]> s).
Proof. intros H. cbn. by rewrite (bind_eq _ _ _ _ _ (lookup_obj_eq _ _ _ H)). Qed.

Lemma Object_freeze_prim v s : is_ref v = false → Object_freeze v s = Ret v s.
Proof. by destruct v. Qed.

Lemma Object_keys_ref l o s :
  heap s !! l = Some o →
  Object_keys (VRef l) s = Ret (map_to_list (o_props o)).*1 s.
Proof. intros H. cbn. by rewrite (bind_eq _ _ _ _ _ (lookup_obj_eq _ _ _ H)). Qed.

Lemma Object_keys_Ret v ks s s' : Object_keys v s = Ret ks s' → s' = s.
Proof.
  destruct v; cbn; try done; try (by intros [= _ ->]).
  intros (o & s1 & [-> _]%lookup_obj_Ret & [= _ ->])%bind_Ret. done.
Qed.

Lemma elem_of_keys (m : gmap string value) k :
  k ∈ (map_to_list m).*1 ↔ is_Some (m !! k).
Proof.
  rewrite list_elem_of_fmap. split.
  - intros ([k' v] & -> & H%elem_of_map_to_list). eauto.
  - intros [v H]. exists (k, v). split; [done|]. by apply elem_of_map_to_list.
Qed.

Lemma js_set_put l o k x s :
  heap s !! l = Some o → o_frozen o = false →
  ¬ (o_kind o = KArray ∧ k = "length") → k ≠ "__proto__" →
  js_set (VRef l) k x s = Ret tt (upd_heap <[l := put o k x]> s).
Proof.
  intros H Hf Hk Hp. unfold js_set. rewrite (bind_eq _ _ _ _ _ (lookup_obj_eq _ _ _ H)).
  rewrite (bool_decide_eq_false_2 _ Hp). cbn [andb].
  rewrite Hf. destruct (bool_decide (o_kind o = KArray)) eqn:E1;
    destruct (bool_decide (k = "length")) eqn:E2; try done.
  apply bool_decide_eq_true in E1, E2. tauto.
Qed.

Lemma upd_heap_id l o s : heap s !! l = Some o → upd_heap <[l := o]> s = s.
Proof. intros H. destruct s as [h c]. unfold upd_heap. cbn in *. by rewrite insert_id. Qed.

(** A successful write changes the written object only: neither its kind
    nor its frozen flag.  Unless the name is [__proto__] or the [length] of
    an array, the object was not frozen, and the name is afterwards an own
    property holding the written value. *)
Lemma js_set_Ret v k x s u s' :
  js_set v k x s = Ret u s' →
  ∃ l o o', v = VRef l ∧ heap s !! l = Some o ∧ (k ≠ "__proto__" → o_frozen o = false) ∧
            s' = upd_heap <[l := o']> s ∧ o_kind o' = o_kind o ∧
            o_frozen o' = o_frozen o ∧
            (k ≠ "__proto__" → ¬ (o_kind o = KArray ∧ k = "length") →
             is_own o' k = true ∧ own_get o' k = x).
Proof.
  destruct v; try done; unfold js_set; try (by case_bool_decide).
  intros (o & s1 & [-> Ho]%lookup_obj_Ret & H)%bind_Ret.
  destruct (bool_decide (k = "__proto__") && negb (is_own o k)) eqn:Ep.
  { apply andb_true_iff in Ep as [->%bool_decide_eq_true _].
    exists l, o, o. assert (s' = s) as -> by (destruct x; by try injection H as <-).
    rewrite upd_heap_id by done. by repeat (split; [done|]). }
  destruct (o_frozen o) eqn:Hf; [done|].
  destruct (bool_decide (o_kind o = KArray) && bool_decide (k = "length")) eqn:E.
  - destruct (to_number x) as [n|]; [|done].
    destruct (array_length n) as [len|] eqn:En; [|done]. injection H as <-.
    exists l, o, (set_length o len).
    apply andb_true_iff in E as [E1%bool_decide_eq_true E2%bool_decide_eq_true].
    repeat (split; [done|]). tauto.
  - injection H as <-. exists l, o, (put o k x).
    repeat (split; [done|]). intros _ _. split.
    + apply is_own_prop. cbn. rewrite lookup_insert_eq. eauto.
    + unfold own_get, put. cbn [o_kind o_props]. rewrite E. by rewrite lookup_insert_eq.
Qed.

(** ** Shallow clone *)

Lemma lookup_foldl_insert (g : string → value) ks : ∀ (m : gmap string value) k,
  foldl (λ m k, <[k := g k]> m) m ks !! k
  = if decide (k ∈ ks) then Some (g k) else m !! k.
Proof.
  induction ks as [|k0 ks IH]; intros m k; cbn.
  - case_decide; [by apply not_elem_of_nil in H|done].
  - rewrite IH. destruct (decide (k ∈ ks)) as [Hin|Hnin].
    + rewrite decide_True; [done|by right].
    + destruct (decide (k = k0)) as [->|Hne].
      * rewrite lookup_insert_eq. rewrite decide_True; [done|by left].
      * rewrite lookup_insert_ne by done. rewrite decide_False; [done|].
        intros [?|?]%elem_of_cons; done.
Qed.

Lemma foldl_put (g : string → value) ks : ∀ o,
  (∀ k n, k ∈ ks → o_kind o = KArray → array_index k = Some n → (n < o_len o)%N) →
  foldl (λ o k, put o k (g k)) o ks
  = Obj (o_kind o) (o_frozen o) (foldl (λ m k, <[k := g k]> m) (o_props o) ks) (o_len o).
Proof.
  induction ks as [|k0 ks IH]; intros o Hks; cbn.
  - by destruct o.
  - assert (put o k0 (g k0) = Obj (o_kind o) (o_frozen o) (<[k0 := g k0]> (o_props o)) (o_len o)) as ->.
    { unfold put. f_equal. destruct (o_kind o) eqn:Ek; [done|].
      destruct (array_index k0) as [n|] eqn:En; [|done].
      specialize (Hks k0 n (list_elem_of_here _ _) eq_refl En). lia. }
    rewrite IH; [done|]. cbn. intros k n Hk. apply Hks. by right.
Qed.

Lemma foldl_insert_keys (m0 : gmap string value) :
  foldl (λ m k, <[k := default VUndef (m0 !! k)]> m) ∅ (map_to_list m0).*1 = m0.
Proof.
  apply map_eq. intros k. rewrite lookup_foldl_insert, lookup_empty.
  case_decide as Hin.
  - apply elem_of_keys in Hin as [x Hx]. by rewrite Hx.
  - destruct (m0 !! k) eqn:E; [|done]. exfalso. apply Hin, elem_of_keys. eauto.
Qed.

Lemma copy_loop src r (g : string → value) s0 ks : ∀ o_r,
  o_frozen o_r = false →
  (∀ k, k ∈ ks → ¬ (o_kind o_r = KArray ∧ k = "length")) →
  (∀ k, k ∈ ks → k ≠ "__proto__") →
  (∀ k o', k ∈ ks →
     js_get src k (upd_heap <[r := o']> s0) = Ret (g k) (upd_heap <[r := o']> s0)) →
  foldM (λ _ key, x <- js_get src key ;; js_set (VRef r) key x) ks tt
        (upd_heap <[r := o_r]> s0)
  = Ret tt (upd_heap <[r := foldl (λ o k, put o k (g k)) o_r ks]> s0).
Proof.
  induction ks as [|k ks IH]; intros o_r Hf Hk Hp Hget; [done|].
  cbn [foldM foldl].
  erewrite bind_eq; last first.
  { erewrite bind_eq; [|apply Hget; by left].
    apply js_set_put; [|done|apply Hk; by left|apply Hp; by left].
    cbn. apply lookup_insert_eq. }
  rewrite store_store. apply IH.
  - done.
  - intros k' Hk'. cbn. apply Hk. by right.
  - intros k' Hk'. apply Hp. by right.
  - intros k' o' Hk'. apply Hget. by right.
Qed.

Lemma lookup_dense_idx props len i :
  dense props len !! idx i
  = if decide (i < len)%N then Some (default VUndef (props !! idx i)) else None.
Proof.
  unfold dense.
  rewrite <- (foldl_fmap (λ m k, <[k := default VUndef (props !! k)]> m) ∅ (upto len) idx).
  rewrite lookup_foldl_insert, lookup_empty.
  destruct (decide (i < len)%N) as [Hi|Hi].
  - rewrite decide_True; [done|]. apply list_elem_of_fmap. exists i.
    split; [done|]. by apply elem_of_upto.
  - rewrite decide_False; [done|].
    intros (j & Hj%idx_inj & Hin%elem_of_upto)%list_elem_of_fmap. by subst.
Qed.

Lemma lookup_dense_Some props len k x :
  dense props len !! k = Some x →
  ∃ i, k = idx i ∧ (i < len)%N ∧ x = default VUndef (props !! k).
Proof.
  unfold dense.
  rewrite <- (foldl_fmap (λ m k, <[k := default VUndef (props !! k)]> m) ∅ (upto len) idx).
  rewrite lookup_foldl_insert, lookup_empty.
  case_decide as Hin; [|done]. intros [= <-].
  apply list_elem_of_fmap in Hin as (i & -> & Hi%elem_of_upto). eauto.
Qed.

Lemma fresh_None (s : state) : heap s !! fresh (dom (heap s)) = None.
Proof. apply not_elem_of_dom. apply is_fresh. Qed.

Lemma clonable_array o : o_kind o = KArray → (o_len o < 4294967296)%N → clonable o.
Proof. intros Hk Hlen. split; [done|]. congruence. Qed.

Lemma clonable_same_data o o' : same_data o o' → clonable o → clonable o'.
Proof. unfold clonable. by intros (-> & -> & ->). Qed.

Lemma objClone_ref l o s :
  heap s !! l = Some o → o_kind o = KObject → o_props o !! "__proto__" = None →
  objClone (VRef l) s
  = Ret (VRef (fresh (dom (heap s))))
        (upd_heap <[fresh (dom (heap s)) := clone_obj o]> s).
Proof.
  intros Ho Hk Hproto. unfold objClone.
  rewrite (bind_eq _ _ _ _ _ (Object_keys_ref _ _ _ Ho)).
  assert (l ≠ fresh (dom (heap s))) as Hne.
  { intros E. rewrite E, fresh_None in Ho. done. }
  unfold alloc at 1. cbn [bind]. set (r := fresh (dom (heap s))) in *.
  erewrite bind_eq; last first.
  { apply (copy_loop _ _ (λ k, default VUndef (o_props o !! k))); [done|by intros ? ? [? ?]| |].
    - intros k [x Hx]%elem_of_keys ->. congruence.
    - intros k o' Hin%elem_of_keys. rewrite (js_get_ref l o).
      + unfold own_get. rewrite Hk. done.
      + cbn. by rewrite lookup_insert_ne.
      + by apply readable_prop. }
  rewrite foldl_put by (cbn; done). cbn [o_kind o_frozen o_props o_len].
  rewrite foldl_insert_keys. unfold clone_obj. by rewrite Hk.
Qed.

Lemma arrayClone_ref l o s :
  heap s !! l = Some o → o_kind o = KArray → (o_len o < 4294967296)%N →
  arrayClone (VRef l) s
  = Ret (VRef (fresh (dom (heap s))))
        (upd_heap <[fresh (dom (heap s)) := clone_obj o]> s).
Proof.
  intros Ho Hk Hlen. unfold arrayClone.
  assert (l ≠ fresh (dom (heap s))) as Hne.
  { intros E. rewrite E, fresh_None in Ho. done. }
  rewrite (bind_eq _ _ _ _ _ (js_get_ref _ _ "length" _ Ho (or_introl (is_own_length _ Hk)))).
  assert (own_get o "length" = VNum (Z.of_N (o_len o))) as ->.
  { unfold own_get. by rewrite Hk. }
  unfold Array_new. rewrite (array_length_of_N _ Hlen).
  unfold alloc at 1. cbn [bind]. set (r := fresh (dom (heap s))) in *.
  erewrite (bind_eq (indices_below _)); [|reflexivity]. rewrite N2Z.id.
  erewrite bind_eq; last first.
  { rewrite (foldM_fmap idx (λ _ key, x <- js_get (VRef l) key ;; js_set (VRef r) key x)).
    apply (copy_loop _ _ (λ k, default VUndef (o_props o !! k))); [done| | |].
    - intros k (i & -> & _)%list_elem_of_fmap [_ E]. by apply idx_not_length in E.
    - intros k (i & -> & _)%list_elem_of_fmap. apply idx_not_proto.
    - intros k o' (i & -> & _)%list_elem_of_fmap. rewrite (js_get_ref l o).
      + unfold own_get. rewrite (bool_decide_eq_false_2 (idx i = "length")); [|apply idx_not_length].
        by rewrite andb_false_r.
      + cbn. by rewrite lookup_insert_ne.
      + apply readable_idx. }
  rewrite foldl_put; last first.
  { cbn. intros k n (i & -> & Hi%elem_of_upto)%list_elem_of_fmap _ [E%idx_inj _]%array_index_Some.
    by subst. }
  cbn [o_kind o_frozen o_props o_len].
  rewrite (foldl_fmap (λ m k, <[k := default VUndef (o_props o !! k)]> m) ∅ (upto (o_len o)) idx).
  unfold clone_obj. by rewrite Hk.
Qed.

Lemma clone_ref l o s :
  heap s !! l = Some o → clonable o →
  clone (VRef l) s
  = Ret (VRef (fresh (dom (heap s))))
        (upd_heap <[fresh (dom (heap s)) := clone_obj o]> s).
Proof.
  intros Ho [Hlen Hproto]. unfold clone.
  rewrite (bind_eq _ _ _ _ _ (Array_isArray_ref _ _ _ Ho)).
  case_bool_decide as Hk.
  - by apply arrayClone_ref.
  - assert (o_kind o = KObject) as Hk' by (by destruct (o_kind o)).
    apply objClone_ref; auto.
Qed.

Lemma copy_loop_Ret src r s0 ks : ∀ o_r u s',
  o_frozen o_r = false →
  foldM (λ _ key, x <- js_get src key ;; js_set (VRef r) key x) ks tt
        (upd_heap <[r := o_r]> s0) = Ret u s' →
  ∃ o', s' = upd_heap <[r := o']> s0 ∧ o_frozen o' = false ∧ o_kind o' = o_kind o_r.
Proof.
  induction ks as [|k ks IH]; intros o_r u s' Hf.
  - intros [= _ <-]. eauto.
  - cbn [foldM].
    intros (u1 & s1 & (x & s2 & ->%js_get_Ret & Hset)%bind_Ret & Hrest)%bind_Ret.
    apply js_set_Ret in Hset as (l & o & o' & [= <-] & Ho & _ & -> & Hk & Hf' & _).
    cbn in Ho. rewrite lookup_insert_eq in Ho. injection Ho as <-.
    rewrite store_store in Hrest. destruct u1.
    apply IH in Hrest as (o'' & -> & ? & ?); [|congruence]. exists o''. repeat split; congruence.
Qed.

(** Whatever is cloned, a clone that returns has allocated one new object,
    not frozen, and touched nothing else. *)
Lemma clone_Ret coll s v s' :
  clone coll s = Ret v s' →
  ∃ o', v = VRef (fresh (dom (heap s))) ∧
        s' = upd_heap <[fresh (dom (heap s)) := o']> s ∧ o_frozen o' = false.
Proof.
  unfold clone. intros (isArr & s1 & ->%Array_isArray_Ret & H)%bind_Ret.
  destruct isArr.
  - unfold arrayClone in H.
    apply bind_Ret in H as (len & s1 & ->%js_get_Ret & H).
    apply bind_Ret in H as (res & s1 & Hnew & H).
    apply bind_Ret in H as (ixs & s2 & Hix & H).
    apply bind_Ret in H as (u & s3 & Hloop & [= <- <-]).
    assert (s2 = s1) as ->.
    { destruct len as [| | |[]| |]; by try injection Hix as _ <-. }
    assert (∃ o0, res = VRef (fresh (dom (heap s))) ∧
                  s1 = upd_heap <[fresh (dom (heap s)) := o0]> s ∧ o_frozen o0 = false)
      as (o0 & -> & -> & Hf).
    { unfold Array_new, alloc in Hnew.
      destruct len as [| | |n| |]; try (injection Hnew as <- <-; eauto).
      destruct (array_length n); [|done]. injection Hnew as <- <-; eauto. }
    rewrite (foldM_fmap idx (λ _ key, x <- js_get coll key ;; js_set _ key x)) in Hloop.
    apply copy_loop_Ret in Hloop as (o' & -> & ? & _); eauto.
  - unfold objClone in H.
    apply bind_Ret in H as (ks & s1 & ->%Object_keys_Ret & H).
    apply bind_Ret in H as (res & s1 & [= <- <-] & H).
    apply bind_Ret in H as (u & s3 & Hloop & [= <- <-]).
    apply copy_loop_Ret in Hloop as (o' & -> & ? & _); eauto.
Qed.

(** ** How heaps evolve *)

Lemma same_data_refl o : same_data o o.
Proof. done. Qed.

Lemma same_data_trans o1 o2 o3 : same_data o1 o2 → same_data o2 o3 → same_data o1 o3.
Proof. unfold same_data. intros (?&?&?) (?&?&?). repeat split; congruence. Qed.

Lemma own_get_same_data o o' k : same_data o o' → own_get o' k = own_get o k.
Proof. unfold own_get. by intros (-> & -> & ->). Qed.

Lemma is_own_same_data o o' k : same_data o o' → is_own o' k = is_own o k.
Proof. unfold is_own. by intros (-> & -> & _). Qed.

Lemma readable_same_data o o' k : same_data o o' → readable o k → readable o' k.
Proof. unfold readable. intros Hd. by rewrite (is_own_same_data o o'). Qed.

Lemma evolves_refl h : evolves h h.
Proof. intros l o H. exists o. done. Qed.

Lemma evolves_trans h1 h2 h3 : evolves h1 h2 → evolves h2 h3 → evolves h1 h3.
Proof.
  intros H12 H23 l o1 H1.
  destruct (H12 l o1 H1) as (o2 & H2 & Hd12 & Hf12).
  destruct (H23 l o2 H2) as (o3 & H3 & Hd23 & Hf23).
  exists o3. split; [done|]. split; [by eapply same_data_trans|auto].
Qed.

Lemma flags_only_refl h : flags_only h h.
Proof. split; [apply evolves_refl|done]. Qed.

Lemma flags_only_trans h1 h2 h3 : flags_only h1 h2 → flags_only h2 h3 → flags_only h1 h3.
Proof. intros [? ?] [? ?]. split; [by eapply evolves_trans|auto]. Qed.

Lemma evolves_alloc h r o : h !! r = None → evolves h (<[r := o]> h).
Proof.
  intros Hr l o' Hl. exists o'. rewrite lookup_insert_ne by congruence. done.
Qed.

Lemma flags_only_freeze h l o :
  h !! l = Some o → flags_only h (<[l := Obj (o_kind o) true (o_props o) (o_len o)]> h).
Proof.
  intros Hl. split.
  - intros l' o' Hl'. destruct (decide (l' = l)) as [->|Hne].
    + rewrite lookup_insert_eq. eexists. split; [done|].
      assert (o' = o) as -> by congruence. done.
    + rewrite lookup_insert_ne by done. exists o'. done.
  - intros l' Hl'. rewrite lookup_insert_ne; [done|]. congruence.
Qed.

(** ** Deep freeze: what a returning call has done *)

Lemma Object_freeze_Ret v x s s' :
  Object_freeze v s = Ret x s' →
  x = v ∧ flags_only (heap s) (heap s') ∧ calls s' = calls s.
Proof.
  destruct v; try (intros [= <- <-]; split; [done|]; split; [apply flags_only_refl|done]).
  cbn. intros (o & s1 & [-> Ho]%lookup_obj_Ret & [= <- <-])%bind_Ret.
  split; [done|]. split; [|done]. by apply flags_only_freeze.
Qed.

Section freeze_partial.
Variable recur : value → list value → M (value * list value).
Hypothesis recur_Ret : ∀ c prev s r s',
  recur c prev s = Ret r s' →
  r.1 = c ∧ flags_only (heap s) (heap s') ∧ calls s' = calls s.

Lemma freezeProp_Ret coll prev key s prev' s' :
  freezeProp recur coll prev key s = Ret prev' s' →
  flags_only (heap s) (heap s') ∧ calls s' = calls s.
Proof using recur_Ret.
  unfold freezeProp.
  intros (prop & s1 & ->%js_get_Ret & H)%bind_Ret.
  apply bind_Ret in H as (care & s1 & [-> _]%weCareAbout_Ret & H).
  destruct care.
  - apply bind_Ret in H as (r & s1 & (_ & ? & ?)%recur_Ret & [= _ <-]). done.
  - injection H as _ <-. split; [apply flags_only_refl|done].
Qed.

Lemma freeze_loop_Ret coll keys : ∀ prev s prev' s',
  foldM (freezeProp recur coll) keys prev s = Ret prev' s' →
  flags_only (heap s) (heap s') ∧ calls s' = calls s.
Proof using recur_Ret.
  induction keys as [|key keys IH]; intros prev s prev' s'.
  - intros [= _ <-]. split; [apply flags_only_refl|done].
  - cbn [foldM]. intros (p1 & s1 & [? ?]%freezeProp_Ret & [? ?]%IH)%bind_Ret.
    split; [by eapply flags_only_trans|congruence].
Qed.
End freeze_partial.

Lemma baseFreeze_Ret fuel : ∀ coll prev s r s',
  baseFreeze fuel coll prev s = Ret r s' →
  r.1 = coll ∧ flags_only (heap s) (heap s') ∧ calls s' = calls s.
Proof.
  induction fuel as [|fuel IH]; intros coll prev s r s'; [done|].
  cbn [baseFreeze]. destruct (0 <? _)%nat; [done|].
  intros (x & s1 & (_ & Hf1 & Hc1)%Object_freeze_Ret & H)%bind_Ret.
  apply bind_Ret in H as (keys & s2 & ->%Object_keys_Ret & H).
  apply bind_Ret in H as (prev' & s2 & [Hf2 Hc2]%(freeze_loop_Ret _ IH) & [= <- <-]).
  split; [done|]. split; [by eapply flags_only_trans|congruence].
Qed.

(** ** Single-key update: what a returning call has done *)

Lemma frozen_same_data_eq o o' :
  same_data o o' → o_frozen o = true → o_frozen o' = true → o' = o.
Proof. destruct o, o'. unfold same_data. cbn. intros (-> & -> & ->) -> ->. done. Qed.

Lemma evolves_frozen h h' l o :
  evolves h h' → h !! l = Some o → o_frozen o = true → h' !! l = Some o.
Proof.
  intros He Hl Hf. destruct (He l o Hl) as (o' & Hl' & Hd & Hf').
  rewrite Hl'. f_equal. apply frozen_same_data_eq; auto.
Qed.

Lemma assoc_freeze_step fuel (care : bool) val s x s' :
  (if care
   then frozen <- Object_isFrozen val ;;
        if negb frozen
        then r <- baseFreeze fuel val [] ;; ret r.1
        else ret val
   else ret val) s = Ret x s' →
  x = val ∧ flags_only (heap s) (heap s') ∧ calls s' = calls s.
Proof.
  destruct care.
  - intros (frozen & s1 & ->%Object_isFrozen_Ret & H)%bind_Ret.
    destruct frozen; cbn [negb] in H.
    + injection H as <- <-. split; [done|]. split; [apply flags_only_refl|done].
    + apply bind_Ret in H as (r & s1 & (? & ? & ?)%baseFreeze_Ret & [= <- <-]). done.
  - intros [= <- <-]. split; [done|]. split; [apply flags_only_refl|done].
Qed.

Lemma assoc_Ret fuel coll key val s v s' :
  assoc fuel coll key val s = Ret v s' →
  ∃ o', v = VRef (fresh (dom (heap s))) ∧
        heap s' !! fresh (dom (heap s)) = Some o' ∧
        o_frozen o' = true ∧
        (key ≠ "__proto__" → ¬ (o_kind o' = KArray ∧ key = "length") →
         is_own o' key = true ∧ own_get o' key = val) ∧
        evolves (heap s) (heap s') ∧ calls s' = calls s.
Proof.
  unfold assoc.
  intros (newObj & s1 & (oc & -> & -> & Hoc)%clone_Ret & H)%bind_Ret.
  apply bind_Ret in H as (care & s1 & [-> _]%weCareAbout_Ret & H).
  apply bind_Ret in H as (x & s2 & (-> & [Hev Hdom] & Hcalls)%assoc_freeze_step & H).
  apply bind_Ret in H as (u & s3 & Hset & H).
  apply js_set_Ret in Hset as (l & o2 & o3 & [= <-] & Ho2 & _ & -> & Hk3 & Hf3 & Hget).
  rewrite (Object_freeze_ref _ o3) in H by (cbn; apply lookup_insert_eq).
  injection H as <- <-. rewrite store_store.
  eexists. split; [done|]. cbn [heap upd_heap]. rewrite lookup_insert_eq.
  split; [done|]. split; [done|]. split.
  { cbn [o_kind]. intros Hp Hl. rewrite Hk3 in Hl. exact (Hget Hp Hl). }
  split; [|done].
  intros l o Hl.
  assert (l ≠ fresh (dom (heap s))) as Hne.
  { intros E. rewrite E, fresh_None in Hl. done. }
  rewrite lookup_insert_ne by done. apply Hev. cbn. by rewrite lookup_insert_ne.
Qed.

Lemma js_delete_Ret v k s u s' :
  js_delete v k s = Ret u s' →
  s' = s ∨ ∃ l o o', v = VRef l ∧ heap s !! l = Some o ∧ s' = upd_heap <[l := o']> s ∧
                     o_frozen o = false ∧ o_frozen o' = false.
Proof.
  destruct v; cbn; try done; try (intros [= _ <-]; by left).
  { destruct (bool_decide (k = "length")); [done|].
    destruct (numeral k) as [n|]; [|intros [= _ <-]; by left].
    destruct (n <? _)%N; [done|]. intros [= _ <-]. by left. }
  intros (o & s1 & [-> Ho]%lookup_obj_Ret & H)%bind_Ret.
  destruct (_ && _); [done|]. destruct (o_props o !! k).
  - destruct (o_frozen o) eqn:Hf; [done|]. injection H as <-. right.
    eexists l, o, _. repeat split; try done.
  - injection H as <-. by left.
Qed.

Lemma del_Ret coll key s v s' :
  del coll key s = Ret v s' →
  ∃ o', v = VRef (fresh (dom (heap s))) ∧
        s' = upd_heap <[fresh (dom (heap s)) := o']> s ∧ o_frozen o' = true.
Proof.
  unfold del.
  intros (newObj & s1 & (oc & -> & -> & Hoc)%clone_Ret & H)%bind_Ret.
  apply bind_Ret in H as (u & s2 & Hdel & H).
  apply js_delete_Ret in Hdel as [->|(l & o & o' & [= <-] & Ho & -> & _ & Hf)].
  - rewrite (Object_freeze_ref _ oc) in H by (cbn; apply lookup_insert_eq).
    injection H as <- <-. rewrite store_store. eauto.
  - rewrite (Object_freeze_ref _ o') in H by (cbn; apply lookup_insert_eq).
    injection H as <- <-. rewrite !store_store. eauto.
Qed.

Lemma del_evolves coll key s v s' :
  del coll key s = Ret v s' → evolves (heap s) (heap s') ∧ calls s' = calls s.
Proof.
  intros (o' & -> & -> & _)%del_Ret. split; [|done].
  cbn. apply evolves_alloc, fresh_None.
Qed.

(** ** Path-guided operations: what a returning call has done *)

Lemma baseGet_Ret coll path s v s' : baseGet coll path s = Ret v s' → s' = s.
Proof.
  unfold baseGet. generalize (or_empty path). intros keys. revert coll.
  induction keys as [|k keys IH]; intros coll.
  - by intros [= _ <-].
  - cbn [foldM]. intros (x & s1 & ->%js_get_Ret & H)%bind_Ret. eauto.
Qed.

Lemma assocIn_Ret fuel : ∀ coll path val s v s',
  assocIn fuel coll path val s = Ret v s' →
  evolves (heap s) (heap s') ∧ calls s' = calls s.
Proof.
  induction fuel as [|fuel IH]; intros coll path val s v s'; [done|].
  cbn [assocIn]. destruct path as [| |keys]; try done.
  destruct (List.length keys =? 1)%nat.
  - intros (o' & _ & _ & _ & _ & ? & ?)%assoc_Ret. done.
  - intros (child & s1 & ->%js_get_Ret & H)%bind_Ret.
    apply bind_Ret in H as (inner & s1 & [He1 Hc1]%IH & H).
    apply assoc_Ret in H as (o' & _ & _ & _ & _ & He2 & Hc2).
    split; [by eapply evolves_trans|congruence].
Qed.

Lemma updateIn_Ret fuel coll path callback s v s' :
  updateIn fuel coll path callback s = Ret v s' →
  evolves (heap s) (heap s') ∧
  ∃ existing, baseGet coll path s = Ret existing s ∧
              calls s' = (calls s ++ [existing])%list.
Proof.
  unfold updateIn. intros (existing & s1 & Hget & H)%bind_Ret.
  pose proof (baseGet_Ret _ _ _ _ _ Hget) as ->.
  apply bind_Ret in H as (x & s1 & [= <- <-] & [He Hc]%assocIn_Ret).
  split; [done|]. exists existing. done.
Qed.

(** ** Non-mutation *)

(** C4.  A frozen container [c] is left exactly as it was by [assoc], [del],
    [assocIn] and [updateIn]: whenever one of them returns, the object stored
    at [c] in the resulting heap is the object stored there before, with the
    same kind, the same property names, the same property values (the same
    references at every child position) and the same length. *)
Theorem non_mutation fuel c o key path val callback s :
  heap s !! c = Some o → o_frozen o = true →
  (∀ v s', assoc fuel (VRef c) key val s = Ret v s' → heap s' !! c = Some o) ∧
  (∀ v s', del (VRef c) key s = Ret v s' → heap s' !! c = Some o) ∧
  (∀ v s', assocIn fuel (VRef c) path val s = Ret v s' → heap s' !! c = Some o) ∧
  (∀ v s', updateIn fuel (VRef c) path callback s = Ret v s' → heap s' !! c = Some o).
Proof.
  intros Hc Hf. repeat split; intros v s' H.
  - apply assoc_Ret in H as (_ & _ & _ & _ & _ & He & _). by eapply evolves_frozen.
  - apply del_evolves in H as [He _]. by eapply evolves_frozen.
  - apply assocIn_Ret in H as [He _]. by eapply evolves_frozen.
  - apply updateIn_Ret in H as [He _]. by eapply evolves_frozen.
Qed.

(** ** Lookup *)

(** C10.  A missing path argument ([null] or [undefined]) is read as the
    empty path: [getIn] returns the container it was given, the very same
    value, as it does for [[]]. *)
Theorem getIn_missing_path c s :
  getIn c PNull s = Ret c s ∧
  getIn c PUndefined s = Ret c s ∧
  getIn c (PArray []) s = Ret c s.
Proof. repeat split. Qed.

Lemma baseGet_cons coll k keys s :
  baseGet coll (PArray (k :: keys)) s
  = (x <- js_get coll k ;; baseGet x (PArray keys)) s.
Proof. reflexivity. Qed.

Lemma baseGet_app coll p q s :
  baseGet coll (PArray (p ++ q)) s
  = (x <- baseGet coll (PArray p) ;; baseGet x (PArray q)) s.
Proof.
  revert coll. induction p as [|k p IH]; intros coll; [done|].
  cbn [app]. rewrite baseGet_cons.
  destruct (js_get coll k s) as [x s1| | |] eqn:E.
  - pose proof (js_get_Ret _ _ _ _ _ E) as ->.
    rewrite (bind_eq _ _ _ _ _ E), IH.
    unfold bind at 2. rewrite baseGet_cons, (bind_eq _ _ _ _ _ E). reflexivity.
  - unfold bind at 2. rewrite baseGet_cons. unfold bind. by rewrite E.
  - unfold bind at 2. rewrite baseGet_cons. unfold bind. by rewrite E.
  - unfold bind at 2. rewrite baseGet_cons. unfold bind. by rewrite E.
Qed.

(** ** Update composition *)

(** C8.  When [getIn(c, path)] returns [existing], [updateIn(c, path, fn)] is
    [assocIn(c, path, fn(existing))] run after the one call of [fn]; and when
    [updateIn] returns, the call log has grown by exactly one entry, the
    call of [fn] on [existing]. *)
Theorem update_composition fuel c path callback existing s :
  getIn c path s = Ret existing s →
  updateIn fuel c path callback s
  = assocIn fuel c path (callback existing)
            (State (heap s) (calls s ++ [existing])%list) ∧
  (∀ r s', updateIn fuel c path callback s = Ret r s' →
           calls s' = (calls s ++ [existing])%list).
Proof.
  intros Hget. unfold getIn in Hget. split.
  - unfold updateIn. rewrite (bind_eq _ _ _ _ _ Hget). reflexivity.
  - intros r s' (_ & e & He & Hc)%updateIn_Ret. congruence.
Qed.

(** ** Descending through a primitive *)

Lemma assocIn_absent fuel : ∀ c pre rest val x s,
  getIn c (PArray pre) s = Ret x s → x = VUndef ∨ x = VNull → rest ≠ [] →
  (List.length pre < fuel)%nat →
  assocIn fuel c (PArray (pre ++ rest)) val s = Throw TypeError.
Proof.
  induction fuel as [|fuel IH]; intros c pre rest val x s Hget Hx Hrest Hfuel; [lia|].
  destruct pre as [|k pre].
  - injection Hget as ->. destruct rest as [|k rest]; [done|].
    cbn [app assocIn first_key]. destruct rest as [|k' rest].
    + by destruct Hx as [-> | ->].
    + by destruct Hx as [-> | ->].
  - unfold getIn in Hget. rewrite baseGet_cons in Hget.
    apply bind_Ret in Hget as (x1 & s1 & Hk & Hget).
    pose proof (js_get_Ret _ _ _ _ _ Hk) as ->.
    cbn [app assocIn first_key tail].
    assert ((List.length (k :: pre ++ rest) =? 1)%nat = false) as ->.
    { destruct pre, rest; done. }
    rewrite (bind_eq _ _ _ _ _ Hk). apply bind_Throw.
    eapply IH; eauto. cbn in Hfuel. lia.
Qed.

(** C3, amended.  When the value reached after a prefix of the path is
    [undefined] (a missing key) or [null] and more path segments remain,
    [assocIn], and [updateIn] with it, raise a [TypeError]. *)
Theorem assocIn_absent_intermediate_raises fuel c pre rest val callback x s :
  getIn c (PArray pre) s = Ret x s → x = VUndef ∨ x = VNull → rest ≠ [] →
  (List.length pre < fuel)%nat →
  assocIn fuel c (PArray (pre ++ rest)) val s = Throw TypeError ∧
  updateIn fuel c (PArray (pre ++ rest)) callback s = Throw TypeError.
Proof.
  intros Hget Hx Hrest Hfuel. split; [by eapply assocIn_absent|].
  unfold updateIn. apply bind_Throw. rewrite baseGet_app.
  unfold getIn in Hget. rewrite (bind_eq _ _ _ _ _ Hget).
  destruct rest as [|k rest]; [done|]. by destruct Hx as [-> | ->].
Qed.

(** ** Deleting from an array *)

Lemma del_ref l o key s :
  heap s !! l = Some o → clonable o →
  is_Some (o_props (clone_obj o) !! key) →
  ¬ (o_kind o = KArray ∧ key = "length") →
  del (VRef l) key s
  = Ret (VRef (fresh (dom (heap s))))
        (upd_heap <[fresh (dom (heap s)) :=
                      Obj (o_kind o) true (delete key (o_props (clone_obj o)))
                          (o_len (clone_obj o))]> s).
Proof.
  intros Ho Hlen [x Hx] Hkey. unfold del.
  rewrite (bind_eq _ _ _ _ _ (clone_ref _ _ _ Ho Hlen)).
  assert (o_kind (clone_obj o) = o_kind o) as Hkind.
  { unfold clone_obj. by destruct (o_kind o) eqn:E. }
  assert (o_frozen (clone_obj o) = false) as Hfrozen.
  { unfold clone_obj. by destruct (o_kind o). }
  erewrite bind_eq; last first.
  { cbn [js_delete]. erewrite bind_eq; [|apply lookup_obj_eq; cbn; apply lookup_insert_eq].
    rewrite Hkind, Hx, Hfrozen.
    destruct (bool_decide (o_kind o = KArray) && bool_decide (key = "length")) eqn:E.
    - apply andb_true_iff in E as [?%bool_decide_eq_true ?%bool_decide_eq_true]. tauto.
    - reflexivity. }
  rewrite store_store.
  erewrite Object_freeze_ref by (cbn; apply lookup_insert_eq).
  rewrite store_store. reflexivity.
Qed.

(** C9.  Deleting index [k] of an array [s] of length [n > k] returns a new
    frozen array of the same length [n] in which the name [k] is no longer a
    property (a hole), while every other position [i < n] is a property
    whose value is the value [s[i]]: nothing is shifted down. *)
Theorem del_array_leaves_hole l o k s :
  heap s !! l = Some o → o_kind o = KArray → (o_len o < 4294967296)%N →
  (k < o_len o)%N →
  ∃ r o',
    del (VRef l) (idx k) s = Ret (VRef r) (upd_heap <[r := o']> s) ∧
    heap s !! r = None ∧
    o_kind o' = KArray ∧ o_frozen o' = true ∧ o_len o' = o_len o ∧
    o_props o' !! idx k = None ∧
    own_get o' (idx k) = VUndef ∧
    ∀ i, i ≠ k → (i < o_len o)%N → o_props o' !! idx i = Some (own_get o (idx i)).
Proof.
  intros Ho Hk Hlen Hlt.
  assert (∀ i, own_get o (idx i) = default VUndef (o_props o !! idx i)) as Hown.
  { intros i. unfold own_get.
    rewrite (bool_decide_eq_false_2 (idx i = "length")) by apply idx_not_length.
    by rewrite andb_false_r. }
  assert (clone_obj o = Obj KArray false (dense (o_props o) (o_len o)) (o_len o)) as Hclone.
  { unfold clone_obj. by rewrite Hk. }
  eexists _, _. split; [|split; [apply fresh_None|]].
  - apply del_ref; try done.
    + by apply clonable_array.
    + rewrite Hclone. cbn. rewrite lookup_dense_idx. rewrite decide_True by done. eauto.
    + intros [_ E]. by apply idx_not_length in E.
  - rewrite Hclone. cbn [o_kind o_frozen o_len o_props].
    split; [done|]. split; [done|]. split; [done|].
    split; [apply lookup_delete_eq|]. split.
    + unfold own_get. cbn [o_kind o_props]. rewrite Hk.
      rewrite (bool_decide_eq_false_2 (idx k = "length")) by apply idx_not_length.
      rewrite andb_false_r. by rewrite lookup_delete_eq.
    + intros i Hik Hi. rewrite lookup_delete_ne by (intros E%idx_inj; done).
      rewrite lookup_dense_idx, decide_True by done. by rewrite Hown.
Qed.

(** ** Reading after the heap has evolved *)

Lemma js_get_evolves v k s x s2 :
  js_get v k s = Ret x s → evolves (heap s) (heap s2) → js_get v k s2 = Ret x s2.
Proof.
  intros Hget Hev. destruct (is_ref v) eqn:E.
  - destruct v as [| | | | |l]; try done.
    apply js_get_ref_Ret in Hget as (o & Ho & Hr & -> & _).
    destruct (Hev l o Ho) as (o' & Ho' & Hd & _).
    rewrite (js_get_ref l o'); [by rewrite (own_get_same_data o o')|done|].
    by apply (readable_same_data o).
  - rewrite (js_get_prim v k s s2 E). by rewrite Hget.
Qed.

Lemma baseGet_evolves keys : ∀ coll s x s2,
  baseGet coll (PArray keys) s = Ret x s → evolves (heap s) (heap s2) →
  baseGet coll (PArray keys) s2 = Ret x s2.
Proof.
  induction keys as [|k keys IH]; intros coll s x s2 Hget Hev.
  - by injection Hget as ->.
  - rewrite baseGet_cons in *.
    apply bind_Ret in Hget as (y & s1 & Hk & Hget).
    pose proof (js_get_Ret _ _ _ _ _ Hk) as ->.
    rewrite (bind_eq _ _ _ _ _ (js_get_evolves _ _ _ _ _ Hk Hev)). eauto.
Qed.

(** ** Round trip *)

Lemma assoc_reads_back fuel coll k val s r s' :
  data_name k → assoc fuel coll k val s = Ret r s' → js_get r k s' = Ret val s'.
Proof.
  intros [Hp Hl] (o' & -> & Ho' & _ & Hget & _)%assoc_Ret.
  destruct (Hget Hp) as [Hown <-]; [by intros [_ ?]|].
  apply js_get_ref; [done|by left].
Qed.

Lemma assocIn_getIn fuel : ∀ c path val s r s',
  path ≠ [] → Forall data_name path →
  assocIn fuel c (PArray path) val s = Ret r s' →
  getIn r (PArray path) s' = Ret val s'.
Proof.
  induction fuel as [|fuel IH]; intros c path val s r s' Hpath Hnames; [done|].
  destruct path as [|k rest]; [done|]. cbn [assocIn first_key tail].
  apply Forall_cons in Hnames as [Hk Hrest].
  destruct rest as [|k' rest]; cbn [List.length Nat.eqb].
  - intros H. unfold getIn. rewrite baseGet_cons.
    by rewrite (bind_eq _ _ _ _ _ (assoc_reads_back _ _ _ _ _ _ _ Hk H)).
  - intros (child & s1 & ->%js_get_Ret & H)%bind_Ret.
    apply bind_Ret in H as (inner & s1 & Hin & H).
    apply IH in Hin; [|done|done].
    unfold getIn. rewrite baseGet_cons.
    rewrite (bind_eq _ _ _ _ _ (assoc_reads_back _ _ _ _ _ _ _ Hk H)).
    apply assoc_Ret in H as (o' & -> & Ho' & _ & _ & Hev & _).
    by eapply baseGet_evolves.
Qed.

(** C5, amended.  Whenever [assocIn(c, path, v)] returns for a non-empty
    [path] none of whose keys is [__proto__] or [length], reading [path] in
    the returned hierarchy gives [v] itself, the same primitive or the same
    object by identity; it is [===] to [v] unless [v] is NaN. *)
Theorem round_trip fuel c path val s r s' :
  path ≠ [] → Forall data_name path →
  assocIn fuel c (PArray path) val s = Ret r s' →
  ∃ x, getIn r (PArray path) s' = Ret x s' ∧ x = val ∧
       strict_eq x val = negb (is_nan val).
Proof.
  intros Hpath Hnames H. exists val. split; [by eapply assocIn_getIn|].
  split; [done|]. apply strict_eq_same.
Qed.

(** ** Structural sharing *)

Lemma wf_obj_same_data h o o' : same_data o o' → wf_obj h o → wf_obj h o'.
Proof.
  intros (Hk & Hp & Hl). unfold wf_obj, wf_prop. by rewrite Hk, Hp, Hl.
Qed.

Lemma key_ok_not_length o k : key_ok o k → ¬ (o_kind o = KArray ∧ k = "length").
Proof. intros [_ Hk] [Ha ->]. by destruct (Hk Ha). Qed.

Lemma key_ok_not_proto o k : key_ok o k → k ≠ "__proto__".
Proof. intros [Hk _]. by apply plain_not_proto. Qed.

Lemma key_ok_readable o o' k : key_ok o k → readable o' k.
Proof. intros [Hk _]. by right. Qed.

Lemma key_ok_same_data o o' k : same_data o o' → key_ok o k → key_ok o' k.
Proof. intros (Hk & _ & _). unfold key_ok. by rewrite Hk. Qed.

Lemma key_ok_kind o o' k : o_kind o' = o_kind o → key_ok o k → key_ok o' k.
Proof. intros Hk. unfold key_ok. by rewrite Hk. Qed.

Lemma wf_obj_clonable h o : wf_obj h o → clonable o.
Proof.
  intros [Hprops Hlen]. split; [done|]. intros _.
  destruct (o_props o !! "__proto__") as [x|] eqn:E; [|done].
  by destruct (Hprops _ _ E) as (_ & ? & _).
Qed.

Lemma own_get_data o k :
  key_ok o k → own_get o k = default VUndef (o_props o !! k).
Proof.
  intros Hk%key_ok_not_length. unfold own_get.
  destruct (bool_decide (o_kind o = KArray) && bool_decide (k = "length")) eqn:E; [|done].
  apply andb_true_iff in E as [Ha%bool_decide_eq_true ->%bool_decide_eq_true].
  tauto.
Qed.

Lemma clone_obj_kind o : o_kind (clone_obj o) = o_kind o.
Proof. unfold clone_obj. by destruct (o_kind o) eqn:E. Qed.

Lemma clone_obj_frozen o : o_frozen (clone_obj o) = false.
Proof. unfold clone_obj. by destruct (o_kind o). Qed.

Lemma clone_obj_get h o k :
  wf_obj h o → key_ok o k →
  default VUndef (o_props (clone_obj o) !! k) = own_get o k.
Proof.
  intros [Hprops _] Hk. rewrite (own_get_data o k Hk).
  unfold clone_obj. destruct (o_kind o) eqn:Ek; [done|]. cbn.
  destruct (proj2 Hk Ek) as [n Hn]. pose proof (array_index_Some _ _ Hn) as [-> _].
  rewrite lookup_dense_idx. case_decide as Hlt; [done|].
  destruct (o_props o !! idx n) as [x|] eqn:Ex; [|done].
  destruct (Hprops _ _ Ex) as (_ & _ & Harr). destruct (Harr Ek) as [_ Hidx].
  rewrite Hn in Hidx. done.
Qed.

Lemma assoc_ref_Ret fuel l o key val s v s' :
  heap s !! l = Some o → clonable o →
  ¬ (o_kind o = KArray ∧ key = "length") → key ≠ "__proto__" →
  assoc fuel (VRef l) key val s = Ret v s' →
  ∃ len, heap s' !! fresh (dom (heap s))
         = Some (Obj (o_kind o) true (<[key := val]> (o_props (clone_obj o))) len).
Proof.
  intros Ho Hlen Hkey Hproto. unfold assoc.
  rewrite (bind_eq _ _ _ _ _ (clone_ref _ _ _ Ho Hlen)).
  intros (care & s1 & [-> _]%weCareAbout_Ret & H)%bind_Ret.
  apply bind_Ret in H as (x & s2 & (-> & [Hev Hdom] & Hcalls)%assoc_freeze_step & H).
  apply bind_Ret in H as (u & s3 & Hset & H).
  destruct (Hev (fresh (dom (heap s))) (clone_obj o)) as (o2 & Ho2 & Hd & _).
  { cbn. apply lookup_insert_eq. }
  pose proof Hset as Hset'.
  apply js_set_Ret in Hset' as (l2 & o2' & _ & [= <-] & Ho2' & Hf2 & _).
  specialize (Hf2 Hproto).
  assert (o2' = o2) as -> by congruence.
  assert (o2 = clone_obj o) as ->.
  { destruct Hd as (Hd1 & Hd2 & Hd3). pose proof (clone_obj_frozen o) as Hf.
    destruct o2, (clone_obj o). cbn in *. congruence. }
  rewrite (js_set_put _ _ _ _ _ Ho2 Hf2) in Hset; [| |done].
  2:{ rewrite clone_obj_kind. done. }
  injection Hset as Hs3. subst s3.
  erewrite Object_freeze_ref in H by (cbn; apply lookup_insert_eq).
  injection H as <- <-. cbn. rewrite lookup_insert_eq.
  unfold put. cbn. rewrite clone_obj_kind. eauto.
Qed.

Lemma assoc_reads_key fuel l o k val s r s' :
  heap s !! l = Some o → clonable o → key_ok o k →
  assoc fuel (VRef l) k val s = Ret r s' → js_get r k s' = Ret val s'.
Proof.
  intros Ho Hc Hk H.
  pose proof H as (o' & -> & _)%assoc_Ret.
  apply assoc_ref_Ret with (o := o) in H as [len Hr];
    [|done|done|by apply key_ok_not_length|by eapply key_ok_not_proto].
  rewrite (js_get_ref _ _ k _ Hr).
  - f_equal. rewrite own_get_data by (by eapply (key_ok_kind o)).
    cbn. by rewrite lookup_insert_eq.
  - apply readable_prop. cbn. rewrite lookup_insert_eq. eauto.
Qed.

Lemma assoc_other fuel h0 l o k1 k2 val s v s' :
  wf_obj h0 o → heap s !! l = Some o → key_ok o k1 → key_ok o k2 → k1 ≠ k2 →
  assoc fuel (VRef l) k1 val s = Ret v s' →
  js_get v k2 s' = Ret (own_get o k2) s'.
Proof.
  intros Hwf Ho Hk1 Hk2 Hne H.
  pose proof H as (o' & -> & _)%assoc_Ret.
  apply assoc_ref_Ret with (o := o) in H as [len Hr];
    [|done|by eapply wf_obj_clonable|by apply key_ok_not_length|by eapply key_ok_not_proto].
  rewrite (js_get_ref _ _ k2 _ Hr (key_ok_readable _ _ _ Hk2)). f_equal.
  rewrite own_get_data by done. cbn [o_props].
  rewrite lookup_insert_ne by done. by eapply clone_obj_get.
Qed.

Lemma assoc_off_key fuel h0 l o k k' q val s s1 r s' y :
  wf_obj h0 o → heap s !! l = Some o → evolves (heap s) (heap s1) →
  key_ok o k → key_ok o k' → k ≠ k' →
  assoc fuel (VRef l) k val s1 = Ret r s' →
  getIn (VRef l) (PArray (k' :: q)) s = Ret y s →
  getIn r (PArray (k' :: q)) s' = Ret y s'.
Proof.
  intros Hwf Ho Hev Hk Hk' Hne Hassoc Hget.
  destruct (Hev l o Ho) as (o1 & Ho1 & Hd & _).
  unfold getIn in *. rewrite baseGet_cons in *.
  rewrite (bind_eq _ _ _ _ _ (js_get_ref _ _ k' _ Ho (key_ok_readable _ _ _ Hk'))) in Hget.
  erewrite bind_eq; last first.
  { apply (assoc_other fuel h0 l o1 k k' val s1); try done.
    - by apply (wf_obj_same_data h0 o).
    - by apply (key_ok_same_data o).
    - by apply (key_ok_same_data o). }
  rewrite (own_get_same_data o o1) by done.
  eapply baseGet_evolves; [done|].
  eapply evolves_trans; [done|].
  by apply assoc_Ret in Hassoc as (_ & _ & _ & _ & _ & ? & _).
Qed.

Lemma assocIn_off_path fuel : ∀ pre c k rest k' q val s r s' y,
  wf_heap (heap s) → k ≠ k' →
  valid_path (heap s) c (pre ++ [k]) → valid_path (heap s) c (pre ++ [k']) →
  assocIn fuel c (PArray (pre ++ k :: rest)) val s = Ret r s' →
  getIn c (PArray (pre ++ k' :: q)) s = Ret y s →
  getIn r (PArray (pre ++ k' :: q)) s' = Ret y s'.
Proof.
  induction fuel as [|fuel IH];
    intros pre c k rest k' q val s r s' y Hwf Hne Hv Hv' Hassoc Hget; [done|].
  destruct pre as [|p pre]; cbn [app] in *.
  - destruct c as [| | | | |l]; try done. cbn in Hv, Hv'.
    destruct (heap s !! l) as [o|] eqn:Ho; [|done].
    destruct Hv as [Hk _], Hv' as [Hk' _].
    pose proof (Hwf _ _ Ho) as Hwfo. cbn in Hwfo.
    cbn [assocIn first_key tail] in Hassoc.
    destruct rest as [|k2 rest]; cbn [List.length Nat.eqb] in Hassoc.
    + apply (assoc_off_key fuel (heap s) l o k k' q val s s r s' y); try done.
      apply evolves_refl.
    + apply bind_Ret in Hassoc as (child & s1 & ->%js_get_Ret & H).
      apply bind_Ret in H as (inner & s1 & [Hev _]%assocIn_Ret & H).
      by apply (assoc_off_key fuel (heap s) l o k k' q inner s s1 r s' y).
  - destruct c as [| | | | |l]; try done. cbn in Hv, Hv'.
    destruct (heap s !! l) as [o|] eqn:Ho; [|done].
    destruct Hv as [Hp Hv], Hv' as [_ Hv'].
    cbn [assocIn first_key tail] in Hassoc.
    assert ((List.length (p :: pre ++ k :: rest) =? 1)%nat = false) as Hlen.
    { by destruct pre. }
    rewrite Hlen in Hassoc.
    rewrite (bind_eq _ _ _ _ _ (js_get_ref _ _ p _ Ho (key_ok_readable _ _ _ Hp))) in Hassoc.
    apply bind_Ret in Hassoc as (inner & s1 & Hin & H).
    unfold getIn in *. rewrite baseGet_cons in *.
    rewrite (bind_eq _ _ _ _ _ (js_get_ref _ _ p _ Ho (key_ok_readable _ _ _ Hp))) in Hget.
    pose proof Hin as [Hev1 _]%assocIn_Ret.
    destruct (Hev1 l o Ho) as (o1 & Ho1 & Hd1 & _).
    eapply (IH pre) in Hin; eauto.
    pose proof H as (o' & -> & Ho' & _ & _ & Hev & _)%assoc_Ret.
    erewrite bind_eq; last first.
    { eapply assoc_reads_key; [exact Ho1| | |exact H].
      - apply (clonable_same_data o); [done|]. by eapply wf_obj_clonable, Hwf.
      - by apply (key_ok_same_data o). }
    by eapply baseGet_evolves.
Qed.

(** C2, amended.  Structural sharing.  In a well-formed heap:
    - if [assoc(c, k1, v)] returns [r] and [k2] is another key of the
      container [c], then [r[k2]] is the very value [c[k2]] (the same
      primitive or the same object);
    - if [assocIn(c, path, v)] returns [r], then at every depth a position
      that branches off the update path (a key [k'] other than the path's key
      [k] in a container reached on the path) holds in [r] the same value as
      in [c], and so does everything read below it.
    The value is [===] to the one in [c] unless it is NaN.  Keys are keys of
    the data model: an index for a sequence, and for a map any name that the
    built-in prototypes do not define ([__proto__] is one they define). *)
Theorem structural_sharing s :
  wf_heap (heap s) →
  (∀ fuel l o k1 k2 v r s',
     heap s !! l = Some o → key_ok o k1 → key_ok o k2 → k1 ≠ k2 →
     assoc fuel (VRef l) k1 v s = Ret r s' →
     ∃ x y, js_get (VRef l) k2 s = Ret x s ∧ js_get r k2 s' = Ret y s' ∧
            y = x ∧ strict_eq y x = negb (is_nan x)) ∧
  (∀ fuel c pre k rest k' q v r s' x,
     k ≠ k' →
     valid_path (heap s) c (pre ++ [k]) → valid_path (heap s) c (pre ++ [k']) →
     assocIn fuel c (PArray (pre ++ k :: rest)) v s = Ret r s' →
     getIn c (PArray (pre ++ k' :: q)) s = Ret x s →
     ∃ y, getIn r (PArray (pre ++ k' :: q)) s' = Ret y s' ∧
          y = x ∧ strict_eq y x = negb (is_nan x)).
Proof.
  intros Hwf. split.
  - intros fuel l o k1 k2 v r s' Ho Hk1 Hk2 Hne Hassoc.
    exists (own_get o k2), (own_get o k2).
    split; [apply js_get_ref; [done|by eapply key_ok_readable]|]. split.
    + apply (assoc_other fuel (heap s) l o k1 k2 v s r s'); try done.
      apply (Hwf _ _ Ho).
    + split; [done|apply strict_eq_same].
  - intros fuel c pre k rest k' q v r s' x Hne Hv Hv' Hassoc Hget.
    exists x. split; [by eapply assocIn_off_path|].
    split; [done|apply strict_eq_same].
Qed.

Lemma wf_heap_sample : wf_heap (heap sample).
Proof. apply (bool_decide_unpack _). vm_compute. exact I. Defined.

(** ** Deep freeze: cycle detection and termination *)

Lemma cycle_check l prev :
  (0 <? List.length (List.filter (λ node, strict_eq node (VRef l)) prev))%nat = true
  ↔ VRef l ∈ prev.
Proof.
  induction prev as [|a prev IH]; cbn.
  - split; [done|]. by intros ?%not_elem_of_nil.
  - rewrite strict_eq_ref_r. case_bool_decide as E.
    + subst a. cbn. split; [|done]. intros _. by left.
    + rewrite IH. split; [by right|]. intros [?|?]%elem_of_cons; [congruence|done].
Qed.

Lemma elem_of_refs l (ps : list loc) : VRef l ∈ VRef <$> ps ↔ l ∈ ps.
Proof.
  rewrite list_elem_of_fmap. split; [|by eauto].
  intros (p & [= ->] & ?). done.
Qed.

Lemma ancestors_bound (h : gmap loc obj) (ps : list loc) :
  NoDup ps → (∀ p, p ∈ ps → is_Some (h !! p)) → (List.length ps ≤ size h)%nat.
Proof.
  intros Hnd Hin. rewrite <- (size_dom (D := gset loc) h).
  rewrite <- (size_list_to_set (C := gset loc) ps Hnd).
  apply subseteq_size. intros p Hp%elem_of_list_to_set. apply elem_of_dom. auto.
Qed.

Lemma flags_only_lookup h h' l o :
  flags_only h h' → h !! l = Some o →
  ∃ o', h' !! l = Some o' ∧ same_data o o' ∧ (o_frozen o = true → o_frozen o' = true).
Proof. intros [He _]. apply He. Qed.

Lemma flags_only_lookup_inv h h' l o' :
  flags_only h h' → h' !! l = Some o' → ∃ o, h !! l = Some o ∧ same_data o o'.
Proof.
  intros [He Hn] Hl'. destruct (h !! l) as [o|] eqn:Hl.
  - destruct (He l o Hl) as (o2 & Hl2 & Hd & _). exists o. split; [done|]. congruence.
  - rewrite (Hn l Hl) in Hl'. done.
Qed.

Lemma froze_nothing h : froze (λ _, False) h h.
Proof.
  split; [apply flags_only_refl|]. intros l o' Hl. split; [eauto|].
  intros [[]|(o & Ho & Hf)]. congruence.
Qed.

Lemma froze_trans R1 R2 h h1 h2 :
  froze R1 h h1 → froze R2 h1 h2 → froze (λ l, R1 l ∨ R2 l) h h2.
Proof.
  intros [Hf1 H1] [Hf2 H2]. split; [by eapply flags_only_trans|].
  intros l o2 Hl2.
  destruct (flags_only_lookup_inv _ _ _ _ Hf2 Hl2) as (o1 & Hl1 & _).
  rewrite (H2 l o2 Hl2). split.
  - intros [?|(o1' & Hl1' & Hfr)]; [tauto|].
    assert (o1' = o1) as -> by congruence.
    apply (H1 l o1 Hl1) in Hfr. tauto.
  - intros [[?|?]|?]; [right|by left|right]; exists o1; (split; [done|]);
      apply (H1 l o1 Hl1); tauto.
Qed.

Lemma froze_iff R R' h h' : (∀ l, R l ↔ R' l) → froze R h h' → froze R' h h'.
Proof.
  intros HR [Hf H]. split; [done|]. intros l o' Hl. rewrite (H l o' Hl), HR. done.
Qed.

Lemma froze_one h l o :
  h !! l = Some o →
  froze (λ l', l' = l) h (<[l := Obj (o_kind o) true (o_props o) (o_len o)]> h).
Proof.
  intros Hl. split; [by apply flags_only_freeze|].
  intros l' o' Hl'. destruct (decide (l' = l)) as [->|Hne].
  - rewrite lookup_insert_eq in Hl'. injection Hl' as <-. cbn. tauto.
  - rewrite lookup_insert_ne in Hl' by done. split.
    + intros Hf. right. eauto.
    + intros [?|(o2 & Ho2 & Hf)]; [done|congruence].
Qed.

Lemma edge_evolves h h' l l' : evolves h h' → edge h l l' → edge h' l l'.
Proof.
  intros He (o & k & Hl & Hk). destruct (He l o Hl) as (o' & Hl' & (_ & Hp & _) & _).
  exists o', k. by rewrite Hp.
Qed.

Lemma edge_wf h l l' : wf_heap h → edge h l l' → is_Some (h !! l').
Proof.
  intros Hwf (o & k & Hl & Hk). destruct (Hwf l o Hl) as [Hprops _].
  by destruct (Hprops k _ Hk) as [? _].
Qed.

(** From an object of a well-formed heap, a later heap reaches nothing more
    than the heap itself does. *)
Lemma reach_later h h' l l' :
  wf_heap h → evolves h h' → is_Some (h !! l) →
  rtc (edge h') l l' → rtc (edge h) l l' ∧ is_Some (h !! l').
Proof.
  intros Hwf He Hl Hreach. induction Hreach as [l|l l1 l2 Hedge _ IH]; [done|].
  assert (edge h l l1) as Hedge'.
  { destruct Hl as [o Hl]. destruct Hedge as (o' & k & Hl' & Hk).
    destruct (He l o Hl) as (o2 & Hl2 & (_ & Hp & _) & _).
    exists o, k. split; [done|]. congruence. }
  destruct IH as [IH1 IH2]; [by eapply edge_wf|].
  split; [by eapply rtc_l|done].
Qed.

Lemma cycle_later h h' l :
  wf_heap h → evolves h h' → is_Some (h !! l) →
  tc (edge h') l l → tc (edge h) l l.
Proof.
  intros Hwf He Hl Hcyc.
  assert (∃ l1, edge h' l l1 ∧ rtc (edge h') l1 l) as (l1 & Hedge & Hrest).
  { inversion Hcyc as [? ? Hstep|? l1 ? Hstep Hrest]; subst.
    - exists l. split; [done|]. apply rtc_refl.
    - exists l1. split; [done|]. by apply tc_rtc. }
  destruct (reach_later h h' l l1 Hwf He Hl) as [Hstep Hl1]; [by apply rtc_once|].
  destruct (reach_later h h' l1 l Hwf He Hl1 Hrest) as [Hback _].
  apply rtc_tc in Hstep as [->|Hstep].
  - apply rtc_tc in Hback as [E|?]; [|done].
    destruct Hl as [o Hl]. destruct Hedge as (o' & k & Hl' & Hk).
    destruct (He l1 o Hl) as (o2 & Hl2 & (_ & Hp & _) & _).
    apply tc_once. exists o, k. split; [done|]. congruence.
  - by eapply tc_rtc_r.
Qed.

Lemma freezeProp_prim recur coll prev key s x :
  js_get coll key s = Ret x s → is_ref x = false →
  freezeProp recur coll prev key s = Ret prev s.
Proof.
  intros Hget Hx. unfold freezeProp. rewrite (bind_eq _ _ _ _ _ Hget).
  by rewrite (bind_eq _ _ _ _ _ (weCareAbout_prim _ _ Hx)).
Qed.

Lemma freezeProp_ref recur coll prev key s c o :
  js_get coll key s = Ret (VRef c) s → heap s !! c = Some o →
  freezeProp recur coll prev key s = (r <- recur (VRef c) prev ;; ret r.2) s.
Proof.
  intros Hget Hc. unfold freezeProp. rewrite (bind_eq _ _ _ _ _ Hget).
  by rewrite (bind_eq _ _ _ _ _ (weCareAbout_ref _ _ _ Hc)).
Qed.

Lemma bind_freezeProp_ref {B} recur coll prev key s c o (K : list value → M B) :
  js_get coll key s = Ret (VRef c) s → heap s !! c = Some o →
  bind (freezeProp recur coll prev key) K s
  = bind (recur (VRef c) prev) (λ r, K r.2) s.
Proof.
  intros Hget Hc. unfold bind at 1. rewrite (freezeProp_ref _ _ _ _ _ _ _ Hget Hc).
  unfold bind. by destruct (recur (VRef c) prev s).
Qed.

Section dfs.
Variable h0 : gmap loc obj.
Hypothesis Hwf : wf_heap h0.
Variable fuel' : nat.
Variables (l : loc) (o0 : obj).
Hypothesis Hl : h0 !! l = Some o0.
Variable ps' : list loc.
Hypothesis IHc : ∀ c s,
  flags_only h0 (heap s) → is_Some (h0 !! c) →
  freeze_outcome h0 ps' c s (baseFreeze fuel' (VRef c) (VRef <$> ps') s).

Lemma own_prop_get s k x :
  flags_only h0 (heap s) → o_props o0 !! k = Some x →
  js_get (VRef l) k s = Ret x s.
Proof using Hwf Hl.
  intros Hs Hk. destruct (flags_only_lookup _ _ _ _ Hs Hl) as (o & Ho & Hd & _).
  rewrite (js_get_ref _ _ k _ Ho).
  2:{ apply readable_prop. destruct Hd as (_ & -> & _). eauto. }
  f_equal. rewrite (own_get_same_data o0 o) by done.
  destruct (Hwf l o0 Hl) as [Hprops _]. destruct (Hprops k x Hk) as (_ & _ & Harr).
  unfold own_get. destruct (bool_decide (o_kind o0 = KArray)) eqn:E1; cbn.
  - apply bool_decide_eq_true in E1. destruct (Harr E1) as [Hne _].
    rewrite bool_decide_eq_false_2 by done. by rewrite Hk.
  - by rewrite Hk.
Qed.

Lemma freeze_loop keys : ∀ s,
  (∀ k, k ∈ keys → is_Some (o_props o0 !! k)) →
  flags_only h0 (heap s) →
  (foldM (freezeProp (baseFreeze fuel') (VRef l)) keys (VRef <$> ps') s
     = Throw (Error "object has a reference cycle") ∧
   ∃ k c, k ∈ keys ∧ o_props o0 !! k = Some (VRef c) ∧ hits h0 ps' c) ∨
  (∃ s', foldM (freezeProp (baseFreeze fuel') (VRef l)) keys (VRef <$> ps') s
           = Ret (VRef <$> ps') s' ∧
         (∀ k c, k ∈ keys → o_props o0 !! k = Some (VRef c) → ¬ hits h0 ps' c) ∧
         froze (λ l', ∃ k c, k ∈ keys ∧ o_props o0 !! k = Some (VRef c) ∧
                             rtc (edge h0) c l')
               (heap s) (heap s') ∧
         calls s' = calls s).
Proof using Hwf Hl IHc.
  induction keys as [|k keys IH]; intros s Hkeys Hs.
  - right. exists s. split; [done|]. split; [by intros ? ? ?%not_elem_of_nil|].
    split; [|done]. eapply froze_iff; [|apply froze_nothing].
    intros l'. split; [done|]. by intros (? & ? & ?%not_elem_of_nil & _).
  - destruct (Hkeys k) as [x Hk]; [by left|].
    assert (∀ k', k' ∈ keys → is_Some (o_props o0 !! k')) as Hkeys'.
    { intros k' ?. apply Hkeys. by right. }
    cbn [foldM]. destruct (is_ref x) eqn:Hx.
    + destruct x as [| | | | |c]; try done.
      assert (is_Some (h0 !! c)) as Hc.
      { destruct (Hwf l o0 Hl) as [Hprops _]. by destruct (Hprops k _ Hk) as [? _]. }
      destruct Hc as [oc Hc].
      destruct (flags_only_lookup _ _ _ _ Hs Hc) as (oc' & Hc' & _).
      rewrite (bind_freezeProp_ref _ _ _ _ _ c oc' _ (own_prop_get _ _ _ Hs Hk) Hc').
      destruct (IHc c s Hs (mk_is_Some _ _ Hc))
        as [[Hout Hhits]|(s1 & Hout & Hnh & Hfr & Hcalls)].
      { left. split; [by apply bind_Throw|]. exists k, c. split; [by left|]. done. }
      rewrite (bind_eq _ _ _ _ _ Hout). cbn [snd].
      assert (flags_only h0 (heap s1)) as Hs1.
      { eapply flags_only_trans; [done|]. apply Hfr. }
      destruct (IH s1 Hkeys' Hs1) as [[-> Hhits]|(s' & -> & Hnh' & Hfr' & Hcalls')].
      { left. split; [done|]. destruct Hhits as (k' & c' & ? & ? & ?).
        exists k', c'. split; [by right|]. done. }
      right. exists s'. split; [done|]. split; [|split; [|congruence]].
      * intros k' c' [->|?]%elem_of_cons Hk'; [|by eapply Hnh'].
        assert (c' = c) as -> by congruence. done.
      * eapply froze_iff; [|by eapply froze_trans].
        intros l'. cbn. split.
        -- intros [?|(k' & c' & ? & ? & ?)].
           ++ exists k, c. split; [by left|]. done.
           ++ exists k', c'. split; [by right|]. done.
        -- intros (k' & c' & [->|?]%elem_of_cons & Hk' & ?).
           ++ left. assert (c' = c) as -> by congruence. done.
           ++ right. eauto.
    + erewrite (bind_eq (freezeProp _ _ _ _)); last first.
      { eapply freezeProp_prim; [by apply own_prop_get|done]. }
      destruct (IH s Hkeys' Hs) as [[-> Hhits]|(s' & -> & Hnh' & Hfr' & Hcalls')].
      { left. split; [done|]. destruct Hhits as (k' & c' & ? & ? & ?).
        exists k', c'. split; [by right|]. done. }
      right. exists s'. split; [done|]. split; [|split; [|congruence]].
      * intros k' c' [->|?]%elem_of_cons Hk'; [|by eapply Hnh'].
        rewrite Hk in Hk'. injection Hk' as ->. done.
      * eapply froze_iff; [|done].
        intros l'. cbn. split.
        -- intros (k' & c' & ? & ? & ?). exists k', c'. split; [by right|]. done.
        -- intros (k' & c' & [->|?]%elem_of_cons & Hk' & ?); [|by eauto].
           rewrite Hk in Hk'. injection Hk' as ->. done.
Qed.
End dfs.

Lemma edge_child h l o l' :
  h !! l = Some o → (edge h l l' ↔ ∃ k, o_props o !! k = Some (VRef l')).
Proof.
  intros Hl. split.
  - intros (o' & k & Hl' & Hk). exists k. congruence.
  - intros [k Hk]. by exists o, k.
Qed.

Lemma baseFreeze_total h0 :
  wf_heap h0 →
  ∀ fuel l ps s,
    flags_only h0 (heap s) → is_Some (h0 !! l) → NoDup ps →
    (∀ p, p ∈ ps → is_Some (h0 !! p)) →
    (size h0 < fuel + List.length ps)%nat →
    freeze_outcome h0 ps l s (baseFreeze fuel (VRef l) (VRef <$> ps) s).
Proof.
  intros Hwf. induction fuel as [|fuel IH]; intros l ps s Hs [o0 Hl] Hnd Hps Hfuel.
  { pose proof (ancestors_bound h0 ps Hnd Hps). cbn in Hfuel. lia. }
  cbn [baseFreeze].
  destruct (0 <? _)%nat eqn:Hcheck.
  { apply cycle_check, elem_of_refs in Hcheck. left. split; [done|].
    exists l. split; [apply rtc_refl|by left]. }
  assert (l ∉ ps) as Hnin.
  { intros Hin%elem_of_refs%cycle_check. congruence. }
  destruct (flags_only_lookup _ _ _ _ Hs Hl) as (o & Ho & Hd & _).
  rewrite (bind_eq _ _ _ _ _ (Object_freeze_ref _ _ _ Ho)).
  set (s1 := upd_heap <[l := Obj (o_kind o) true (o_props o) (o_len o)]> s).
  assert (froze (λ l', l' = l) (heap s) (heap s1)) as Hfr1 by by apply froze_one.
  assert (flags_only h0 (heap s1)) as Hs1.
  { eapply flags_only_trans; [done|]. apply Hfr1. }
  erewrite (bind_eq (Object_keys _)); last first.
  { apply Object_keys_ref. cbn. apply lookup_insert_eq. }
  cbn [o_props]. destruct Hd as (_ & -> & _).
  replace ((VRef <$> ps) ++ [VRef l])%list with (VRef <$> (ps ++ [l])%list)
    by by rewrite fmap_app.
  destruct (freeze_loop h0 Hwf fuel l o0 Hl (ps ++ [l])%list) with
    (keys := (map_to_list (o_props o0)).*1) (s := s1)
    as [[Hout (k & c & _ & Hk & Hhits)]|(s2 & Hout & Hnh & Hfr2 & Hcalls)].
  - intros c s' Hs' Hc. apply IH; try done.
    + apply NoDup_app. split; [done|]. split; [|apply NoDup_singleton].
      intros p Hp Hq%list_elem_of_singleton. by subst.
    + intros p [?|Hq%list_elem_of_singleton]%elem_of_app; [by auto|subst; by eauto].
    + rewrite length_app. cbn. lia.
  - intros k Hk. by apply elem_of_keys.
  - done.
  - left. split; [by apply bind_Throw|].
    destruct Hhits as (l' & Hreach & [[Hin|Hq%list_elem_of_singleton]%elem_of_app|Hcyc]).
    + exists l'. split; [|by left]. eapply rtc_l; [|done]. by exists o0, k.
    + subst l'. exists l. split; [apply rtc_refl|right].
      eapply tc_rtc_r; [|done]. apply tc_once. by exists o0, k.
    + exists l'. split; [|by right]. eapply rtc_l; [|done]. by exists o0, k.
  - right. exists s2. rewrite (bind_eq _ _ _ _ _ Hout).
    rewrite fmap_app. cbn [fmap list_fmap]. rewrite removelast_last.
    split; [done|]. split; [|split; [|done]].
    + intros (l' & Hreach & Hbad).
      apply rtc_inv in Hreach as [<-|(c & (k & Hk)%(edge_child _ _ _ _ Hl) & Hreach)].
      * destruct Hbad as [?|Hcyc]; [done|].
        assert (∃ c, edge h0 l c ∧ rtc (edge h0) c l) as (c & (k & Hk)%(edge_child _ _ _ _ Hl) & Hback).
        { inversion Hcyc as [? ? Hstep|? c ? Hstep Hrest]; subst.
          - exists l. split; [done|apply rtc_refl].
          - exists c. split; [done|by apply tc_rtc]. }
        apply (Hnh k c); [by apply elem_of_keys|done|].
        exists l. split; [done|]. left. apply elem_of_app. right. by left.
      * apply (Hnh k c); [by apply elem_of_keys|done|].
        exists l'. split; [done|]. destruct Hbad as [?|?]; [left|by right].
        apply elem_of_app. by left.
    + eapply froze_iff; [|by eapply froze_trans]. cbn.
      intros l'. split.
      * intros [->|(k & c & _ & Hk & Hreach)]; [apply rtc_refl|].
        eapply rtc_l; [|done]. by exists o0, k.
      * intros [<-|(c & (k & Hk)%(edge_child _ _ _ _ Hl) & Hreach)]%rtc_inv; [by left|].
        right. exists k, c. split; [by apply elem_of_keys|]. done.
Qed.

Lemma hits_nil h l : hits h [] l ↔ has_cycle h l.
Proof.
  unfold hits, has_cycle. split.
  - intros (l' & ? & [?%not_elem_of_nil|?]); [done|eauto].
  - intros (l' & ? & ?). eauto.
Qed.

Lemma froze_deep h h' l :
  wf_heap h → is_Some (h !! l) → froze (rtc (edge h) l) h h' → deep_frozen h' l.
Proof.
  intros Hwf Hl [Hf Hfr] l' o' Hreach Hl'.
  apply (reach_later h h') in Hreach as [Hreach _]; [|done|apply Hf|done].
  apply (Hfr l' o' Hl'). by left.
Qed.

(** C6.  In a well-formed heap and with a recursion budget above the number
    of objects, [freeze(root)] throws the cycle error when some container
    under [root] contains itself, directly or through nested containers;
    when none does, however deep the hierarchy is and whether or not
    subtrees are shared by several parents, it returns [root] itself, having
    changed nothing but frozen flags, with every container under [root]
    frozen. *)
Theorem freeze_cycle_detection fuel l s :
  wf_heap (heap s) → is_Some (heap s !! l) → (size (heap s) < fuel)%nat →
  (has_cycle (heap s) l →
     freeze fuel (VRef l) s = Throw (Error "object has a reference cycle")) ∧
  (¬ has_cycle (heap s) l →
     ∃ s', freeze fuel (VRef l) s = Ret (VRef l) s' ∧
           flags_only (heap s) (heap s') ∧ deep_frozen (heap s') l).
Proof.
  intros Hwf Hl Hfuel.
  destruct (baseFreeze_total (heap s) Hwf fuel l [] s)
    as [[Hout Hhits%hits_nil]|(s' & Hout & Hnh & Hfr & _)];
    [apply flags_only_refl|done|apply NoDup_nil_2|by intros ? ?%not_elem_of_nil|cbn; lia| |].
  - split; [|done]. intros _. unfold freeze. by apply bind_Throw.
  - rewrite hits_nil in Hnh. split; [done|]. intros _.
    exists s'. unfold freeze. rewrite (bind_eq _ _ _ _ _ Hout).
    split; [done|]. split; [apply Hfr|]. by eapply froze_deep.
Qed.

(** ** Attaching a value with [assoc] *)

Lemma wf_value_evolves h h' v : evolves h h' → wf_value h v → wf_value h' v.
Proof.
  intros He. destruct v; try done. cbn. intros [o Ho].
  destruct (He _ _ Ho) as (o' & Ho' & _). eauto.
Qed.

Lemma wf_obj_evolves h h' o : evolves h h' → wf_obj h o → wf_obj h' o.
Proof.
  intros He [Hprops Hlen]. split; [|done].
  intros k v Hk. destruct (Hprops k v Hk) as [Hv Harr].
  split; [by eapply wf_value_evolves|done].
Qed.

Lemma wf_obj_clone h o : wf_obj h o → wf_obj h (clone_obj o).
Proof.
  intros [Hprops Hlen]. unfold clone_obj. destruct (o_kind o) eqn:Ek.
  - split; [|done]. intros k v Hk. cbn in Hk.
    destruct (Hprops k v Hk) as (Hv & Hp & _). split; [done|]. split; done.
  - split; [|done]. intros k v Hk. cbn in Hk.
    apply lookup_dense_Some in Hk as (i & -> & Hi & ->).
    split; [|split].
    + destruct (o_props o !! idx i) as [x|] eqn:Ex; [|done].
      by destruct (Hprops _ _ Ex) as [? _].
    + apply idx_not_proto.
    + intros _. split; [apply idx_not_length|]. cbn.
      destruct (array_index (idx i)) as [n|] eqn:En; [|done].
      apply array_index_Some in En as [E%idx_inj _]. by subst.
Qed.

Lemma wf_heap_clone h l o r :
  wf_heap h → h !! l = Some o → h !! r = None → wf_heap (<[r := clone_obj o]> h).
Proof.
  intros Hwf Hl Hr. pose proof (evolves_alloc h r (clone_obj o) Hr) as He.
  apply map_Forall_insert_2.
  - eapply wf_obj_evolves; [done|]. apply wf_obj_clone. by apply (Hwf l).
  - intros l' o' Hl'. eapply wf_obj_evolves; [done|]. by apply (Hwf l').
Qed.

Lemma same_data_eq o o' : same_data o o' → o_frozen o' = o_frozen o → o' = o.
Proof. destruct o, o'. unfold same_data. cbn. intros (-> & -> & ->) ->. done. Qed.

Lemma has_cycle_later h h' l :
  wf_heap h → evolves h h' → is_Some (h !! l) → has_cycle h' l → has_cycle h l.
Proof.
  intros Hwf He Hl (l' & Hreach & Hcyc).
  destruct (reach_later h h' l l' Hwf He Hl Hreach) as [Hreach' Hl'].
  exists l'. split; [done|]. by eapply cycle_later.
Qed.

Lemma tc_edge_evolves h h' x y : evolves h h' → tc (edge h) x y → tc (edge h') x y.
Proof.
  intros He Htc. induction Htc as [x y Hxy|x y z Hxy _ IH].
  - apply tc_once. exact (edge_evolves _ _ _ _ He Hxy).
  - eapply tc_l; [|exact IH]. exact (edge_evolves _ _ _ _ He Hxy).
Qed.

Lemma has_cycle_evolves h h' l : evolves h h' → has_cycle h l → has_cycle h' l.
Proof.
  intros He (l' & Hreach & Hcyc). exists l'. split.
  - eapply rtc_subrel; [|done]. intros ? ?. by apply edge_evolves.
  - by eapply tc_edge_evolves.
Qed.

(** What [assoc] does with an unfrozen container [v]: after the clone [r] of
    the target has been allocated, [v] goes through [baseFreeze]. *)
Lemma assoc_unfrozen fuel c oc key v ov s :
  wf_heap (heap s) → heap s !! c = Some oc → key_ok oc key →
  heap s !! v = Some ov → o_frozen ov = false → (size (heap s) + 1 < fuel)%nat →
  (has_cycle (heap s) v ∧
   assoc fuel (VRef c) key (VRef v) s = Throw (Error "object has a reference cycle")) ∨
  (¬ has_cycle (heap s) v ∧
   ∃ r s', assoc fuel (VRef c) key (VRef v) s = Ret r s' ∧ deep_frozen (heap s') v).
Proof.
  intros Hwf Hc Hkey Hv Hfv Hfuel.
  set (r := fresh (dom (heap s))).
  assert (heap s !! r = None) as Hr by apply fresh_None.
  assert (v ≠ r) as Hvr by congruence.
  set (s1 := upd_heap <[r := clone_obj oc]> s).
  assert (evolves (heap s) (heap s1)) as He1 by by apply evolves_alloc.
  assert (wf_heap (heap s1)) as Hwf1 by by eapply wf_heap_clone.
  assert (heap s1 !! v = Some ov) as Hv1 by (cbn; by rewrite lookup_insert_ne).
  assert (assoc fuel (VRef c) key (VRef v) s
          = (val <- (r0 <- baseFreeze fuel (VRef v) [] ;; ret r0.1) ;;
             js_set (VRef r) key val ;;; Object_freeze (VRef r)) s1) as ->.
  { unfold assoc. rewrite (bind_eq _ _ _ _ _ (clone_ref _ _ _ Hc (wf_obj_clonable _ _ (Hwf c oc Hc)))).
    fold r s1. rewrite (bind_eq _ _ _ _ _ (weCareAbout_ref _ _ _ Hv1)).
    unfold bind at 1. unfold bind at 1.
    rewrite (Object_isFrozen_ref _ _ _ Hv1), Hfv. reflexivity. }
  destruct (baseFreeze_total (heap s1) Hwf1 fuel v [] s1)
    as [[Hout Hhits%hits_nil]|(s2 & Hout & Hnh & Hfr & _)];
    [apply flags_only_refl|by eauto|apply NoDup_nil_2|by intros ? ?%not_elem_of_nil| | |].
  { cbn. rewrite map_size_insert_None by done. lia. }
  - left. split; [by eapply has_cycle_later|].
    apply bind_Throw. by apply bind_Throw.
  - right. rewrite hits_nil in Hnh. split.
    { intros Hcyc. apply Hnh. by eapply has_cycle_evolves. }
    erewrite bind_eq; [|by erewrite bind_eq].
    cbn [fst]. destruct Hfr as [Hfl Hfr].
    destruct (flags_only_lookup (heap s1) (heap s2) r (clone_obj oc) Hfl)
      as (o2 & Ho2 & Hd2 & _); [cbn; apply lookup_insert_eq|].
    assert (o2 = clone_obj oc) as ->.
    { apply same_data_eq; [done|]. rewrite clone_obj_frozen.
      destruct (o_frozen o2) eqn:Hf2; [|done].
      apply (Hfr r o2 Ho2) in Hf2 as [Hreach|(o & Ho & Hf)].
      - apply (reach_later (heap s) (heap s1)) in Hreach as [_ [? ?]]; [congruence|done..|by eauto].
      - cbn in Ho. rewrite lookup_insert_eq in Ho. injection Ho as <-.
        by rewrite clone_obj_frozen in Hf. }
    erewrite bind_eq; last first.
    { apply js_set_put; [done|apply clone_obj_frozen| |by eapply key_ok_not_proto].
      rewrite clone_obj_kind. by apply key_ok_not_length. }
    erewrite Object_freeze_ref by (cbn; apply lookup_insert_eq). rewrite store_store.
    eexists _, _. split; [done|].
    intros l' o' Hreach Hl'.
    assert (evolves (heap s) (heap s2)) as He2.
    { eapply evolves_trans; [done|]. apply Hfl. }
    assert (evolves (heap s)
              (<[r := Obj (o_kind (put (clone_obj oc) key (VRef v))) true
                         (o_props (put (clone_obj oc) key (VRef v)))
                         (o_len (put (clone_obj oc) key (VRef v)))]> (heap s2))) as He'.
    { intros l0 o0 Hl0. rewrite lookup_insert_ne by congruence. by apply He2. }
    cbn [heap upd_heap] in Hreach, Hl'.
    apply (reach_later (heap s) _ v l' Hwf He') in Hreach as [Hreach [o0 Hl0]]; [|by eauto].
    rewrite lookup_insert_ne in Hl' by congruence.
    apply (Hfr l' o' Hl'). left.
    eapply rtc_subrel; [|done]. intros ? ?. by apply edge_evolves.
Qed.

Lemma assoc_frozen fuel c oc key v ov s :
  wf_heap (heap s) → heap s !! c = Some oc → key_ok oc key →
  heap s !! v = Some ov → o_frozen ov = true →
  ∃ o', assoc fuel (VRef c) key (VRef v) s
        = Ret (VRef (fresh (dom (heap s))))
              (upd_heap <[fresh (dom (heap s)) := o']> s) ∧
        o_frozen o' = true ∧ own_get o' key = VRef v.
Proof.
  intros Hwf Hc Hkey Hv Hfv.
  set (r := fresh (dom (heap s))).
  assert (heap s !! r = None) as Hr by apply fresh_None.
  assert (v ≠ r) as Hvr by congruence.
  assert (heap (upd_heap <[r := clone_obj oc]> s) !! v = Some ov) as Hv1.
  { cbn. by rewrite lookup_insert_ne. }
  eexists. split.
  - unfold assoc. rewrite (bind_eq _ _ _ _ _ (clone_ref _ _ _ Hc (wf_obj_clonable _ _ (Hwf c oc Hc)))).
    fold r. rewrite (bind_eq _ _ _ _ _ (weCareAbout_ref _ _ _ Hv1)).
    erewrite bind_eq; last first.
    { rewrite (bind_eq _ _ _ _ _ (Object_isFrozen_ref _ _ _ Hv1)). rewrite Hfv. reflexivity. }
    erewrite bind_eq; last first.
    { apply js_set_put; [cbn; apply lookup_insert_eq|apply clone_obj_frozen| |
                         by eapply key_ok_not_proto].
      rewrite clone_obj_kind. by apply key_ok_not_length. }
    rewrite store_store.
    erewrite Object_freeze_ref by (cbn; apply lookup_insert_eq). rewrite store_store.
    reflexivity.
  - split; [done|]. rewrite own_get_data.
    + cbn. by rewrite lookup_insert_eq.
    + apply (key_ok_kind oc); [|done]. cbn. by rewrite clone_obj_kind.
Qed.

(** C7.  [assoc(c, k, v)] with a container [v], in a well-formed heap, [k]
    being a key of [c]:
    - if [v] is not frozen and its hierarchy is free of cycles, the call
      returns, the result's value at [k] is [v] itself, frozen together with
      every container under it;
    - if [v] is not frozen and its hierarchy has a cycle, the cycle error of
      deep freeze is thrown;
    - if [v] is already frozen, the call returns a new frozen object whose
      value at [k] is [v] itself, and the heap is the old heap plus that new
      object: nothing was frozen again, nothing copied. *)
Theorem assoc_freezes_value fuel c oc key v ov s :
  wf_heap (heap s) → heap s !! c = Some oc → key_ok oc key →
  heap s !! v = Some ov → (size (heap s) + 1 < fuel)%nat →
  (o_frozen ov = false → ¬ has_cycle (heap s) v →
     ∃ r s', assoc fuel (VRef c) key (VRef v) s = Ret r s' ∧
             js_get r key s' = Ret (VRef v) s' ∧
             deep_frozen (heap s') v) ∧
  (o_frozen ov = false → has_cycle (heap s) v →
     assoc fuel (VRef c) key (VRef v) s = Throw (Error "object has a reference cycle")) ∧
  (o_frozen ov = true →
     ∃ r o', assoc fuel (VRef c) key (VRef v) s = Ret (VRef r) (upd_heap <[r := o']> s) ∧
             heap s !! r = None ∧ o_frozen o' = true ∧ own_get o' key = VRef v).
Proof.
  intros Hwf Hc Hkey Hv Hfuel. repeat split.
  - intros Hfv Hacyc.
    destruct (assoc_unfrozen fuel c oc key v ov s) as [[? _]|(_ & r & s' & Hassoc & Hdeep)];
      try done.
    exists r, s'. split; [done|]. split; [|done].
    eapply assoc_reads_key; [exact Hc| |exact Hkey|exact Hassoc].
    by eapply wf_obj_clonable, Hwf.
  - intros Hfv Hcyc.
    destruct (assoc_unfrozen fuel c oc key v ov s) as [[_ ?]|(? & _)]; done.
  - intros Hfv.
    destruct (assoc_frozen fuel c oc key v ov s) as (o' & Hassoc & ? & ?); try done.
    exists (fresh (dom (heap s))), o'. split; [done|]. split; [apply fresh_None|done].
Qed.

(** * Further properties of the code *)

(** ** Lookup: composition and edge cases *)

(** A lookup reads only: when [getIn] returns, the heap and the call log are
    as they were. *)
Theorem getIn_reads_only c path v s s' :
  getIn c path s = Ret v s' → s' = s.
Proof. apply baseGet_Ret. Qed.

(** Looking up a concatenated path is looking up its first part and then,
    from the value found, its second part; an error in the first part is the
    error of the whole. *)
Theorem getIn_concat c p q s :
  getIn c (PArray (p ++ q)) s = (x <- getIn c (PArray p) ;; getIn x (PArray q)) s.
Proof. apply baseGet_app. Qed.

(** Whenever the value reached after a prefix of the path is [undefined] or
    [null] and more keys remain, [getIn] throws a [TypeError]. *)
Theorem getIn_absent_intermediate_raises c pre rest x s :
  getIn c (PArray pre) s = Ret x s → x = VUndef ∨ x = VNull → rest ≠ [] →
  getIn c (PArray (pre ++ rest)) s = Throw TypeError.
Proof.
  intros Hget Hx Hrest. unfold getIn in *. rewrite baseGet_app.
  rewrite (bind_eq _ _ _ _ _ Hget).
  destruct rest as [|k rest]; [done|]. by destruct Hx as [-> | ->].
Qed.

(** The last step of a lookup is permissive: a key that no prototype
    defines reads as [undefined] in a container that does not have it, and
    in any number or boolean. *)
Theorem getIn_missing_last_key c pre k x s :
  getIn c (PArray pre) s = Ret x s →
  on_prototype k = false →
  (match x with
   | VNum _ | VBool _ => True
   | VRef l => ∃ o, heap s !! l = Some o ∧ o_props o !! k = None ∧
                    ¬ (o_kind o = KArray ∧ k = "length")
   | _ => False
   end) →
  getIn c (PArray (pre ++ [k])) s = Ret VUndef s.
Proof.
  intros Hget Hplain Hx. unfold getIn in *. rewrite baseGet_app.
  rewrite (bind_eq _ _ _ _ _ Hget). rewrite baseGet_cons.
  destruct x as [| | | | |l]; try done;
    try (by rewrite (bind_eq _ _ _ _ _ (absent_plain _ _ Hplain))).
  destruct Hx as (o & Ho & Hk & Hlen).
  rewrite (bind_eq _ _ _ _ _ (js_get_ref _ _ k _ Ho (readable_plain _ _ Hplain))).
  unfold own_get. rewrite Hk.
  destruct (bool_decide (o_kind o = KArray) && bool_decide (k = "length")) eqn:E; [|done].
  apply andb_true_iff in E as [?%bool_decide_eq_true ?%bool_decide_eq_true]. tauto.
Qed.

(** ** [assocIn] on an empty or missing path *)

(** [assocIn] assumes a non-empty path.  With [[]] it uses the key
    ["undefined"] and recurses on the empty path again: when the container
    has no value under that name, a [TypeError] is thrown.  With a missing
    path ([undefined] or [null]) a [TypeError] is thrown at once. *)
Theorem assocIn_empty_path_raises fuel c val x s :
  js_get c "undefined" s = Ret x s → x = VUndef ∨ x = VNull → (2 ≤ fuel)%nat →
  assocIn fuel c (PArray []) val s = Throw TypeError ∧
  assocIn fuel c PUndefined val s = Throw TypeError ∧
  assocIn fuel c PNull val s = Throw TypeError.
Proof.
  intros Hget Hx Hfuel. destruct fuel as [|[|fuel]]; try lia.
  split; [|done]. cbn [assocIn first_key tail List.length Nat.eqb].
  rewrite (bind_eq _ _ _ _ _ Hget). by destruct Hx as [-> | ->].
Qed.

(** ** Deep freeze: primitives, idempotence, frame *)

Lemma js_get_prim_result v k s x s' :
  is_ref v = false → js_get v k s = Ret x s' → is_ref x = false.
Proof.
  destruct v; try done; unfold js_get; intros _;
    try (by intros (-> & _)%absent_Ret).
  destruct (bool_decide (k = "length")); [by intros [= <- _]|].
  destruct (numeral k) as [n|]; [|by intros (-> & _)%absent_Ret].
  intros [= <- _]. unfold char_at. by destruct (String.get _ _).
Qed.

Lemma freeze_loop_prim recur v keys : ∀ prev s,
  is_ref v = false → (∀ k, k ∈ keys → ∃ x, js_get v k s = Ret x s) →
  foldM (freezeProp recur v) keys prev s = Ret prev s.
Proof.
  induction keys as [|k keys IH]; intros prev s Hv Hkeys; [done|].
  cbn [foldM]. destruct (Hkeys k) as [x Hx]; [by left|].
  rewrite (bind_eq _ _ _ _ _ (freezeProp_prim _ _ _ _ _ _ Hx (js_get_prim_result _ _ _ _ _ Hv Hx))).
  apply IH; [done|]. intros k' ?. apply Hkeys. by right.
Qed.

Lemma js_get_str_idx str i s : ∃ x, js_get (VStr str) (idx i) s = Ret x s.
Proof.
  unfold js_get. rewrite bool_decide_eq_false_2 by apply idx_not_length.
  rewrite numeral_idx. by eexists.
Qed.

(** [freeze] of a number, a boolean or a string returns it and changes
    nothing; [freeze] of [undefined] or [null] throws a [TypeError], because
    [Object.keys] rejects them. *)
Theorem freeze_primitive fuel v s :
  (1 ≤ fuel)%nat → is_ref v = false →
  freeze fuel v s = match v with
                    | VUndef | VNull => Throw TypeError
                    | _ => Ret v s
                    end.
Proof.
  intros Hfuel Hv. destruct fuel as [|fuel]; [lia|].
  destruct v as [| |b|z|str|l]; try done.
  unfold freeze. erewrite bind_eq; last first.
  { cbn [baseFreeze List.filter List.length Nat.ltb Nat.leb].
    erewrite bind_eq; [|reflexivity]. erewrite bind_eq; [|reflexivity].
    erewrite bind_eq; last first.
    { apply freeze_loop_prim; [done|]. intros k Hk.
      first [by apply not_elem_of_nil in Hk
            |apply list_elem_of_fmap in Hk as (i & -> & _); apply js_get_str_idx]. }
    reflexivity. }
  reflexivity.
Qed.

Lemma state_eq s s' : heap s' = heap s → calls s' = calls s → s' = s.
Proof. destruct s, s'. cbn. by intros -> ->. Qed.

Lemma froze_lookup_unchanged R h h' l :
  froze R h h' → (R l → ∀ o, h !! l = Some o → o_frozen o = true) →
  h' !! l = h !! l.
Proof.
  intros [Hfl Hfr] HR. destruct (h !! l) as [o|] eqn:Hl.
  - destruct (flags_only_lookup _ _ _ _ Hfl Hl) as (o' & Hl' & Hd & Hmono).
    rewrite Hl'. f_equal. apply same_data_eq; [done|].
    destruct (o_frozen o) eqn:Hf; [by apply Hmono|].
    destruct (o_frozen o') eqn:Hf'; [|done].
    apply (Hfr l o' Hl') in Hf' as [Hr|(o2 & Ho2 & Hf2)].
    + rewrite (HR Hr o eq_refl) in Hf. done.
    + congruence.
  - apply Hfl. done.
Qed.

(** [freeze] touches the hierarchy under its argument only: an object that
    the root does not reach is left exactly as it was, and the call log is
    unchanged. *)
Theorem freeze_frame fuel l s v s' :
  wf_heap (heap s) → is_Some (heap s !! l) → (size (heap s) < fuel)%nat →
  freeze fuel (VRef l) s = Ret v s' →
  calls s' = calls s ∧
  ∀ l', ¬ rtc (edge (heap s)) l l' → heap s' !! l' = heap s !! l'.
Proof.
  intros Hwf Hl Hfuel Hfreeze.
  destruct (baseFreeze_total (heap s) Hwf fuel l [] s)
    as [[Hout _]|(s2 & Hout & _ & Hfr & Hcalls)];
    [apply flags_only_refl|done|apply NoDup_nil_2|by intros ? ?%not_elem_of_nil|cbn; lia| |].
  - unfold freeze in Hfreeze. rewrite (bind_Throw _ _ _ _ Hout) in Hfreeze. done.
  - unfold freeze in Hfreeze. rewrite (bind_eq _ _ _ _ _ Hout) in Hfreeze.
    injection Hfreeze as <- <-. split; [done|].
    intros l' Hnr. eapply froze_lookup_unchanged; [done|]. intros ?. done.
Qed.

(** Freezing is idempotent: after [freeze(root)] has returned, a second
    [freeze(root)] returns [root] again and changes nothing at all. *)
Theorem freeze_idempotent fuel l s :
  wf_heap (heap s) → is_Some (heap s !! l) → (size (heap s) < fuel)%nat →
  ¬ has_cycle (heap s) l →
  ∃ s', freeze fuel (VRef l) s = Ret (VRef l) s' ∧
        freeze fuel (VRef l) s' = Ret (VRef l) s'.
Proof.
  intros Hwf Hl Hfuel Hacyc.
  destruct (baseFreeze_total (heap s) Hwf fuel l [] s)
    as [[_ Hhits%hits_nil]|(s1 & Hout1 & _ & Hfr1 & Hcalls1)];
    [apply flags_only_refl|done|apply NoDup_nil_2|by intros ? ?%not_elem_of_nil|cbn; lia|done|].
  destruct (baseFreeze_total (heap s) Hwf fuel l [] s1)
    as [[_ Hhits%hits_nil]|(s2 & Hout2 & _ & Hfr2 & Hcalls2)];
    [apply Hfr1|done|apply NoDup_nil_2|by intros ? ?%not_elem_of_nil|cbn; lia|done|].
  exists s1. unfold freeze. rewrite (bind_eq _ _ _ _ _ Hout1), (bind_eq _ _ _ _ _ Hout2).
  split; [done|]. cbn [ret fst]. f_equal. apply state_eq; [|done].
  apply map_eq. intros l'. eapply froze_lookup_unchanged; [done|].
  intros Hreach o1 Hl1. destruct Hfr1 as [_ Hfr1]. apply (Hfr1 l' o1 Hl1). by left.
Qed.

(** ** Shallow clone *)

(** [clone] of a container returns a new object, distinct from every
    existing one and not frozen (even when the original is), of the same
    kind and length; every key of the original reads the same value in the
    clone, and a plain object keeps exactly its properties.  Nothing else in
    the heap changes. *)
Theorem clone_shallow_copy l o s :
  wf_heap (heap s) → heap s !! l = Some o →
  ∃ r o',
    clone (VRef l) s = Ret (VRef r) (upd_heap <[r := o']> s) ∧
    heap s !! r = None ∧
    o_kind o' = o_kind o ∧ o_frozen o' = false ∧
    own_get o' "length" = own_get o "length" ∧
    (∀ k, key_ok o k → own_get o' k = own_get o k) ∧
    (o_kind o = KObject → o_props o' = o_props o).
Proof.
  intros Hwf Hl. pose proof (Hwf l o Hl) as Hwfo. cbn in Hwfo.
  exists (fresh (dom (heap s))), (clone_obj o).
  split; [apply clone_ref; [done|by eapply wf_obj_clonable]|].
  split; [apply fresh_None|]. split; [apply clone_obj_kind|].
  split; [apply clone_obj_frozen|]. split; [|split].
  - unfold own_get, clone_obj. destruct (o_kind o) eqn:Ek; [|done]. cbn.
    destruct (Hwfo) as [Hprops _].
    destruct (o_props o !! "length") as [x|] eqn:Ex; done.
  - intros k Hk. rewrite own_get_data.
    + by eapply clone_obj_get.
    + apply (key_ok_kind o); [apply clone_obj_kind|done].
  - intros Ek. unfold clone_obj. by rewrite Ek.
Qed.

(** The clone of an array has exactly one property per position below its
    length: a hole of the original becomes a property holding [undefined],
    and a property of the original whose name is not such a position is not
    copied. *)
Theorem clone_array_positions l o s :
  heap s !! l = Some o → o_kind o = KArray → (o_len o < 4294967296)%N →
  ∃ r o',
    clone (VRef l) s = Ret (VRef r) (upd_heap <[r := o']> s) ∧
    o_len o' = o_len o ∧
    (∀ i, (i < o_len o)%N →
          o_props o' !! idx i = Some (default VUndef (o_props o !! idx i))) ∧
    (∀ k, is_Some (o_props o' !! k) → ∃ i, k = idx i ∧ (i < o_len o)%N).
Proof.
  intros Hl Hk Hlen. exists (fresh (dom (heap s))), (clone_obj o).
  split; [apply clone_ref; [done|by apply clonable_array]|].
  unfold clone_obj. rewrite Hk. cbn.
  split; [done|]. split.
  - intros i Hi. rewrite lookup_dense_idx. by rewrite decide_True.
  - intros k [x Hx]. apply lookup_dense_Some in Hx as (i & -> & Hi & _). eauto.
Qed.

(** ** Deleting a key *)

Lemma del_ref_eq l o key s :
  heap s !! l = Some o → clonable o →
  ¬ (o_kind o = KArray ∧ key = "length") →
  del (VRef l) key s
  = Ret (VRef (fresh (dom (heap s))))
        (upd_heap <[fresh (dom (heap s)) :=
                      Obj (o_kind o) true (delete key (o_props (clone_obj o)))
                          (o_len (clone_obj o))]> s).
Proof.
  intros Ho Hlen Hkey.
  destruct (o_props (clone_obj o) !! key) as [x|] eqn:Hx; [by apply del_ref|].
  unfold del. rewrite (bind_eq _ _ _ _ _ (clone_ref _ _ _ Ho Hlen)).
  erewrite bind_eq; last first.
  { cbn [js_delete]. erewrite bind_eq; [|apply lookup_obj_eq; cbn; apply lookup_insert_eq].
    rewrite clone_obj_kind, Hx.
    destruct (bool_decide (o_kind o = KArray) && bool_decide (key = "length")) eqn:E.
    - apply andb_true_iff in E as [?%bool_decide_eq_true ?%bool_decide_eq_true]. tauto.
    - reflexivity. }
  erewrite Object_freeze_ref by (cbn; apply lookup_insert_eq).
  rewrite store_store, delete_id by done. by rewrite clone_obj_kind.
Qed.

Lemma del_reads l o key s :
  wf_heap (heap s) → heap s !! l = Some o → key_ok o key →
  ∃ r o',
    del (VRef l) key s = Ret (VRef r) (upd_heap <[r := o']> s) ∧
    heap s !! r = None ∧
    o_kind o' = o_kind o ∧ o_frozen o' = true ∧
    o_props o' !! key = None ∧
    js_get (VRef r) key (upd_heap <[r := o']> s) = Ret VUndef (upd_heap <[r := o']> s) ∧
    ∀ k, key_ok o k → k ≠ key →
         js_get (VRef l) k s = Ret (own_get o k) s ∧
         js_get (VRef r) k (upd_heap <[r := o']> s)
         = Ret (own_get o k) (upd_heap <[r := o']> s).
Proof.
  intros Hwf Hl Hkey. pose proof (Hwf l o Hl) as Hwfo. cbn in Hwfo.
  eexists _, _. split.
  { apply del_ref_eq; [done|by eapply wf_obj_clonable|by apply key_ok_not_length]. }
  split; [apply fresh_None|]. cbn [o_kind o_frozen o_props].
  split; [done|]. split; [done|]. split; [apply lookup_delete_eq|].
  assert (∀ k, key_ok o k →
            js_get (VRef (fresh (dom (heap s)))) k
              (upd_heap <[fresh (dom (heap s)) :=
                 Obj (o_kind o) true (delete key (o_props (clone_obj o)))
                     (o_len (clone_obj o))]> s)
            = Ret (default VUndef (delete key (o_props (clone_obj o)) !! k))
                  (upd_heap <[fresh (dom (heap s)) :=
                     Obj (o_kind o) true (delete key (o_props (clone_obj o)))
                         (o_len (clone_obj o))]> s)) as Hread.
  { intros k Hk. erewrite js_get_ref;
      [|cbn; apply lookup_insert_eq|by eapply key_ok_readable].
    by rewrite own_get_data by (by apply (key_ok_kind o)). }
  split.
  - rewrite Hread by done. by rewrite lookup_delete_eq.
  - intros k Hk Hne. split.
    + apply js_get_ref; [done|by eapply key_ok_readable].
    + rewrite Hread by done. rewrite lookup_delete_ne by done.
      f_equal. by eapply clone_obj_get.
Qed.

(** [del(c, key)] on a container [c], for a key of the data model, returns
    a new frozen object of the same kind in which [key] is not a property
    and reads as [undefined], while every other key of [c] reads the very
    value it reads in [c].  This holds whether or not [c] has the key:
    deleting a missing key gives a frozen copy.  Nothing else in the heap
    changes. *)
Theorem del_keeps_other_keys l o key s :
  wf_heap (heap s) → heap s !! l = Some o → key_ok o key →
  ∃ r o' s',
    del (VRef l) key s = Ret (VRef r) s' ∧ s' = upd_heap <[r := o']> s ∧
    heap s !! r = None ∧
    o_kind o' = o_kind o ∧ o_frozen o' = true ∧
    o_props o' !! key = None ∧
    js_get (VRef r) key s' = Ret VUndef s' ∧
    ∀ k, key_ok o k → k ≠ key →
         ∃ x, js_get (VRef l) k s = Ret x s ∧ js_get (VRef r) k s' = Ret x s'.
Proof.
  intros Hwf Hl Hkey.
  destruct (del_reads l o key s Hwf Hl Hkey)
    as (r & o' & Hdel & Hr & Hkind & Hfrozen & Hgone & Hread & Hother).
  exists r, o', (upd_heap <[r := o']> s).
  repeat (split; [done|]). intros k Hk Hne. exists (own_get o k). by apply Hother.
Qed.

(** [del] raises a [TypeError] when asked to delete [length] from an array
    (it cannot be deleted from the clone), and when its first argument is
    [undefined] or [null] (it cannot be cloned). *)
Theorem del_raises l o k s :
  heap s !! l = Some o → o_kind o = KArray → (o_len o < 4294967296)%N →
  del (VRef l) "length" s = Throw TypeError ∧
  del VUndef k s = Throw TypeError ∧
  del VNull k s = Throw TypeError.
Proof.
  intros Hl Hk Hlen. split; [|done].
  unfold del. rewrite (bind_eq _ _ _ _ _ (clone_ref _ _ _ Hl (clonable_array _ Hk Hlen))).
  apply bind_Throw. cbn [js_delete].
  erewrite bind_eq; [|apply lookup_obj_eq; cbn; apply lookup_insert_eq].
  by rewrite clone_obj_kind, Hk.
Qed.

(** ** What the update operations return and allocate *)

Lemma evolves_None h h' l : evolves h h' → h' !! l = None → h !! l = None.
Proof.
  intros He Hl'. destruct (h !! l) as [o|] eqn:Hl; [|done].
  destruct (He l o Hl) as (o' & ? & _). congruence.
Qed.

Lemma assocIn_fresh fuel : ∀ coll path val s v s',
  assocIn fuel coll path val s = Ret v s' →
  ∃ r o', v = VRef r ∧ heap s !! r = None ∧ heap s' !! r = Some o' ∧ o_frozen o' = true.
Proof.
  destruct fuel as [|fuel]; intros coll path val s v s'; [done|].
  cbn [assocIn]. destruct path as [| |keys]; try done.
  destruct (List.length keys =? 1)%nat.
  - intros (o' & -> & Ho' & Hf & _)%assoc_Ret.
    eexists _, o'. split; [done|]. split; [apply fresh_None|done].
  - intros (child & s1 & ->%js_get_Ret & H)%bind_Ret.
    apply bind_Ret in H as (inner & s1 & [He1 _]%assocIn_Ret & H).
    apply assoc_Ret in H as (o' & -> & Ho' & Hf & _).
    eexists _, o'. split; [done|]. split; [|done].
    eapply evolves_None; [done|]. apply fresh_None.
Qed.

(** Whenever [assoc], [del], [assocIn] or [updateIn] returns, the result is
    an object that did not exist before the call (so it is never the input
    container itself) and that is frozen. *)
Theorem updates_return_new_frozen fuel coll key path val callback s :
  (∀ v s', assoc fuel coll key val s = Ret v s' → new_frozen s v s') ∧
  (∀ v s', del coll key s = Ret v s' → new_frozen s v s') ∧
  (∀ v s', assocIn fuel coll path val s = Ret v s' → new_frozen s v s') ∧
  (∀ v s', updateIn fuel coll path callback s = Ret v s' → new_frozen s v s').
Proof.
  unfold new_frozen. repeat split; intros v s'.
  - intros (o' & -> & Ho' & Hf & _)%assoc_Ret.
    eexists _, o'. split; [done|]. split; [apply fresh_None|done].
  - intros (o' & -> & -> & Hf)%del_Ret.
    eexists _, o'. split; [done|]. split; [apply fresh_None|].
    cbn. by rewrite lookup_insert_eq.
  - apply assocIn_fresh.
  - unfold updateIn. intros (existing & s1 & ->%baseGet_Ret & H)%bind_Ret.
    apply bind_Ret in H as (x & s1 & [= <- <-] & H).
    by apply assocIn_fresh in H.
Qed.

Lemma assoc_no_other_alloc fuel coll key val s v s' :
  assoc fuel coll key val s = Ret v s' →
  ∀ l, l ≠ fresh (dom (heap s)) → heap s !! l = None → heap s' !! l = None.
Proof.
  unfold assoc.
  intros (newObj & s1 & (oc & -> & -> & Hoc)%clone_Ret & H)%bind_Ret.
  apply bind_Ret in H as (care & s1 & [-> _]%weCareAbout_Ret & H).
  apply bind_Ret in H as (x & s2 & (-> & [Hev Hdom] & Hcalls)%assoc_freeze_step & H).
  apply bind_Ret in H as (u & s3 & Hset & H).
  apply js_set_Ret in Hset as (l2 & o2 & o3 & [= <-] & Ho2 & _ & -> & _ & _ & _).
  rewrite (Object_freeze_ref _ o3) in H by (cbn; apply lookup_insert_eq).
  injection H as <- <-. rewrite store_store.
  intros l Hne Hl. cbn. rewrite lookup_insert_ne by done.
  apply Hdom. cbn. by rewrite lookup_insert_ne.
Qed.

Lemma assoc_size fuel coll key val s v s' :
  assoc fuel coll key val s = Ret v s' → size (heap s') = S (size (heap s)).
Proof.
  intros H. pose proof (assoc_no_other_alloc _ _ _ _ _ _ _ H) as Hno.
  apply assoc_Ret in H as (o' & -> & Ho' & _ & _ & He & _).
  rewrite <- !(size_dom (D := gset loc)).
  assert (dom (heap s') = {[fresh (dom (heap s))]} ∪ dom (heap s)) as ->.
  { apply set_eq. intros l. rewrite elem_of_union, elem_of_singleton, !elem_of_dom.
    split.
    - intros Hl'. destruct (decide (l = fresh (dom (heap s)))) as [->|Hne]; [by left|].
      right. destruct (heap s !! l) eqn:Hl; [done|].
      rewrite (Hno l Hne Hl) in Hl'. by destruct Hl'.
    - intros [->|[o Ho]]; [by eauto|]. destruct (He l o Ho) as (o2 & ? & _). eauto. }
  rewrite size_union, size_singleton; [done|].
  apply disjoint_singleton_l, is_fresh.
Qed.

Lemma assocIn_size fuel : ∀ coll keys val s v s',
  assocIn fuel coll (PArray keys) val s = Ret v s' →
  keys ≠ [] ∧ size (heap s') = (size (heap s) + List.length keys)%nat.
Proof.
  induction fuel as [|fuel IH]; intros coll keys val s v s'; [done|].
  cbn [assocIn]. destruct keys as [|k [|k' rest]]; cbn [List.length Nat.eqb first_key tail].
  - intros (child & s1 & _ & H)%bind_Ret.
    apply bind_Ret in H as (inner & s2 & [? _]%IH & _). done.
  - intros H%assoc_size. split; [done|]. lia.
  - intros (child & s1 & ->%js_get_Ret & H)%bind_Ret.
    apply bind_Ret in H as (inner & s1 & [_ Hsz]%IH & H%assoc_size).
    split; [done|]. cbn [List.length] in Hsz. lia.
Qed.

(** [assocIn] allocates exactly one new object per path segment: whenever
    it returns, the path was not empty and the heap has grown by as many
    objects as the path has keys (freezing a fresh value allocates
    nothing). *)
Theorem assocIn_allocates_per_segment fuel coll keys val s v s' :
  assocIn fuel coll (PArray keys) val s = Ret v s' →
  keys ≠ [] ∧ size (heap s') = (size (heap s) + List.length keys)%nat.
Proof. apply assocIn_size. Qed.

(** ** [assoc]: the object it builds *)

Lemma assoc_heap fuel l o key val s v s' :
  heap s !! l = Some o → clonable o →
  ¬ (o_kind o = KArray ∧ key = "length") → key ≠ "__proto__" →
  assoc fuel (VRef l) key val s = Ret v s' →
  v = VRef (fresh (dom (heap s))) ∧
  heap s' !! fresh (dom (heap s)) = Some (frz (put (clone_obj o) key val)) ∧
  flags_only (heap s) (delete (fresh (dom (heap s))) (heap s')) ∧
  calls s' = calls s.
Proof.
  intros Ho Hlen Hkey Hproto. unfold assoc.
  rewrite (bind_eq _ _ _ _ _ (clone_ref _ _ _ Ho Hlen)).
  set (r := fresh (dom (heap s))).
  assert (heap s !! r = None) as Hr by apply fresh_None.
  intros (care & s1 & [-> _]%weCareAbout_Ret & H)%bind_Ret.
  apply bind_Ret in H as (x & s2 & (-> & [Hev Hdom] & Hcalls)%assoc_freeze_step & H).
  apply bind_Ret in H as (u & s3 & Hset & H).
  destruct (Hev r (clone_obj o)) as (o2 & Ho2 & Hd & _).
  { cbn. apply lookup_insert_eq. }
  pose proof Hset as Hset'.
  apply js_set_Ret in Hset' as (l2 & o2' & _ & [= <-] & Ho2' & Hf2 & _).
  specialize (Hf2 Hproto).
  assert (o2' = o2) as -> by congruence.
  assert (o2 = clone_obj o) as ->.
  { apply same_data_eq; [done|]. by rewrite clone_obj_frozen. }
  rewrite (js_set_put _ _ _ _ _ Ho2 Hf2) in Hset; [| |done].
  2:{ rewrite clone_obj_kind. done. }
  injection Hset as Hs3. subst s3.
  erewrite Object_freeze_ref in H by (cbn; apply lookup_insert_eq).
  injection H as <- <-. rewrite store_store. cbn [heap upd_heap calls].
  split; [done|]. split; [by rewrite lookup_insert_eq|]. split; [|done].
  rewrite delete_insert_eq. split.
  - intros l0 o0 Hl0. assert (l0 ≠ r) as Hne by congruence.
    rewrite lookup_delete_ne by done. apply Hev. cbn. by rewrite lookup_insert_ne.
  - intros l0 Hl0. destruct (decide (l0 = r)) as [->|Hne]; [apply lookup_delete_eq|].
    rewrite lookup_delete_ne by done. apply Hdom. cbn. by rewrite lookup_insert_ne.
Qed.

(** [assoc] on an array at index [n]: the result is an array of length
    [max(length, n + 1)].  Writing at or past the end grows the array, and
    the positions between the old end and [n] stay holes. *)
Theorem assoc_array_grows fuel l o n key val s v s' :
  heap s !! l = Some o → o_kind o = KArray → (o_len o < 4294967296)%N →
  array_index key = Some n →
  assoc fuel (VRef l) key val s = Ret v s' →
  ∃ r o', v = VRef r ∧ heap s' !! r = Some o' ∧ o_kind o' = KArray ∧
          o_len o' = N.max (o_len o) (n + 1) ∧
          o_props o' !! key = Some val ∧
          ∀ i, (o_len o ≤ i)%N → i ≠ n → o_props o' !! idx i = None.
Proof.
  intros Hl Hk Hlen Hn Hassoc.
  apply array_index_Some in Hn as Hkey. destruct Hkey as [-> Hbound].
  apply (assoc_heap _ _ o) in Hassoc as (-> & Hr & _);
    [|done|by apply clonable_array| |apply idx_not_proto].
  2:{ intros [_ E]. by apply idx_not_length in E. }
  eexists _, _. split; [done|]. split; [done|].
  unfold frz, put, clone_obj. rewrite Hk. cbn. rewrite Hn.
  split; [done|]. split; [done|]. split; [apply lookup_insert_eq|].
  intros i Hi Hne. rewrite lookup_insert_ne by (intros E%idx_inj; done).
  rewrite lookup_dense_idx. rewrite decide_False; [done|lia].
Qed.

(** [assoc(arr, 'length', n)] on an array, [n] being a number, does not
    add a property: when [n] is an integer between 0 and 2^32 - 1 the call
    returns a frozen copy of length [n] (truncated, or extended with holes),
    keeping the positions below both lengths; for every other number (a
    negative or too large one, one that is not an integer, an infinity,
    NaN) a [RangeError] is thrown. *)
Theorem assoc_array_length_key fuel l o n s :
  heap s !! l = Some o → o_kind o = KArray → (o_len o < 4294967296)%N →
  (∀ len, array_length n = Some len →
   ∃ r o',
     assoc fuel (VRef l) "length" (VNum n) s = Ret (VRef r) (upd_heap <[r := o']> s) ∧
     heap s !! r = None ∧ o_kind o' = KArray ∧ o_frozen o' = true ∧
     o_len o' = len ∧
     ∀ i, o_props o' !! idx i
          = if decide (i < len ∧ i < o_len o)%N
            then Some (default VUndef (o_props o !! idx i)) else None) ∧
  (array_length n = None →
   assoc fuel (VRef l) "length" (VNum n) s = Throw RangeError).
Proof.
  intros Hl Hk Hlen.
  assert (assoc fuel (VRef l) "length" (VNum n) s
          = (js_set (VRef (fresh (dom (heap s)))) "length" (VNum n) ;;;
             Object_freeze (VRef (fresh (dom (heap s)))))
              (upd_heap <[fresh (dom (heap s)) := clone_obj o]> s)) as ->.
  { unfold assoc.
    rewrite (bind_eq _ _ _ _ _ (clone_ref _ _ _ Hl (clonable_array _ Hk Hlen))).
    rewrite (bind_eq _ _ _ _ _ (weCareAbout_prim (VNum n) _ eq_refl)). reflexivity. }
  set (r := fresh (dom (heap s))).
  assert (js_set (VRef r) "length" (VNum n) (upd_heap <[r := clone_obj o]> s)
          = match array_length n with
            | Some len => Ret tt (upd_heap <[r := set_length (clone_obj o) len]> s)
            | None => Throw RangeError
            end) as Hset.
  { unfold js_set. erewrite bind_eq; [|apply lookup_obj_eq; cbn; apply lookup_insert_eq].
    rewrite (bool_decide_eq_false_2 ("length" = "__proto__")) by done. cbn [andb].
    rewrite clone_obj_frozen, clone_obj_kind, Hk.
    rewrite !bool_decide_eq_true_2 by done. cbn [andb to_number].
    destruct (array_length n); [|done]. unfold store. by rewrite store_store. }
  split.
  - intros len Hn. rewrite Hn in Hset.
    exists r, (frz (set_length (clone_obj o) len)).
    split.
    { rewrite (bind_eq _ _ _ _ _ Hset).
      erewrite Object_freeze_ref by (cbn; apply lookup_insert_eq).
      by rewrite store_store. }
    apply array_length_Some in Hn as [_ Hn].
    split; [apply fresh_None|]. unfold frz, set_length, clone_obj. rewrite Hk. cbn.
    split; [done|]. split; [done|]. split; [done|].
    intros i. case_decide as Hi.
    + apply map_lookup_filter_Some. split.
      * rewrite lookup_dense_idx. rewrite decide_True; [done|lia].
      * cbn. unfold survives. rewrite array_index_idx by lia. apply N.ltb_lt. lia.
    + apply map_lookup_filter_None.
      destruct (decide (i < o_len o)%N) as [Hlt|Hge].
      * right. intros x _. cbn. unfold survives. rewrite array_index_idx by lia.
        intros E%N.ltb_lt. lia.
      * left. rewrite lookup_dense_idx. by rewrite decide_False.
  - intros Hn. rewrite Hn in Hset. by apply bind_Throw.
Qed.

(** [assoc] on something that is not a container: a number or a boolean is
    treated as an empty map, so the result, for a key other than
    [__proto__], is the new frozen map [{key: val}]; [undefined] and [null]
    cannot be cloned and a [TypeError] is thrown. *)
Theorem assoc_on_primitive fuel c key val s :
  is_ref val = false → key ≠ "__proto__" →
  match c with
  | VNum _ | VBool _ =>
      assoc fuel c key val s
      = Ret (VRef (fresh (dom (heap s))))
            (upd_heap <[fresh (dom (heap s)) := Obj KObject true {[ key := val ]} 0]> s)
  | VUndef | VNull => assoc fuel c key val s = Throw TypeError
  | VStr _ | VRef _ => True
  end.
Proof.
  intros Hval Hkey.
  assert (∀ c, clone c s = Ret (VRef (fresh (dom (heap s))))
                             (upd_heap <[fresh (dom (heap s)) := Obj KObject false ∅ 0]> s) →
               assoc fuel c key val s
               = Ret (VRef (fresh (dom (heap s))))
                     (upd_heap <[fresh (dom (heap s)) := Obj KObject true {[ key := val ]} 0]> s))
    as Hgen.
  { intros c' Hclone. unfold assoc. rewrite (bind_eq _ _ _ _ _ Hclone).
    rewrite (bind_eq _ _ _ _ _ (weCareAbout_prim val _ Hval)).
    erewrite (bind_eq (ret val)); [|reflexivity].
    erewrite bind_eq; last first.
    { apply js_set_put; [cbn; apply lookup_insert_eq|done|by intros [? _]|done]. }
    rewrite store_store.
    erewrite Object_freeze_ref by (cbn; apply lookup_insert_eq).
    rewrite store_store. unfold put. cbn. by rewrite insert_empty. }
  destruct c; try done; by apply Hgen.
Qed.

Lemma clone_obj_no_proto h o :
  wf_obj h o → is_own (clone_obj o) "__proto__" = false.
Proof.
  intros Hwf. destruct (wf_obj_clonable _ _ Hwf) as [_ Hproto].
  unfold is_own, clone_obj. destruct (o_kind o) eqn:Ek; cbn.
  - rewrite Hproto by done.
    rewrite (bool_decide_eq_false_2 (is_Some None)) by (by intros [? ?]). done.
  - rewrite (bool_decide_eq_false_2 (is_Some _)); [done|].
    intros [x Hx]. apply lookup_dense_Some in Hx as (i & E & _).
    symmetry in E. by apply idx_not_proto in E.
Qed.

(** [assoc] with the key [__proto__] and a value that is neither an object
    nor [null] adds nothing: the assignment reaches the accessor of
    [Object.prototype], which ignores such a value, and the result is a new
    frozen copy of the container (for an array, of its positions). *)
Theorem assoc_proto_adds_nothing fuel l o val s :
  wf_heap (heap s) → heap s !! l = Some o → is_ref val = false → val ≠ VNull →
  ∃ r, assoc fuel (VRef l) "__proto__" val s
       = Ret (VRef r) (upd_heap <[r := frz (clone_obj o)]> s) ∧
       heap s !! r = None ∧
       o_props (frz (clone_obj o)) !! "__proto__" = None.
Proof.
  intros Hwf Hl Hval Hnull. pose proof (Hwf l o Hl) as Hwfo. cbn in Hwfo.
  pose proof (clone_obj_no_proto _ _ Hwfo) as Hown.
  exists (fresh (dom (heap s))). split; [|split; [apply fresh_None|]].
  - unfold assoc.
    rewrite (bind_eq _ _ _ _ _ (clone_ref _ _ _ Hl (wf_obj_clonable _ _ Hwfo))).
    rewrite (bind_eq _ _ _ _ _ (weCareAbout_prim val _ Hval)).
    erewrite (bind_eq (ret val)); [|reflexivity].
    erewrite bind_eq; last first.
    { unfold js_set. erewrite bind_eq; [|apply lookup_obj_eq; cbn; apply lookup_insert_eq].
      rewrite Hown. rewrite bool_decide_eq_true_2 by done. cbn [andb negb].
      by destruct val. }
    erewrite Object_freeze_ref by (cbn; apply lookup_insert_eq).
    by rewrite store_store.
  - cbn [frz o_props]. unfold is_own in Hown.
    apply orb_false_iff in Hown as [_ Hown%bool_decide_eq_false].
    destruct (o_props (clone_obj o) !! "__proto__") eqn:E; [|done].
    exfalso. eauto.
Qed.

(** ** Well-formedness of the heap is kept *)

Lemma wf_heap_flags_only h h' : wf_heap h → flags_only h h' → wf_heap h'.
Proof.
  intros Hwf Hfl l o' Hl'.
  destruct (flags_only_lookup_inv _ _ _ _ Hfl Hl') as (o & Hl & Hd).
  eapply wf_obj_same_data; [done|]. eapply wf_obj_evolves; [apply Hfl|]. by apply (Hwf l).
Qed.

Lemma wf_obj_put h o k x :
  wf_obj h o → wf_value h x → key_ok o k → wf_obj h (put o k x).
Proof.
  intros [Hprops Hlen] Hx Hk. split.
  - cbn [o_props put]. apply map_Forall_insert_2.
    + split; [done|]. split; [by eapply key_ok_not_proto|].
      cbn. intros Ek. destruct (proj2 Hk Ek) as [n Hn]. rewrite Ek, Hn.
      split; [|lia]. apply array_index_Some in Hn as [-> _]. apply idx_not_length.
    + intros k' v' Hk'. destruct (Hprops k' v' Hk') as (Hv & Hp & Harr).
      split; [done|]. split; [done|].
      cbn. intros Ek. destruct (Harr Ek) as [Hne Hidx]. split; [done|].
      rewrite Ek. destruct (array_index k') as [n'|]; [|done].
      destruct (array_index k); lia.
  - cbn. destruct (o_kind o); [done|].
    destruct (array_index k) as [n|] eqn:Hn; [|done].
    apply array_index_Some in Hn as [_ Hn]. lia.
Qed.

Lemma wf_obj_frz h o : wf_obj h o → wf_obj h (frz o).
Proof. by apply wf_obj_same_data. Qed.

Lemma wf_heap_add h h' r o :
  wf_heap h → h !! r = None → h' = <[r := o]> h → wf_obj h' o → wf_heap h'.
Proof.
  intros Hwf Hr -> Ho. apply map_Forall_insert_2; [done|].
  intros l o' Hl. eapply wf_obj_evolves; [by apply evolves_alloc|]. by apply (Hwf l).
Qed.

Lemma assoc_wf fuel l o key val s v s' :
  wf_heap (heap s) → heap s !! l = Some o → key_ok o key → wf_value (heap s) val →
  assoc fuel (VRef l) key val s = Ret v s' → wf_heap (heap s').
Proof.
  intros Hwf Hl Hkey Hval Hassoc.
  pose proof (Hwf l o Hl) as Hwfo. cbn in Hwfo.
  pose proof Hassoc as (_ & _ & _ & _ & _ & He & _)%assoc_Ret.
  apply (assoc_heap _ _ o) in Hassoc as (-> & Hr & Hfl & _);
    [|done|by eapply wf_obj_clonable|by apply key_ok_not_length|by eapply key_ok_not_proto].
  eapply wf_heap_add with (h := delete (fresh (dom (heap s))) (heap s')).
  - by eapply wf_heap_flags_only.
  - apply lookup_delete_eq.
  - rewrite insert_delete_eq. symmetry. by apply insert_id.
  - eapply wf_obj_evolves; [done|]. apply wf_obj_frz, wf_obj_put; [|done|].
    + by apply wf_obj_clone.
    + apply (key_ok_kind o); [apply clone_obj_kind|done].
Qed.

Lemma del_wf l o key s v s' :
  wf_heap (heap s) → heap s !! l = Some o → key_ok o key →
  del (VRef l) key s = Ret v s' → wf_heap (heap s').
Proof.
  intros Hwf Hl Hkey Hdel.
  pose proof (Hwf l o Hl) as Hwfo. cbn in Hwfo.
  rewrite (del_ref_eq l o) in Hdel;
    [|done|by eapply wf_obj_clonable|by apply key_ok_not_length].
  injection Hdel as _ <-.
  eapply wf_heap_add with (h := heap s); [done|apply fresh_None|done|].
  eapply wf_obj_evolves; [apply evolves_alloc, fresh_None|].
  destruct (wf_obj_clone _ _ Hwfo) as [Hprops Hlen]. split; [|done].
  cbn [o_props]. intros k x [_ Hk]%lookup_delete_Some.
  destruct (Hprops k x Hk) as (Hv & Hp & Harr). split; [done|]. split; [done|].
  cbn. rewrite <- (clone_obj_kind o). done.
Qed.

Lemma assocIn_wf fuel : ∀ c keys val s v s',
  wf_heap (heap s) → valid_path (heap s) c keys → wf_value (heap s) val →
  assocIn fuel c (PArray keys) val s = Ret v s' → wf_heap (heap s').
Proof.
  induction fuel as [|fuel IH]; intros c keys val s v s' Hwf Hpath Hval; [done|].
  destruct keys as [|k rest].
  { by intros [? _]%assocIn_size. }
  cbn in Hpath. destruct c as [| | | | |l]; try done.
  destruct (heap s !! l) as [o|] eqn:Hl; [|done]. destruct Hpath as [Hk Hrest].
  cbn [assocIn first_key tail].
  destruct rest as [|k' rest]; cbn [List.length Nat.eqb].
  - by apply assoc_wf with (o := o).
  - rewrite (bind_eq _ _ _ _ _ (js_get_ref _ _ k _ Hl (key_ok_readable _ _ _ Hk))).
    intros (inner & s1 & Hin & Hassoc)%bind_Ret.
    pose proof Hin as [He1 _]%assocIn_Ret.
    pose proof Hin as (r1 & o1 & -> & _ & Hr1 & _)%assocIn_fresh.
    apply IH in Hin; [|done..].
    destruct (He1 l o Hl) as (o' & Hl' & Hd & _).
    apply (assoc_wf fuel l o' k (VRef r1) s1 v s'); try done.
    + by eapply key_ok_same_data.
    + cbn. eauto.
Qed.

(** The representation invariant of heaps is kept: from a well-formed heap,
    [freeze] of any value, and [assoc], [del] and [assocIn] of a well-formed
    value on a container (for [assocIn], along a path through containers)
    lead only to well-formed heaps. *)
Theorem updates_keep_heap_well_formed fuel l o key keys val root s :
  wf_heap (heap s) → heap s !! l = Some o → key_ok o key →
  valid_path (heap s) (VRef l) keys → wf_value (heap s) val →
  (∀ v s', freeze fuel root s = Ret v s' → wf_heap (heap s')) ∧
  (∀ v s', assoc fuel (VRef l) key val s = Ret v s' → wf_heap (heap s')) ∧
  (∀ v s', del (VRef l) key s = Ret v s' → wf_heap (heap s')) ∧
  (∀ v s', assocIn fuel (VRef l) (PArray keys) val s = Ret v s' → wf_heap (heap s')).
Proof.
  intros Hwf Hl Hkey Hpath Hval. refine (conj _ (conj _ (conj _ _))); intros v s' H.
  - unfold freeze in H. apply bind_Ret in H as (r & s1 & (_ & Hfl & _)%baseFreeze_Ret & [= _ <-]).
    by eapply wf_heap_flags_only.
  - by eapply assoc_wf.
  - by eapply del_wf.
  - by eapply assocIn_wf.
Qed.

(** ** Immutability of whole hierarchies is kept *)

Lemma deep_frozen_evolves h h' l :
  wf_heap h → evolves h h' → is_Some (h !! l) → deep_frozen h l → deep_frozen h' l.
Proof.
  intros Hwf He Hl Hdeep l' o' Hreach Hl'.
  destruct (reach_later h h' l l' Hwf He Hl Hreach) as [Hreach' [o Ho]].
  destruct (He l' o Ho) as (o2 & Ho2 & _ & Hmono).
  assert (o2 = o') as <- by congruence. apply Hmono. by eapply Hdeep.
Qed.

Lemma deep_frozen_child h l x : deep_frozen h l → edge h l x → deep_frozen h x.
Proof. intros Hdeep Hedge l' o' Hreach. apply Hdeep. by eapply rtc_l. Qed.

Lemma clone_props_ref o k x :
  o_props (clone_obj o) !! k = Some (VRef x) → ∃ k', o_props o !! k' = Some (VRef x).
Proof.
  unfold clone_obj. destruct (o_kind o); cbn; [by eauto|].
  intros (i & -> & _ & Hx)%lookup_dense_Some.
  destruct (o_props o !! idx i) as [y|] eqn:Ey; [|done]. cbn in Hx. subst y. eauto.
Qed.

Lemma new_root_deep_frozen h h' r n :
  wf_heap h → evolves h h' → h' !! r = Some n → o_frozen n = true →
  (∀ k x, o_props n !! k = Some (VRef x) → is_Some (h !! x) ∧ deep_frozen h x) →
  deep_frozen h' r.
Proof.
  intros Hwf He Hr Hfrozen Hchildren l' o' Hreach Hl'.
  apply rtc_inv in Hreach as [<-|(x & (k & Hk)%(edge_child _ _ _ _ Hr) & Hreach)].
  - congruence.
  - destruct (Hchildren k x Hk) as [Hx Hdeep].
    by apply (deep_frozen_evolves h h' x Hwf He Hx Hdeep l' o').
Qed.

Lemma assoc_deep_frozen fuel l o key val s v s' :
  wf_heap (heap s) → heap s !! l = Some o → key_ok o key →
  deep_frozen (heap s) l → wf_value (heap s) val →
  (∀ lv, val = VRef lv → deep_frozen (heap s) lv) →
  assoc fuel (VRef l) key val s = Ret v s' →
  ∃ r, v = VRef r ∧ deep_frozen (heap s') r.
Proof.
  intros Hwf Hl Hkey Hdeep Hval Hvdeep Hassoc.
  pose proof (Hwf l o Hl) as Hwfo. cbn in Hwfo.
  pose proof Hassoc as (_ & _ & _ & _ & _ & He & _)%assoc_Ret.
  apply (assoc_heap _ _ o) in Hassoc as (-> & Hr & _);
    [|done|by eapply wf_obj_clonable|by apply key_ok_not_length|by eapply key_ok_not_proto].
  eexists. split; [done|].
  eapply (new_root_deep_frozen (heap s)); [done|done|done|done|].
  cbn [frz put o_props]. intros k x Hk.
  destruct (decide (k = key)) as [->|Hne].
  - rewrite lookup_insert_eq in Hk. injection Hk as ->. split; [done|]. by apply Hvdeep.
  - rewrite lookup_insert_ne in Hk by done.
    apply clone_props_ref in Hk as [k' Hk'].
    assert (edge (heap s) l x) as Hedge by by exists o, k'.
    split; [by eapply edge_wf|by eapply deep_frozen_child].
Qed.

Lemma del_deep_frozen l o key s v s' :
  wf_heap (heap s) → heap s !! l = Some o → key_ok o key →
  deep_frozen (heap s) l →
  del (VRef l) key s = Ret v s' →
  ∃ r, v = VRef r ∧ deep_frozen (heap s') r.
Proof.
  intros Hwf Hl Hkey Hdeep Hdel.
  pose proof (Hwf l o Hl) as Hwfo. cbn in Hwfo.
  pose proof Hdel as [He _]%del_evolves.
  rewrite (del_ref_eq l o) in Hdel;
    [|done|by eapply wf_obj_clonable|by apply key_ok_not_length].
  injection Hdel as <- <-. eexists. split; [done|].
  eapply (new_root_deep_frozen (heap s)); [done|done|cbn; apply lookup_insert_eq|done|].
  cbn [o_props]. intros k x [_ Hk]%lookup_delete_Some.
  apply clone_props_ref in Hk as [k' Hk'].
  assert (edge (heap s) l x) as Hedge by by exists o, k'.
  split; [by eapply edge_wf|by eapply deep_frozen_child].
Qed.

Lemma assocIn_deep_frozen fuel : ∀ l keys val s v s',
  wf_heap (heap s) → valid_path (heap s) (VRef l) keys → keys ≠ [] →
  deep_frozen (heap s) l → wf_value (heap s) val →
  (∀ lv, val = VRef lv → deep_frozen (heap s) lv) →
  assocIn fuel (VRef l) (PArray keys) val s = Ret v s' →
  ∃ r, v = VRef r ∧ deep_frozen (heap s') r.
Proof.
  induction fuel as [|fuel IH];
    intros l keys val s v s' Hwf Hpath Hne Hdeep Hval Hvdeep; [done|].
  destruct keys as [|k rest]; [done|].
  cbn in Hpath. destruct (heap s !! l) as [o|] eqn:Hl; [|done].
  destruct Hpath as [Hk Hrest].
  cbn [assocIn first_key tail].
  destruct rest as [|k' rest]; cbn [List.length Nat.eqb].
  - by apply assoc_deep_frozen with (o := o).
  - rewrite (bind_eq _ _ _ _ _ (js_get_ref _ _ k _ Hl (key_ok_readable _ _ _ Hk))).
    intros (inner & s1 & Hin & Hassoc)%bind_Ret.
    destruct (own_get o k) as [| | | | |lc] eqn:Hchild; try done.
    assert (edge (heap s) l lc) as Hedge.
    { exists o, k. split; [done|]. rewrite own_get_data in Hchild by done.
      by destruct (o_props o !! k) as [?|]; simplify_eq/=. }
    pose proof Hin as [He1 _]%assocIn_Ret.
    pose proof Hin as (r1 & o1 & Hr1eq & _ & Hr1 & _)%assocIn_fresh.
    pose proof (assocIn_wf _ _ _ _ _ _ _ Hwf Hrest Hval Hin) as Hwf1.
    apply IH in Hin as (r1' & -> & Hdeep1); [|done|done|done| |done|done].
    2:{ by eapply deep_frozen_child. }
    injection Hr1eq as ->.
    destruct (He1 l o Hl) as (o' & Hl' & Hd & _).
    apply (assoc_deep_frozen fuel l o' k (VRef r1) s1 v s'); try done.
    + by eapply key_ok_same_data.
    + apply (deep_frozen_evolves (heap s) (heap s1) l Hwf He1); [by eauto|done].
    + cbn. eauto.
    + by intros lv [= <-].
Qed.

(** The library's invariant: updating a hierarchy that is frozen throughout
    gives a hierarchy that is frozen throughout.  If every container under
    [c] is frozen and the value attached is a primitive or a container with
    every container under it frozen, then every container under the result of
    [assoc], [del] or [assocIn] (along a path through containers) is
    frozen. *)
Theorem updates_keep_hierarchy_frozen fuel l o key keys val s :
  wf_heap (heap s) → heap s !! l = Some o → deep_frozen (heap s) l →
  key_ok o key → valid_path (heap s) (VRef l) keys → keys ≠ [] →
  wf_value (heap s) val → (∀ lv, val = VRef lv → deep_frozen (heap s) lv) →
  (∀ v s', assoc fuel (VRef l) key val s = Ret v s' →
           ∃ r, v = VRef r ∧ deep_frozen (heap s') r) ∧
  (∀ v s', del (VRef l) key s = Ret v s' →
           ∃ r, v = VRef r ∧ deep_frozen (heap s') r) ∧
  (∀ v s', assocIn fuel (VRef l) (PArray keys) val s = Ret v s' →
           ∃ r, v = VRef r ∧ deep_frozen (heap s') r).
Proof.
  intros Hwf Hl Hdeep Hkey Hpath Hne Hval Hvdeep.
  refine (conj _ (conj _ _)); intros v s' H.
  - by eapply assoc_deep_frozen.
  - by eapply del_deep_frozen.
  - by eapply assocIn_deep_frozen.
Qed.

(** ** When [assocIn] succeeds *)

Lemma assoc_returns fuel l o key val s :
  heap s !! l = Some o → clonable o → key_ok o key →
  (is_ref val = false ∨
   ∃ lv ov, val = VRef lv ∧ heap s !! lv = Some ov ∧ o_frozen ov = true) →
  ∃ s', assoc fuel (VRef l) key val s = Ret (VRef (fresh (dom (heap s)))) s'.
Proof.
  intros Hl Hlen Hkey Hval.
  set (r := fresh (dom (heap s))).
  assert (heap s !! r = None) as Hr by apply fresh_None.
  unfold assoc. rewrite (bind_eq _ _ _ _ _ (clone_ref _ _ _ Hl Hlen)). fold r.
  assert (∀ K : value → M value,
            (care <- weCareAbout val ;;
             x <- (if care
                   then frozen <- Object_isFrozen val ;;
                        if negb frozen
                        then r0 <- baseFreeze fuel val [] ;; ret r0.1
                        else ret val
                   else ret val) ;; K x) (upd_heap <[r := clone_obj o]> s)
            = K val (upd_heap <[r := clone_obj o]> s)) as ->.
  { intros K. destruct Hval as [Hprim|(lv & ov & -> & Hlv & Hfrozen)].
    - by rewrite (bind_eq _ _ _ _ _ (weCareAbout_prim val _ Hprim)).
    - assert (heap (upd_heap <[r := clone_obj o]> s) !! lv = Some ov) as Hlv1.
      { cbn. rewrite lookup_insert_ne; [done|congruence]. }
      rewrite (bind_eq _ _ _ _ _ (weCareAbout_ref _ _ _ Hlv1)).
      erewrite bind_eq; [done|].
      rewrite (bind_eq _ _ _ _ _ (Object_isFrozen_ref _ _ _ Hlv1)). by rewrite Hfrozen. }
  erewrite bind_eq; last first.
  { apply js_set_put; [cbn; apply lookup_insert_eq|apply clone_obj_frozen| |
                       by eapply key_ok_not_proto].
    rewrite clone_obj_kind. by apply key_ok_not_length. }
  rewrite store_store.
  erewrite Object_freeze_ref by (cbn; apply lookup_insert_eq). eauto.
Qed.

Lemma assocIn_returns fuel : ∀ l keys val s,
  wf_heap (heap s) → valid_path (heap s) (VRef l) keys → keys ≠ [] →
  (is_ref val = false ∨
   ∃ lv ov, val = VRef lv ∧ heap s !! lv = Some ov ∧ o_frozen ov = true) →
  (List.length keys ≤ fuel)%nat →
  ∃ r s', assocIn fuel (VRef l) (PArray keys) val s = Ret (VRef r) s'.
Proof.
  induction fuel as [|fuel IH]; intros l keys val s Hwf Hpath Hne Hval Hfuel.
  { destruct keys; [done|cbn in Hfuel; lia]. }
  destruct keys as [|k rest]; [done|].
  cbn in Hpath. destruct (heap s !! l) as [o|] eqn:Hl; [|done].
  destruct Hpath as [Hk Hrest].
  pose proof (wf_obj_clonable _ _ (Hwf l o Hl)) as Hlen.
  cbn [assocIn first_key tail].
  destruct rest as [|k' rest]; cbn [List.length Nat.eqb].
  - destruct (assoc_returns fuel l o k val s) as [s' Hs']; eauto.
  - rewrite (bind_eq _ _ _ _ _ (js_get_ref _ _ k _ Hl (key_ok_readable _ _ _ Hk))).
    destruct (own_get o k) as [| | | | |lc] eqn:Hchild; try done.
    destruct (IH lc (k' :: rest) val s) as (r1 & s1 & Hin); try done.
    { cbn in Hfuel |- *. lia. }
    rewrite (bind_eq _ _ _ _ _ Hin).
    pose proof Hin as [He1 _]%assocIn_Ret.
    pose proof Hin as (r1' & o1 & [= <-] & _ & Hr1 & Hf1)%assocIn_fresh.
    destruct (He1 l o Hl) as (o' & Hl' & Hd & _).
    destruct (assoc_returns fuel l o' k (VRef r1) s1) as [s' Hs']; try done.
    + by apply (clonable_same_data o).
    + by eapply key_ok_same_data.
    + right. eauto.
    + eauto.
Qed.

Lemma assocIn_reads_path fuel : ∀ l keys val s r s',
  wf_heap (heap s) → valid_path (heap s) (VRef l) keys → keys ≠ [] →
  assocIn fuel (VRef l) (PArray keys) val s = Ret r s' →
  getIn r (PArray keys) s' = Ret val s'.
Proof.
  induction fuel as [|fuel IH]; intros l keys val s r s' Hwf Hpath Hne; [done|].
  destruct keys as [|k rest]; [done|].
  cbn in Hpath. destruct (heap s !! l) as [o|] eqn:Hl; [|done].
  destruct Hpath as [Hk Hrest].
  pose proof (wf_obj_clonable _ _ (Hwf l o Hl)) as Hclone.
  cbn [assocIn first_key tail].
  destruct rest as [|k' rest]; cbn [List.length Nat.eqb].
  - intros H. unfold getIn. rewrite baseGet_cons.
    erewrite bind_eq; [reflexivity|]. by eapply assoc_reads_key.
  - rewrite (bind_eq _ _ _ _ _ (js_get_ref _ _ k _ Hl (key_ok_readable _ _ _ Hk))).
    intros (inner & s1 & Hin & Hassoc)%bind_Ret.
    destruct (own_get o k) as [| | | | |lc] eqn:Hchild; try done.
    pose proof Hin as [He1 _]%assocIn_Ret.
    apply IH in Hin; [|done..].
    destruct (He1 l o Hl) as (o1 & Hl1 & Hd & _).
    unfold getIn. rewrite baseGet_cons.
    erewrite bind_eq; last first.
    { eapply assoc_reads_key; [exact Hl1| | |exact Hassoc].
      - by apply (clonable_same_data o).
      - by apply (key_ok_same_data o). }
    apply assoc_Ret in Hassoc as (o' & -> & _ & _ & _ & Hev & _).
    by eapply baseGet_evolves.
Qed.

(** [assocIn] succeeds whenever the path runs through containers: in a
    well-formed heap, for a non-empty path whose every key but the last leads
    to a container, a value that is a primitive or an already frozen
    container, and a recursion budget of at least the path's length,
    [assocIn] returns a container in which the path reads the value. *)
Theorem assocIn_succeeds fuel l keys val s :
  wf_heap (heap s) → valid_path (heap s) (VRef l) keys → keys ≠ [] →
  (is_ref val = false ∨
   ∃ lv ov, val = VRef lv ∧ heap s !! lv = Some ov ∧ o_frozen ov = true) →
  (List.length keys ≤ fuel)%nat →
  ∃ r s', assocIn fuel (VRef l) (PArray keys) val s = Ret (VRef r) s' ∧
          getIn (VRef r) (PArray keys) s' = Ret val s'.
Proof.
  intros Hwf Hpath Hne Hval Hfuel.
  destruct (assocIn_returns fuel l keys val s) as (r & s' & H); try done.
  exists r, s'. split; [done|]. by eapply assocIn_reads_path.
Qed.

(** ** Lookup and update along a path through containers *)

Lemma getIn_valid_path keys : ∀ c s,
  valid_path (heap s) c keys → ∃ x, baseGet c (PArray keys) s = Ret x s.
Proof.
  induction keys as [|k keys IH]; intros c s Hpath; [by eexists|].
  cbn in Hpath. destruct c as [| | | | |l]; try done.
  destruct (heap s !! l) as [o|] eqn:Hl; [|done]. destruct Hpath as [Hk Hrest].
  rewrite baseGet_cons, (bind_eq _ _ _ _ _ (js_get_ref _ _ k _ Hl (key_ok_readable _ _ _ Hk))). by apply IH.
Qed.

(** A lookup along a path that runs through containers never raises: it
    returns a value ([undefined] when the last key is missing). *)
Theorem getIn_valid_path_returns c keys s :
  valid_path (heap s) c keys → ∃ x, getIn c (PArray keys) s = Ret x s.
Proof. apply getIn_valid_path. Qed.

(** [updateIn] along a path through containers, with a callback that
    returns primitives and a recursion budget of at least the path's length:
    the lookup returns the existing value, the callback is called once, on
    that value, and the result is a container in which the path reads what
    the callback returned. *)
Theorem updateIn_succeeds fuel l keys callback s :
  wf_heap (heap s) → valid_path (heap s) (VRef l) keys → keys ≠ [] →
  (∀ x, is_ref (callback x) = false) → (List.length keys ≤ fuel)%nat →
  ∃ existing r s',
    getIn (VRef l) (PArray keys) s = Ret existing s ∧
    updateIn fuel (VRef l) (PArray keys) callback s = Ret (VRef r) s' ∧
    getIn (VRef r) (PArray keys) s' = Ret (callback existing) s' ∧
    calls s' = (calls s ++ [existing])%list.
Proof.
  intros Hwf Hpath Hne Hcb Hfuel.
  destruct (getIn_valid_path keys (VRef l) s Hpath) as [existing Hget].
  destruct (assocIn_returns fuel l keys (callback existing)
              (State (heap s) (calls s ++ [existing])%list))
    as (r & s' & Hassoc); try done.
  { by left. }
  exists existing, r, s'. split; [done|]. split; [|split].
  - unfold updateIn. by rewrite (bind_eq _ _ _ _ _ Hget).
  - apply (assocIn_reads_path fuel l keys _
             (State (heap s) (calls s ++ [existing])%list) _ _ Hwf Hpath Hne Hassoc).
  - by apply assocIn_Ret in Hassoc as [_ ?].
Qed.

(** ** [del] after [assoc] *)

(** Deleting the key that [assoc] has just set undoes the update as far as
    reads go: for keys of the data model, in the result the key reads as
    [undefined], and every other key of the original container reads the
    value it reads there. *)
Theorem assoc_then_del fuel l o key val s v s1 :
  wf_heap (heap s) → heap s !! l = Some o → key_ok o key → wf_value (heap s) val →
  assoc fuel (VRef l) key val s = Ret v s1 →
  ∃ r s2,
    del v key s1 = Ret (VRef r) s2 ∧
    js_get (VRef r) key s2 = Ret VUndef s2 ∧
    ∀ k, key_ok o k → k ≠ key →
         ∃ x, js_get (VRef l) k s = Ret x s ∧ js_get (VRef r) k s2 = Ret x s2.
Proof.
  intros Hwf Hl Hkey Hval Hassoc.
  pose proof (Hwf l o Hl) as Hwfo. cbn in Hwfo.
  pose proof (assoc_wf _ _ _ _ _ _ _ _ Hwf Hl Hkey Hval Hassoc) as Hwf1.
  apply (assoc_heap _ _ o) in Hassoc as (-> & Hr1 & _);
    [|done|by eapply wf_obj_clonable|by apply key_ok_not_length|by eapply key_ok_not_proto].
  set (n1 := frz (put (clone_obj o) key val)) in *.
  assert (o_kind n1 = o_kind o) as Hkind by (cbn; apply clone_obj_kind).
  destruct (del_reads _ n1 key s1 Hwf1 Hr1)
    as (r & o' & Hdel & _ & _ & _ & _ & Hgone & Hother).
  { by apply (key_ok_kind o). }
  exists r, (upd_heap <[r := o']> s1). split; [done|]. split; [done|].
  intros k Hk Hne. exists (own_get o k).
  split; [apply js_get_ref; [done|by eapply key_ok_readable]|].
  destruct (Hother k) as [_ ->]; [by apply (key_ok_kind o)|done|].
  f_equal. rewrite own_get_data by (by apply (key_ok_kind o)).
  cbn [n1 frz put o_props]. rewrite lookup_insert_ne by done. by eapply clone_obj_get.
Qed.

End realm.

(** * The properties on the sample hierarchies

    What follows is stated in the realm of the standard names. *)

#[local] Existing Instance standard_realm.

Lemma non_mutation_witness :
  let c := Obj KObject true {[ "a" := VRef 2%positive ]} 0 in
  (∃ v s', assoc 5 (VRef 1%positive) "a" (VNum 42) sample = Ret v s' ∧
           heap s' !! 1%positive = Some c) ∧
  (∃ v s', del (VRef 1%positive) "a" sample = Ret v s' ∧ heap s' !! 1%positive = Some c) ∧
  (∃ v s', assocIn 5 (VRef 1%positive) (PArray ["a"; "b"]) (VNum 42) sample = Ret v s' ∧
           heap s' !! 1%positive = Some c) ∧
  (∃ v s', updateIn 5 (VRef 1%positive) (PArray ["a"; "b"]) increment sample = Ret v s' ∧
           heap s' !! 1%positive = Some c).
Proof.
  intros c.
  destruct (non_mutation 5 1%positive c "a" (PArray ["a"; "b"]) (VNum 42) increment sample)
    as (H1 & H2 & H3 & H4); [reflexivity|reflexivity|].
  repeat split.
  - eexists _, _. split; [vm_compute; reflexivity|]. eapply H1. vm_compute. reflexivity.
  - eexists _, _. split; [vm_compute; reflexivity|]. eapply H2. vm_compute. reflexivity.
  - eexists _, _. split; [vm_compute; reflexivity|]. eapply H3. vm_compute. reflexivity.
  - eexists _, _. split; [vm_compute; reflexivity|]. eapply H4. vm_compute. reflexivity.
Defined.

(** C1.  A lookup through a key that does not exist raises: in
    [c = {a: {b: 1, c: 2}}], [c.z] is [undefined], and
    [getIn(c, ['z', 'b'])] throws a [TypeError] instead of returning
    [undefined]. *)
Theorem getIn_missing_intermediate_raises :
  getIn (VRef 1%positive) (PArray ["z"]) sample = Ret VUndef sample ∧
  getIn (VRef 1%positive) (PArray ["z"; "b"]) sample = Throw TypeError.
Proof. split; reflexivity. Qed.

Lemma update_composition_witness :
  updateIn 5 (VRef 1%positive) (PArray ["a"; "b"]) increment sample
  = assocIn 5 (VRef 1%positive) (PArray ["a"; "b"]) (VNum 2)
            (State (heap sample) [VNum 1]) ∧
  (∀ r s', updateIn 5 (VRef 1%positive) (PArray ["a"; "b"]) increment sample = Ret r s' →
           calls s' = [VNum 1]).
Proof.
  apply (update_composition 5 (VRef 1%positive) (PArray ["a"; "b"]) increment (VNum 1) sample).
  reflexivity.
Defined.

(** C3, as stated, fails: in [c = {a: {b: 1, c: 2}}] the value [c.a.b] is the
    number [1], and [assocIn(c, ['a', 'b', 'x'], 5)] and
    [updateIn(c, ['a', 'b', 'x'], fn)] descend through it and return a new
    hierarchy in which [a.b] is the map [{x: 5}]; no error is raised. *)
Lemma assocIn_through_number_returns :
  getIn (VRef 1%positive) (PArray ["a"; "b"]) sample = Ret (VNum 1) sample ∧
  (∃ r s', assocIn 5 (VRef 1%positive) (PArray ["a"; "b"; "x"]) (VNum 5) sample = Ret r s' ∧
           getIn r (PArray ["a"; "b"]) s' = Ret (VRef 3%positive) s' ∧
           heap s' !! 3%positive = Some (Obj KObject true {[ "x" := VNum 5 ]} 0)) ∧
  (∃ r s', updateIn 5 (VRef 1%positive) (PArray ["a"; "b"; "x"]) (λ _, VNum 5) sample
           = Ret r s').
Proof.
  split; [reflexivity|]. split.
  - eexists _, _. split; [vm_compute; reflexivity|]. split; vm_compute; reflexivity.
  - eexists _, _. vm_compute. reflexivity.
Qed.

Lemma assocIn_absent_intermediate_raises_witness :
  assocIn 5 (VRef 1%positive) (PArray ["z"; "b"]) (VNum 42) sample = Throw TypeError ∧
  updateIn 5 (VRef 1%positive) (PArray ["z"; "b"]) increment sample = Throw TypeError.
Proof.
  apply (assocIn_absent_intermediate_raises 5 (VRef 1%positive) ["z"] ["b"]
           (VNum 42) increment VUndef sample).
  - reflexivity.
  - left. reflexivity.
  - discriminate.
  - cbn. lia.
Defined.

Lemma del_array_leaves_hole_witness :
  ∃ r o',
    del (VRef 1%positive) (idx 1) sample_array
    = Ret (VRef r) (upd_heap <[r := o']> sample_array) ∧
    heap sample_array !! r = None ∧
    o_kind o' = KArray ∧ o_frozen o' = true ∧ o_len o' = 3%N ∧
    o_props o' !! idx 1 = None ∧
    own_get o' (idx 1) = VUndef ∧
    ∀ i, i ≠ 1%N → (i < 3)%N →
         o_props o' !! idx i
         = Some (own_get (Obj KArray true
                              {[ "0" := VNum 10; "1" := VNum 20; "2" := VNum 30 ]} 3)
                         (idx i)).
Proof.
  apply (del_array_leaves_hole 1%positive
           (Obj KArray true {[ "0" := VNum 10; "1" := VNum 20; "2" := VNum 30 ]} 3)
           1%N sample_array).
  - reflexivity.
  - reflexivity.
  - cbn. lia.
  - cbn. lia.
Defined.

(** C5, as stated, fails.  With [v = NaN], [assocIn] returns and the path
    reads NaN back, which is not [===] to itself.  With the key [length] of
    an array and [v = null], the clone gets the length 0, and the path reads
    [0].  With the key [__proto__] and [v = 5], the call returns a frozen
    copy to which no property has been added. *)
Lemma round_trip_fails :
  (∃ r s', assocIn 5 (VRef 1%positive) (PArray ["a"; "b"]) (VNum NNaN) sample = Ret r s' ∧
           ∃ x, getIn r (PArray ["a"; "b"]) s' = Ret x s' ∧
                strict_eq x (VNum NNaN) = false) ∧
  (∃ r s', assocIn 5 (VRef 1%positive) (PArray ["length"]) VNull sample_array = Ret r s' ∧
           ∃ x, getIn r (PArray ["length"]) s' = Ret x s' ∧ strict_eq x VNull = false) ∧
  (∃ r o' s', assocIn 5 (VRef 1%positive) (PArray ["__proto__"]) (VNum 5) sample
              = Ret (VRef r) s' ∧
              heap s' !! r = Some o' ∧ o_props o' = o_props sample_root).
Proof.
  refine (conj _ (conj _ _)).
  - eexists _, _. split; [vm_compute; reflexivity|].
    eexists. split; vm_compute; reflexivity.
  - eexists _, _. split; [vm_compute; reflexivity|].
    eexists. split; vm_compute; reflexivity.
  - eexists _, _, _. split; [vm_compute; reflexivity|]. split; vm_compute; reflexivity.
Qed.

Lemma round_trip_witness :
  ∃ r s', assocIn 5 (VRef 1%positive) (PArray ["a"; "b"]) (VRef 2%positive) sample = Ret r s' ∧
          ∃ x, getIn r (PArray ["a"; "b"]) s' = Ret x s' ∧ x = VRef 2%positive ∧
               strict_eq x (VRef 2%positive) = true.
Proof.
  eexists _, _. split; [vm_compute; reflexivity|].
  eapply (round_trip 5 (VRef 1%positive) ["a"; "b"] (VRef 2%positive) sample).
  - discriminate.
  - apply (bool_decide_unpack _). vm_compute. exact I.
  - vm_compute. reflexivity.
Defined.

(** C2, as stated, fails for NaN: in the frozen [c = {a: NaN, b: 1}],
    [assoc(c, 'b', 2)] returns a container whose value at [a] is NaN, as in
    [c], and NaN is not [===] to NaN. *)
Lemma sharing_fails_on_NaN :
  ∃ r s' x y, assoc 5 (VRef 1%positive) "b" (VNum 2) sample_nan = Ret r s' ∧
              js_get (VRef 1%positive) "a" sample_nan = Ret x sample_nan ∧
              js_get r "a" s' = Ret y s' ∧ strict_eq y x = false.
Proof.
  eexists _, _, _, _. split; [vm_compute; reflexivity|].
  split; [vm_compute; reflexivity|]. split; vm_compute; reflexivity.
Qed.

Lemma structural_sharing_witness :
  (∃ r s', assoc 5 (VRef 1%positive) "x" (VNum 9) sample = Ret r s' ∧
           ∃ x y, js_get (VRef 1%positive) "a" sample = Ret x sample ∧
                  js_get r "a" s' = Ret y s' ∧
                  y = x ∧ strict_eq y x = negb (is_nan x)) ∧
  (∃ r s', assocIn 5 (VRef 1%positive) (PArray ["a"; "b"]) (VNum 42) sample = Ret r s' ∧
           ∃ y, getIn r (PArray ["a"; "c"]) s' = Ret y s' ∧
                y = VNum 2 ∧ strict_eq y (VNum 2) = true).
Proof.
  destruct (structural_sharing sample wf_heap_sample) as [H1 H2]. split.
  - eexists _, _. split; [vm_compute; reflexivity|].
    eapply (H1 5 1%positive _ "x" "a" (VNum 9)).
    + reflexivity.
    + apply (bool_decide_unpack _). vm_compute. exact I.
    + apply (bool_decide_unpack _). vm_compute. exact I.
    + discriminate.
    + vm_compute. reflexivity.
  - eexists _, _. split; [vm_compute; reflexivity|].
    eapply (H2 5 (VRef 1%positive) ["a"] "b" [] "c" [] (VNum 42)).
    + discriminate.
    + apply (bool_decide_unpack _). vm_compute. exact I.
    + apply (bool_decide_unpack _). vm_compute. exact I.
    + vm_compute. reflexivity.
    + reflexivity.
Defined.

Lemma freeze_cycle_detection_witness :
  (∃ s', freeze 4 (VRef 1%positive) sample_dag = Ret (VRef 1%positive) s' ∧
         flags_only (heap sample_dag) (heap s') ∧ deep_frozen (heap s') 1%positive) ∧
  freeze 2 (VRef 1%positive) sample_cycle = Throw (Error "object has a reference cycle").
Proof.
  split.
  - destruct (freeze_cycle_detection 4 1%positive sample_dag) as [Hcyc Hdag].
    + apply (bool_decide_unpack _). vm_compute. exact I.
    + by eexists.
    + vm_compute. lia.
    + apply Hdag. intros Hbad%Hcyc. vm_compute in Hbad. discriminate Hbad.
  - destruct (freeze_cycle_detection 2 1%positive sample_cycle) as [Hcyc _].
    + apply (bool_decide_unpack _). vm_compute. exact I.
    + by eexists.
    + vm_compute. lia.
    + apply Hcyc. exists 1%positive. split; [apply rtc_refl|].
      apply tc_once. eexists _, "self". split; reflexivity.
Defined.

Lemma assoc_freezes_value_witness :
  (∃ r s', assoc 6 (VRef 1%positive) "x" (VRef 3%positive) sample_fresh = Ret r s' ∧
           js_get r "x" s' = Ret (VRef 3%positive) s' ∧
           deep_frozen (heap s') 3%positive) ∧
  (∃ r o', assoc 6 (VRef 1%positive) "x" (VRef 2%positive) sample_fresh
           = Ret (VRef r) (upd_heap <[r := o']> sample_fresh) ∧
           heap sample_fresh !! r = None ∧ o_frozen o' = true ∧
           own_get o' "x" = VRef 2%positive).
Proof.
  assert (wf_heap (heap sample_fresh)) as Hwf.
  { apply (bool_decide_unpack _). vm_compute. exact I. }
  split.
  - destruct (assoc_freezes_value 6 1%positive
                (Obj KObject true {[ "a" := VRef 2%positive ]} 0) "x" 3%positive
                (Obj KObject false {[ "m" := VRef 4%positive ]} 0) sample_fresh)
      as (Hfresh & Hcyc & _); try done.
    + vm_compute. lia.
    + apply Hfresh; [done|]. intros Hbad. specialize (Hcyc eq_refl Hbad).
      vm_compute in Hcyc. discriminate Hcyc.
  - destruct (assoc_freezes_value 6 1%positive
                (Obj KObject true {[ "a" := VRef 2%positive ]} 0) "x" 2%positive
                (Obj KObject true {[ "b" := VNum 1; "c" := VNum 2 ]} 0) sample_fresh)
      as (_ & _ & Hfrozen); try done.
    + vm_compute. lia.
    + by apply Hfrozen.
Defined.

Lemma getIn_reads_only_witness :
  ∃ v s', getIn (VRef 1%positive) (PArray ["a"; "c"]) sample = Ret v s' ∧ s' = sample.
Proof.
  eexists _, _. split; [vm_compute; reflexivity|].
  eapply (getIn_reads_only (VRef 1%positive) (PArray ["a"; "c"])). vm_compute. reflexivity.
Defined.

Lemma getIn_absent_intermediate_raises_witness :
  getIn (VRef 1%positive) (PArray (["a"; "z"] ++ ["y"; "w"])) sample = Throw TypeError.
Proof.
  apply (getIn_absent_intermediate_raises (VRef 1%positive) ["a"; "z"] ["y"; "w"] VUndef sample).
  - reflexivity.
  - by left.
  - discriminate.
Defined.

Lemma getIn_missing_last_key_witness :
  getIn (VRef 1%positive) (PArray (["a"] ++ ["z"])) sample = Ret VUndef sample ∧
  getIn (VRef 1%positive) (PArray (["a"; "b"] ++ ["z"])) sample = Ret VUndef sample.
Proof.
  split.
  - apply (getIn_missing_last_key (VRef 1%positive) ["a"] "z" (VRef 2%positive) sample).
    + reflexivity.
    + reflexivity.
    + eexists. split; [reflexivity|]. split; [reflexivity|]. by intros [? _].
  - apply (getIn_missing_last_key (VRef 1%positive) ["a"; "b"] "z" (VNum 1) sample).
    + reflexivity.
    + reflexivity.
    + exact I.
Defined.

Lemma assocIn_empty_path_raises_witness :
  assocIn 5 (VRef 1%positive) (PArray []) (VNum 1) sample = Throw TypeError ∧
  assocIn 5 (VRef 1%positive) PUndefined (VNum 1) sample = Throw TypeError ∧
  assocIn 5 (VRef 1%positive) PNull (VNum 1) sample = Throw TypeError.
Proof.
  apply (assocIn_empty_path_raises 5 (VRef 1%positive) (VNum 1) VUndef sample).
  - reflexivity.
  - by left.
  - lia.
Defined.

Lemma freeze_primitive_witness :
  freeze 1 (VStr "ab") sample = Ret (VStr "ab") sample ∧
  freeze 1 (VNum 7) sample = Ret (VNum 7) sample ∧
  freeze 1 VUndef sample = Throw TypeError.
Proof.
  refine (conj _ (conj _ _)).
  - apply (freeze_primitive 1 (VStr "ab") sample); [lia|reflexivity].
  - apply (freeze_primitive 1 (VNum 7) sample); [lia|reflexivity].
  - apply (freeze_primitive 1 VUndef sample); [lia|reflexivity].
Defined.

Lemma freeze_frame_witness :
  ∃ v s', freeze 5 (VRef 3%positive) sample_fresh = Ret v s' ∧
          calls s' = calls sample_fresh ∧
          ∀ l', ¬ rtc (edge (heap sample_fresh)) 3%positive l' →
                heap s' !! l' = heap sample_fresh !! l'.
Proof.
  eexists _, _. split; [vm_compute; reflexivity|].
  eapply (freeze_frame 5 3%positive sample_fresh).
  - apply (bool_decide_unpack _). vm_compute. exact I.
  - by eexists.
  - vm_compute. lia.
  - vm_compute. reflexivity.
Defined.

Lemma freeze_idempotent_witness :
  ∃ s', freeze 4 (VRef 1%positive) sample_dag = Ret (VRef 1%positive) s' ∧
        freeze 4 (VRef 1%positive) s' = Ret (VRef 1%positive) s'.
Proof.
  apply (freeze_idempotent 4 1%positive sample_dag).
  - apply (bool_decide_unpack _). vm_compute. exact I.
  - by eexists.
  - vm_compute. lia.
  - intros (l' & Hreach & Hcyc).
    assert (∀ a b, edge (heap sample_dag) a b → (a < b)%positive) as Hlt.
    { intros a b (o & k & Ho & Hk). unfold sample_dag in Ho. cbn [heap] in Ho.
      destruct (decide (a = 1%positive)) as [->|?].
      { rewrite lookup_insert_eq in Ho. injection Ho as <-. cbn in Hk.
        destruct (decide (k = "x")) as [->|?].
        - rewrite lookup_insert_eq in Hk. injection Hk as <-. lia.
        - rewrite lookup_insert_ne in Hk by done.
          apply lookup_singleton_Some in Hk as [_ [= <-]]. lia. }
      rewrite lookup_insert_ne in Ho by done.
      destruct (decide (a = 2%positive)) as [->|?].
      { rewrite lookup_insert_eq in Ho. injection Ho as <-. cbn in Hk.
        apply lookup_singleton_Some in Hk as [_ [= <-]]. lia. }
      rewrite lookup_insert_ne in Ho by done.
      apply lookup_singleton_Some in Ho as [_ <-]. cbn in Hk.
      by rewrite lookup_empty in Hk. }
    assert (∀ a b, tc (edge (heap sample_dag)) a b → (a < b)%positive) as Htc.
    { intros a b H. induction H as [a b H|a b c H _ IH].
      - by apply Hlt.
      - apply Hlt in H. lia. }
    apply Htc in Hcyc. lia.
Defined.

Lemma clone_shallow_copy_witness :
  ∃ r o',
    clone (VRef 1%positive) sample = Ret (VRef r) (upd_heap <[r := o']> sample) ∧
    heap sample !! r = None ∧
    o_kind o' = o_kind sample_root ∧ o_frozen o' = false ∧
    own_get o' "length" = own_get sample_root "length" ∧
    (∀ k, key_ok sample_root k → own_get o' k = own_get sample_root k) ∧
    (o_kind sample_root = KObject → o_props o' = o_props sample_root).
Proof.
  apply (clone_shallow_copy 1%positive sample_root sample).
  - apply (bool_decide_unpack _). vm_compute. exact I.
  - reflexivity.
Defined.

Lemma clone_array_positions_witness :
  ∃ r o',
    clone (VRef 1%positive) sample_sparse
    = Ret (VRef r) (upd_heap <[r := o']> sample_sparse) ∧
    o_len o' = o_len sample_sparse_obj ∧
    (∀ i, (i < o_len sample_sparse_obj)%N →
          o_props o' !! idx i
          = Some (default VUndef (o_props sample_sparse_obj !! idx i))) ∧
    (∀ k, is_Some (o_props o' !! k) → ∃ i, k = idx i ∧ (i < o_len sample_sparse_obj)%N).
Proof.
  apply (clone_array_positions 1%positive sample_sparse_obj sample_sparse).
  - reflexivity.
  - reflexivity.
  - cbn. lia.
Defined.

Lemma del_keeps_other_keys_witness :
  ∃ r o' s',
    del (VRef 2%positive) "b" sample = Ret (VRef r) s' ∧ s' = upd_heap <[r := o']> sample ∧
    heap sample !! r = None ∧
    o_kind o' = KObject ∧ o_frozen o' = true ∧
    o_props o' !! "b" = None ∧
    js_get (VRef r) "b" s' = Ret VUndef s' ∧
    ∀ k, key_ok (Obj KObject true {[ "b" := VNum 1; "c" := VNum 2 ]} 0) k → k ≠ "b" →
         ∃ x, js_get (VRef 2%positive) k sample = Ret x sample ∧
              js_get (VRef r) k s' = Ret x s'.
Proof.
  apply (del_keeps_other_keys 2%positive
           (Obj KObject true {[ "b" := VNum 1; "c" := VNum 2 ]} 0) "b" sample).
  - apply (bool_decide_unpack _). vm_compute. exact I.
  - reflexivity.
  - apply (bool_decide_unpack _). vm_compute. exact I.
Defined.

Lemma del_raises_witness :
  del (VRef 1%positive) "length" sample_array = Throw TypeError ∧
  del VUndef "a" sample_array = Throw TypeError ∧
  del VNull "a" sample_array = Throw TypeError.
Proof.
  apply (del_raises 1%positive sample_array_obj "a" sample_array).
  - reflexivity.
  - reflexivity.
  - cbn. lia.
Defined.

Lemma updates_return_new_frozen_witness :
  (∃ v s', assoc 5 (VRef 1%positive) "a" (VNum 42) sample = Ret v s' ∧
           new_frozen sample v s') ∧
  (∃ v s', del (VRef 1%positive) "a" sample = Ret v s' ∧ new_frozen sample v s') ∧
  (∃ v s', assocIn 5 (VRef 1%positive) (PArray ["a"; "b"]) (VNum 42) sample = Ret v s' ∧
           new_frozen sample v s') ∧
  (∃ v s', updateIn 5 (VRef 1%positive) (PArray ["a"; "b"]) increment sample = Ret v s' ∧
           new_frozen sample v s').
Proof.
  destruct (updates_return_new_frozen 5 (VRef 1%positive) "a" (PArray ["a"; "b"])
              (VNum 42) increment sample) as (H1 & H2 & H3 & H4).
  refine (conj _ (conj _ (conj _ _))).
  - eexists _, _. split; [vm_compute; reflexivity|]. apply H1. vm_compute. reflexivity.
  - eexists _, _. split; [vm_compute; reflexivity|]. apply H2. vm_compute. reflexivity.
  - eexists _, _. split; [vm_compute; reflexivity|]. apply H3. vm_compute. reflexivity.
  - eexists _, _. split; [vm_compute; reflexivity|]. apply H4. vm_compute. reflexivity.
Defined.

Lemma assocIn_allocates_per_segment_witness :
  ∃ v s', assocIn 5 (VRef 1%positive) (PArray ["a"; "b"; "k"]) (VRef 3%positive) sample_fresh
          = Ret v s' ∧
          size (heap s') = (size (heap sample_fresh) + 3)%nat.
Proof.
  eexists _, _. split; [vm_compute; reflexivity|].
  refine (proj2 (assocIn_allocates_per_segment 5 (VRef 1%positive) ["a"; "b"; "k"]
                   (VRef 3%positive) sample_fresh _ _ _)).
  vm_compute. reflexivity.
Defined.

Lemma assoc_array_grows_witness :
  ∃ v s', assoc 5 (VRef 1%positive) (idx 5) (VNum 60) sample_array = Ret v s' ∧
  ∃ r o', v = VRef r ∧ heap s' !! r = Some o' ∧ o_kind o' = KArray ∧
          o_len o' = N.max (o_len sample_array_obj) (5 + 1) ∧
          o_props o' !! idx 5 = Some (VNum 60) ∧
          ∀ i, (o_len sample_array_obj ≤ i)%N → i ≠ 5%N → o_props o' !! idx i = None.
Proof.
  eexists _, _. split; [vm_compute; reflexivity|].
  apply (assoc_array_grows 5 1%positive sample_array_obj 5 (idx 5) (VNum 60) sample_array).
  - reflexivity.
  - reflexivity.
  - cbn. lia.
  - vm_compute. reflexivity.
  - vm_compute. reflexivity.
Defined.

Lemma assoc_array_length_key_witness :
  (∃ r o',
     assoc 5 (VRef 1%positive) "length" (VNum 1) sample_array
     = Ret (VRef r) (upd_heap <[r := o']> sample_array) ∧
     heap sample_array !! r = None ∧ o_kind o' = KArray ∧ o_frozen o' = true ∧
     o_len o' = 1%N ∧
     ∀ i, o_props o' !! idx i
          = if decide (i < 1 ∧ i < o_len sample_array_obj)%N
            then Some (default VUndef (o_props sample_array_obj !! idx i)) else None) ∧
  assoc 5 (VRef 1%positive) "length" (VNum (-1)) sample_array = Throw RangeError ∧
  assoc 5 (VRef 1%positive) "length" (VNum (NFrac 1 1)) sample_array = Throw RangeError ∧
  assoc 5 (VRef 1%positive) "length" (VNum NNaN) sample_array = Throw RangeError.
Proof.
  refine (conj _ (conj _ (conj _ _))).
  - apply (proj1 (assoc_array_length_key 5 1%positive sample_array_obj 1 sample_array
                    eq_refl eq_refl eq_refl) 1%N).
    reflexivity.
  - apply (assoc_array_length_key 5 1%positive sample_array_obj (-1) sample_array);
      reflexivity.
  - apply (assoc_array_length_key 5 1%positive sample_array_obj (NFrac 1 1) sample_array);
      reflexivity.
  - apply (assoc_array_length_key 5 1%positive sample_array_obj NNaN sample_array);
      reflexivity.
Defined.

Lemma assoc_on_primitive_witness :
  assoc 5 (VNum 1) "x" (VNum 5) sample
  = Ret (VRef (fresh (dom (heap sample))))
        (upd_heap <[fresh (dom (heap sample)) := Obj KObject true {[ "x" := VNum 5 ]} 0]>
                  sample) ∧
  assoc 5 VUndef "x" (VNum 5) sample = Throw TypeError.
Proof.
  split.
  - apply (assoc_on_primitive 5 (VNum 1) "x" (VNum 5) sample); [reflexivity|discriminate].
  - apply (assoc_on_primitive 5 VUndef "x" (VNum 5) sample); [reflexivity|discriminate].
Defined.

Lemma updates_keep_heap_well_formed_witness :
  (∃ v s', freeze 5 (VRef 3%positive) sample_fresh = Ret v s' ∧ wf_heap (heap s')) ∧
  (∃ v s', assoc 5 (VRef 1%positive) "a" (VRef 3%positive) sample_fresh = Ret v s' ∧
           wf_heap (heap s')) ∧
  (∃ v s', del (VRef 1%positive) "a" sample_fresh = Ret v s' ∧ wf_heap (heap s')) ∧
  (∃ v s', assocIn 5 (VRef 1%positive) (PArray ["a"; "b"]) (VRef 3%positive) sample_fresh
           = Ret v s' ∧ wf_heap (heap s')).
Proof.
  destruct (updates_keep_heap_well_formed 5 1%positive sample_root "a" ["a"; "b"]
              (VRef 3%positive) (VRef 3%positive) sample_fresh) as (H1 & H2 & H3 & H4).
  - apply (bool_decide_unpack _). vm_compute. exact I.
  - reflexivity.
  - apply (bool_decide_unpack _). vm_compute. exact I.
  - apply (bool_decide_unpack _). vm_compute. exact I.
  - by eexists.
  - refine (conj _ (conj _ (conj _ _))).
    + eexists _, _. split; [vm_compute; reflexivity|]. eapply H1. vm_compute. reflexivity.
    + eexists _, _. split; [vm_compute; reflexivity|]. eapply H2. vm_compute. reflexivity.
    + eexists _, _. split; [vm_compute; reflexivity|]. eapply H3. vm_compute. reflexivity.
    + eexists _, _. split; [vm_compute; reflexivity|]. eapply H4. vm_compute. reflexivity.
Defined.

Lemma updates_keep_hierarchy_frozen_witness :
  (∃ v s', assoc 5 (VRef 1%positive) "a" (VNum 42) sample = Ret v s' ∧
           ∃ r, v = VRef r ∧ deep_frozen (heap s') r) ∧
  (∃ v s', del (VRef 1%positive) "a" sample = Ret v s' ∧
           ∃ r, v = VRef r ∧ deep_frozen (heap s') r) ∧
  (∃ v s', assocIn 5 (VRef 1%positive) (PArray ["a"; "b"]) (VNum 42) sample = Ret v s' ∧
           ∃ r, v = VRef r ∧ deep_frozen (heap s') r).
Proof.
  destruct (updates_keep_hierarchy_frozen 5 1%positive sample_root "a" ["a"; "b"]
              (VNum 42) sample) as (H1 & H2 & H3).
  - apply (bool_decide_unpack _). vm_compute. exact I.
  - reflexivity.
  - assert (map_Forall (λ _ o, o_frozen o = true) (heap sample)) as Hall.
    { apply (bool_decide_unpack _). vm_compute. exact I. }
    intros l' o' _ Hl'. by apply (Hall l' o').
  - apply (bool_decide_unpack _). vm_compute. exact I.
  - apply (bool_decide_unpack _). vm_compute. exact I.
  - discriminate.
  - exact I.
  - discriminate.
  - refine (conj _ (conj _ _)).
    + eexists _, _. split; [vm_compute; reflexivity|]. eapply H1. vm_compute. reflexivity.
    + eexists _, _. split; [vm_compute; reflexivity|]. eapply H2. vm_compute. reflexivity.
    + eexists _, _. split; [vm_compute; reflexivity|]. eapply H3. vm_compute. reflexivity.
Defined.

Lemma assocIn_succeeds_witness :
  ∃ r s', assocIn 2 (VRef 1%positive) (PArray ["a"; "z"]) (VNum 42) sample = Ret (VRef r) s' ∧
          getIn (VRef r) (PArray ["a"; "z"]) s' = Ret (VNum 42) s'.
Proof.
  apply (assocIn_succeeds 2 1%positive ["a"; "z"] (VNum 42) sample).
  - apply (bool_decide_unpack _). vm_compute. exact I.
  - apply (bool_decide_unpack _). vm_compute. exact I.
  - discriminate.
  - by left.
  - cbn. lia.
Defined.

Lemma getIn_valid_path_returns_witness :
  ∃ x, getIn (VRef 1%positive) (PArray ["a"; "z"]) sample = Ret x sample.
Proof.
  apply (getIn_valid_path_returns (VRef 1%positive) ["a"; "z"] sample).
  apply (bool_decide_unpack _). vm_compute. exact I.
Defined.

Lemma updateIn_succeeds_witness :
  ∃ existing r s',
    getIn (VRef 1%positive) (PArray ["a"; "b"]) sample = Ret existing sample ∧
    updateIn 2 (VRef 1%positive) (PArray ["a"; "b"]) (λ _, VNum 7) sample = Ret (VRef r) s' ∧
    getIn (VRef r) (PArray ["a"; "b"]) s' = Ret (VNum 7) s' ∧
    calls s' = (calls sample ++ [existing])%list.
Proof.
  apply (updateIn_succeeds 2 1%positive ["a"; "b"] (λ _, VNum 7) sample).
  - apply (bool_decide_unpack _). vm_compute. exact I.
  - apply (bool_decide_unpack _). vm_compute. exact I.
  - discriminate.
  - reflexivity.
  - cbn. lia.
Defined.

Lemma assoc_then_del_witness :
  ∃ v s1, assoc 5 (VRef 2%positive) "x" (VNum 9) sample = Ret v s1 ∧
  ∃ r s2,
    del v "x" s1 = Ret (VRef r) s2 ∧
    js_get (VRef r) "x" s2 = Ret VUndef s2 ∧
    ∀ k, key_ok (Obj KObject true {[ "b" := VNum 1; "c" := VNum 2 ]} 0) k → k ≠ "x" →
         ∃ x, js_get (VRef 2%positive) k sample = Ret x sample ∧
              js_get (VRef r) k s2 = Ret x s2.
Proof.
  eexists _, _. split; [vm_compute; reflexivity|].
  apply (assoc_then_del 5 2%positive
           (Obj KObject true {[ "b" := VNum 1; "c" := VNum 2 ]} 0) "x" (VNum 9) sample).
  - apply (bool_decide_unpack _). vm_compute. exact I.
  - reflexivity.
  - apply (bool_decide_unpack _). vm_compute. exact I.
  - exact I.
  - vm_compute. reflexivity.
Defined.

Lemma assoc_proto_adds_nothing_witness :
  ∃ r, assoc 5 (VRef 1%positive) "__proto__" (VNum 5) sample
       = Ret (VRef r) (upd_heap <[r := frz (clone_obj sample_root)]> sample) ∧
       heap sample !! r = None ∧
       o_props (frz (clone_obj sample_root)) !! "__proto__" = None.
Proof.
  apply (assoc_proto_adds_nothing 5 1%positive sample_root (VNum 5) sample).
  - apply (bool_decide_unpack _). vm_compute. exact I.
  - reflexivity.
  - reflexivity.
  - discriminate.
Defined.
